(** * The lazy MIDI tokenizer of [aria/tokenizer/tokenizer.py]

    A shallow embedding of [TokenizerLazy] and of [_get_duration_ms], followed
    by the properties of the quantizer, the pedal interval extractor, the
    duration calculator, the encoder, the windower and the augmentation
    exporters.

    Conventions.  Python integers are [Z].  Python floats are the binary64
    numbers of [PrimFloat], with the conversions Python performs written out.
    A [dict] is a [gmap]; a list is a [list].  A call that can raise returns a
    [result]; a [while] loop that Python may run forever is a fuelled loop
    whose exhaustion is the outcome [Diverge]. *)

From Equations Require Import Equations.
From stdpp Require Import gmap strings list fin_maps sorting.
From Stdlib Require Import ZArith Lia Floats.

Local Open Scope string_scope.
Local Open Scope list_scope.
Local Open Scope Z_scope.

(** ** Outcomes of a Python call *)

(** The exception classes that occur below.  [EmptySequenceError] is the class
    the specification names for an empty note stream; no statement of the
    source raises it. *)
Inductive exn :=
| IndexError
| KeyError
| ValueError
| ZeroDivisionError
| OverflowError
| UnboundLocalError
| TypeError
| AssertionError
| EmptySequenceError.

Inductive result (A : Type) :=
| Ok (a : A)
| Raise (e : exn)
| Diverge.
Arguments Ok {A} a.
Arguments Raise {A} e.
Arguments Diverge {A}.

#[global] Instance result_ret : MRet result := fun _ a => Ok a.
#[global] Instance result_bind : MBind result := fun _ _ f r =>
  match r with
  | Ok a => f a
  | Raise e => Raise e
  | Diverge => Diverge
  end.

(** [assert c] *)
Definition py_assert (c : bool) : result unit :=
  if c then Ok tt else Raise AssertionError.

(** [d[k]] on a dict *)
Definition dict_get `{Countable K} {V} (d : gmap K V) (k : K) : result V :=
  match d !! k with
  | Some v => Ok v
  | None => Raise KeyError
  end.

(** ** Python numbers and lists *)

(** A number that is an [int], or the float [float("inf")] with which
    [_find_closest_int] starts. *)
Inductive pynum :=
| PInt (z : Z)
| PInf.

Definition py_len {A} (l : list A) : Z := Z.of_nat (length l).

(** [range(n)] *)
Definition py_range (n : Z) : list Z := seqZ 0 n.

(** [l[i]] for an index [0 <= i < len(l)]; the callers below stay in range. *)
Definition py_nth (l : list Z) (i : Z) : Z := nth (Z.to_nat i) l 0.

(** [l[-1]] *)
Definition py_last {A} (l : list A) : result A :=
  match last l with
  | Some x => Ok x
  | None => Raise IndexError
  end.

(** A slice bound as Python normalises it against the length: a negative
    bound counts from the end, and the outcome is clipped to [0, len]. *)
Definition py_bound (len i : Z) : Z :=
  if bool_decide (i < 0) then Z.max 0 (i + len) else Z.min i len.

(** [l[start:stop]] *)
Definition py_slice {A} (l : list A) (start stop : Z) : list A :=
  let a := py_bound (py_len l) start in
  let b := py_bound (py_len l) stop in
  take (Z.to_nat (b - a)) (drop (Z.to_nat a) l).

(** [[x] * k]; a count that is not positive gives the empty list. *)
Definition py_repeat {A} (x : A) (k : Z) : list A := replicate (Z.to_nat k) x.

(** ** Python floats *)

(** [float(z)]: the nearest binary64 number, ties to even; an integer beyond
    the range raises [OverflowError]. *)
Definition float_of_int (z : Z) : result float :=
  let f := SF2Prim (binary_normalize prec emax z 0 false) in
  if PrimFloat.is_infinity f then Raise OverflowError else Ok f.

(** The integer part of [m * 2^e] and what is left of it, for [m] positive:
    quotient, remainder and divisor. *)
Definition scaled_parts (m : positive) (e : Z) : Z * Z * Z :=
  if bool_decide (0 <= e) then (Z.pos m * 2 ^ e, 0, 1)
  else (Z.pos m / 2 ^ (- e), Z.pos m mod 2 ^ (- e), 2 ^ (- e)).

(** [int(f)]: truncation towards zero. *)
Definition py_int (f : float) : result Z :=
  match Prim2SF f with
  | S754_zero _ => Ok 0
  | S754_infinity _ => Raise OverflowError
  | S754_nan => Raise ValueError
  | S754_finite s m e =>
      let '(q, _, _) := scaled_parts m e in
      Ok (if s then - q else q)
  end.

(** [round(f)]: the nearest integer, ties to the even one. *)
Definition py_round (f : float) : result Z :=
  match Prim2SF f with
  | S754_zero _ => Ok 0
  | S754_infinity _ => Raise OverflowError
  | S754_nan => Raise ValueError
  | S754_finite s m e =>
      let '(q, r, d) := scaled_parts m e in
      let n :=
        if bool_decide (2 * r < d) then q
        else if bool_decide (d < 2 * r) then q + 1
        else if Z.even q then q else q + 1 in
      Ok (if s then - n else n)
  end.

(** The float literal [1e-6]: the binary64 number nearest to it. *)
Definition float_1e_6 : float := 0x1.0c6f7a0b5ed8dp-20%float.

(** The float literal [1e3]. *)
Definition float_1e3 : float := 1000%float.

(** [mido.midifiles.units.tick2second], a function of the mido library:
    [scale = tempo * 1e-6 / ticks_per_beat; return tick * scale]. *)
Definition tick2second (tick tempo ticks_per_beat : Z) : result float :=
  tempo_f ← float_of_int tempo;
  if bool_decide (ticks_per_beat = 0) then Raise ZeroDivisionError else
  tpb_f ← float_of_int ticks_per_beat;
  let scale := (tempo_f * float_1e_6 / tpb_f)%float in
  tick_f ← float_of_int tick;
  Ok (tick_f * scale)%float.

(** ** The event stream *)

(** Modelled from the spec: [MidiDict] ([aria/data/midi.py]) is not among the
    sources.  Its message lists are those the tokenizer reads, with the fields
    it reads: a tempo message has a tick and a tempo and no channel; pedal and
    instrument messages have a tick, a channel and an integer payload; a note
    message has a channel and the four fields of its ["data"]; of a meta
    message only the optional channel is read. *)
Record tempo_msg := { tempo_tick : Z; tempo_data : Z }.
Record pedal_msg := { pedal_tick : Z; pedal_channel : Z; pedal_data : Z }.
Record instrument_msg := { instr_tick : Z; instr_channel : Z; instr_data : Z }.
Record note_msg := {
  note_channel : Z;
  pitch : Z;
  start : Z;
  end_ : Z;
  velocity : Z }.
Record meta_msg := { meta_channel : option Z }.

Record MidiDict := {
  meta_msgs : list meta_msg;
  tempo_msgs : list tempo_msg;
  pedal_msgs : list pedal_msg;
  instrument_msgs : list instrument_msg;
  note_msgs : list note_msg;
  ticks_per_beat : Z }.

(** ** Tokens *)

(** A token is a string (a special token or an instrument name), a pair
    [("drum", p)], [("dur", d)] or [("wait", w)], or a note triple
    [(instrument, pitch, velocity)]. *)
Inductive token :=
| TStr (s : string)
| TPair (tag : string) (v : pynum)
| TNote (instrument : string) (note_pitch : Z) (note_velocity : pynum).

Definition bos_tok : string := "<S>".
Definition eos_tok : string := "<E>".
Definition pad_tok : string := "<P>".
Definition unk_tok : string := "<U>".

(** ** The tokenizer object *)

(** The entries of [load_config()["tokenizer"]["lazy"]] that the functions
    below read; the configuration file is not among the sources. *)
Record LazyConfig := {
  time_num_steps : Z;                     (* ["time_quantization"]["num_steps"] *)
  time_min_step : Z;                      (* ["time_quantization"]["min_step"] *)
  velocity_quantization_step : Z;         (* ["velocity_quantization"]["step"] *)
  ignore_instruments : gmap string bool   (* ["ignore_instruments"] *) }.

(** The attributes of a [TokenizerLazy] that encoding and augmentation read.
    The vocabulary tables, which only [encode] and [decode] read, are left
    out. *)
Record TokenizerLazy := {
  padding : bool;
  truncate_type : string;
  max_seq_len : Z;
  stride_len : option Z;
  config : LazyConfig;
  num_time_step : Z;
  min_time_step : Z;
  time_step_quantizations : list Z;
  max_time_step : Z;
  velocity_step : Z;
  velocity_quantizations : list Z;
  max_velocity : Z }.

(** [int(127 / self.velocity_step)].  The true division of two integers is
    their exact quotient rounded to a float: for a step below [2^53] in
    absolute value, the float quotient of the two integers converted; beyond,
    a float below 1 in absolute value, whose integer part is 0. *)
Definition velocity_top_index (velocity_step : Z) : result Z :=
  if bool_decide (velocity_step = 0) then Raise ZeroDivisionError else
  if bool_decide (2 ^ 53 <= Z.abs velocity_step) then Ok 0 else
  f127 ← float_of_int 127;
  fstep ← float_of_int velocity_step;
  py_int (f127 / fstep)%float.

(** [Tokenizer.__init__] followed by [TokenizerLazy.__init__]. *)
Definition TokenizerLazy_init (padding : bool) (truncate_type : string)
    (max_seq_len : Z) (stride_len : option Z) (config : LazyConfig)
    : result TokenizerLazy :=
  _ ← py_assert (bool_decide (truncate_type ∈ ["none"; "default"; "strided"]));
  _ ← (if bool_decide (truncate_type = "strided")
       then py_assert (match stride_len with
                       | Some s => bool_decide (0 < s < max_seq_len)
                       | None => false
                       end)
       else Ok tt);
  let num_time_step := time_num_steps config in
  let min_time_step := time_min_step config in
  let time_step_quantizations :=
    (λ i, min_time_step * i) <$> py_range num_time_step in
  max_time_step ← py_last time_step_quantizations;
  let velocity_step := velocity_quantization_step config in
  k ← velocity_top_index velocity_step;
  let velocity_quantizations := (λ i, i * velocity_step) <$> py_range (k + 1) in
  max_velocity ← py_last velocity_quantizations;
  Ok {| padding := padding;
        truncate_type := truncate_type;
        max_seq_len := max_seq_len;
        stride_len := stride_len;
        config := config;
        num_time_step := num_time_step;
        min_time_step := min_time_step;
        time_step_quantizations := time_step_quantizations;
        max_time_step := max_time_step;
        velocity_step := velocity_step;
        velocity_quantizations := velocity_quantizations;
        max_velocity := max_velocity |}.

(** [self.program_to_instrument]: the sixteen General MIDI families, eight
    programs each. *)
Definition program_families : list (Z * string) :=
  [ (0, "piano"); (8, "chromatic"); (16, "organ"); (24, "guitar");
    (32, "bass"); (40, "strings"); (48, "ensemble"); (56, "brass");
    (64, "reed"); (72, "pipe"); (80, "synth_lead"); (88, "synth_pad");
    (96, "synth_effect"); (104, "ethnic"); (112, "percussive");
    (120, "sfx") ].

Definition program_to_instrument : gmap Z string :=
  list_to_map
    (concat ((λ '(first, name), (λ i, (i, name)) <$> seqZ first 8)
             <$> program_families)).

(** The drum channels [{9, 16}]. *)
Definition is_drum_channel (channel : Z) : bool :=
  bool_decide (channel = 9) || bool_decide (channel = 16).

(** ** [_remove_instruments] *)

Definition _remove_instruments (self : TokenizerLazy) (midi_dict : MidiDict)
    : result MidiDict :=
  let instruments_to_remove := ignore_instruments (config self) in
  programs_to_remove ←
    foldr (λ i rest,
             name ← dict_get program_to_instrument i;
             flag ← dict_get instruments_to_remove name;
             tl ← rest;
             Ok (if flag : bool then i :: tl else tl))
          (Ok []) (seqZ 1 127);
  let channels_to_remove :=
    instr_channel <$>
      filter (λ msg, instr_data msg ∈ programs_to_remove) (instrument_msgs midi_dict) in
  let channels_to_remove :=
    filter (λ i, is_drum_channel i = false) channels_to_remove in
  Ok {| meta_msgs :=
          filter (λ msg, default (-1) (meta_channel msg) ∉ channels_to_remove)
                 (meta_msgs midi_dict);
        tempo_msgs :=
          filter (λ _ : tempo_msg, -1 ∉ channels_to_remove) (tempo_msgs midi_dict);
        pedal_msgs :=
          filter (λ msg, pedal_channel msg ∉ channels_to_remove) (pedal_msgs midi_dict);
        instrument_msgs :=
          filter (λ msg, instr_channel msg ∉ channels_to_remove)
                 (instrument_msgs midi_dict);
        note_msgs :=
          filter (λ msg, note_channel msg ∉ channels_to_remove) (note_msgs midi_dict);
        ticks_per_beat := ticks_per_beat midi_dict |}.

(** ** [_build_pedal_intervals] *)

(** [d[channel].append(interval)] on a [defaultdict(list)]. *)
Definition dd_append (channel : Z) (interval : Z * Z)
    (d : gmap Z (list (Z * Z))) : gmap Z (list (Z * Z)) :=
  <[channel := d !!! channel ++ [interval]]> d.

(** One turn of the loop over [midi_dict.pedal_msgs]; the state is
    [channel_to_pedal_intervals] and [pedal_status]. *)
Definition pedal_step (st : gmap Z (list (Z * Z)) * gmap Z Z) (pedal_msg : pedal_msg)
    : gmap Z (list (Z * Z)) * gmap Z Z :=
  let '(channel_to_pedal_intervals, pedal_status) := st in
  let tick := pedal_tick pedal_msg in
  let channel := pedal_channel pedal_msg in
  let data := pedal_data pedal_msg in
  match pedal_status !! channel with
  | None =>
      if bool_decide (data = 1)
      then (channel_to_pedal_intervals, <[channel := tick]> pedal_status)
      else st
  | Some _start_tick =>
      if bool_decide (data = 0)
      then (dd_append channel (_start_tick, tick) channel_to_pedal_intervals,
            delete channel pedal_status)
      else st
  end.

Definition _build_pedal_intervals (midi_dict : MidiDict)
    : result (gmap Z (list (Z * Z))) :=
  let '(channel_to_pedal_intervals, pedal_status) :=
    foldl pedal_step (∅, ∅) (pedal_msgs midi_dict) in
  (* Close all unclosed pedals at end of track *)
  last_note ← py_last (note_msgs midi_dict);
  let final_tick := end_ last_note in
  Ok (map_fold (λ channel start_tick d, dd_append channel (start_tick, final_tick) d)
               channel_to_pedal_intervals pedal_status).

(** ** [_find_closest_int], [_quantize_time], [_quantize_velocity] *)

(** [diff < abs(closest - n)].  While [closest] is still [float("inf")] the
    subtraction converts [n] to a float, which raises [OverflowError] for an
    [n] beyond the range of the floats; the difference is then [inf], above
    every [diff]. *)
Definition closer (diff : Z) (closest : pynum) (n : Z) : result bool :=
  match closest with
  | PInf => _ ← float_of_int n; Ok true
  | PInt c => Ok (bool_decide (diff < Z.abs (c - n)))
  end.

(** The [while left <= right] loop. *)
Equations? closest_loop (n : Z) (sorted_list : list Z) (left_ right_ : Z)
    (closest : pynum) : result pynum by wf (Z.to_nat (right_ - left_ + 1)) lt :=
  closest_loop n sorted_list left_ right_ closest with decide (left_ <= right_) => {
    | right _ := Ok closest
    | left _ :=
        let mid := (left_ + right_) `div` 2 in
        let diff := Z.abs (py_nth sorted_list mid - n) in
        match closer diff closest n with
        | Ok is_closer =>
            let closest' :=
              if is_closer : bool then PInt (py_nth sorted_list mid) else closest in
            if bool_decide (py_nth sorted_list mid < n)
            then closest_loop n sorted_list (mid + 1) right_ closest'
            else closest_loop n sorted_list left_ (mid - 1) closest'
        | Raise e => Raise e
        | Diverge => Diverge
        end }.
Proof.
  all: subst mid; pose proof (Z.div_mod (left_ + right_) 2);
    pose proof (Z.mod_pos_bound (left_ + right_) 2); lia.
Qed.

Definition _find_closest_int (n : Z) (sorted_list : list Z) : result pynum :=
  closest_loop n sorted_list 0 (py_len sorted_list - 1) PInf.

Definition _quantize_time (self : TokenizerLazy) (time : Z) : result pynum :=
  _find_closest_int time (time_step_quantizations self).

Definition _quantize_velocity (self : TokenizerLazy) (velocity : Z) : result pynum :=
  velocity_quantized ← _find_closest_int velocity (velocity_quantizations self);
  Ok match velocity_quantized with
     | PInt 0 => if bool_decide (velocity ≠ 0) then PInt (velocity_step self)
                 else velocity_quantized
     | _ => velocity_quantized
     end.

(** ** [_get_duration_ms] *)

(** [l[i]] with the bounds check. *)
Definition py_index {A} (l : list A) (i : Z) : result A :=
  let j := if bool_decide (i < 0) then i + py_len l else i in
  if bool_decide (j < 0) then Raise IndexError else
  match l !! Z.to_nat j with
  | Some x => Ok x
  | None => Raise IndexError
  end.

(** [l[i:]] *)
Definition py_slice_from {A} (l : list A) (i : Z) : list A :=
  py_slice l i (py_len l).

(** The loop [for idx, curr_msg in enumerate(tempo_msgs)] with its [break]:
    the value [idx] has when the loop is left.  [i] is the index of the head
    of [msgs]; [idx] is the value bound so far, [None] before the first
    turn. *)
Fixpoint enumerate_until (start_tick : Z) (msgs : list tempo_msg) (i : Z)
    (idx : option Z) : option Z :=
  match msgs with
  | [] => idx
  | curr_msg :: rest =>
      if bool_decide (start_tick <= tempo_tick curr_msg) then Some i
      else enumerate_until start_tick rest (i + 1) (Some i)
  end.

(** The loop over [zip(tempo_msgs[idx:], tempo_msgs[idx + 1 :])]; the state is
    [duration] and [curr_tick]. *)
Fixpoint segment_loop (pairs : list (tempo_msg * tempo_msg))
    (end_tick ticks_per_beat : Z) (duration : float) (curr_tick : Z)
    : result (float * Z) :=
  match pairs with
  | [] => Ok (duration, curr_tick)
  | (curr_msg, next_msg) :: rest =>
      let curr_tempo := tempo_data curr_msg in
      let delta_tick :=
        if bool_decide (end_tick < tempo_tick next_msg)
        then end_tick - curr_tick
        else tempo_tick next_msg - curr_tick in
      seconds ← tick2second delta_tick curr_tempo ticks_per_beat;
      let duration := (duration + seconds)%float in
      if bool_decide (end_tick < tempo_tick next_msg)
      then Ok (duration, curr_tick)
      else segment_loop rest end_tick ticks_per_beat duration (tempo_tick next_msg)
  end.

Definition _get_duration_ms (start_tick end_tick : Z) (tempo_msgs : list tempo_msg)
    (ticks_per_beat : Z) : result Z :=
  idx ← match enumerate_until start_tick tempo_msgs 0 None with
        | Some idx => Ok idx
        | None => Raise UnboundLocalError
        end;
  let idx := if bool_decide (idx > 0) then idx - 1 else idx in
  let duration := 0%float in
  let curr_tick := start_tick in
  _ ← py_index tempo_msgs idx;
  '(duration, curr_tick) ←
    segment_loop (zip (py_slice_from tempo_msgs idx) (py_slice_from tempo_msgs (idx + 1)))
                 end_tick ticks_per_beat duration curr_tick;
  (* Case end_tick > tempo_msgs[-1]["tick"] *)
  last_msg ← py_last tempo_msgs;
  duration ←
    (if bool_decide (end_tick > tempo_tick last_msg)
     then seconds ← tick2second (end_tick - curr_tick) (tempo_data last_msg)
                                ticks_per_beat;
          Ok (duration + seconds)%float
     else Ok duration);
  py_round (duration * float_1e3)%float.

(** ** [tokenize_midi_dict] *)

(** The loop over [channel_to_pedal_intervals[msg["channel"]]] that updates
    [_end_tick]. *)
Definition extend_end_tick (_start_tick _end_tick : Z) (intervals : list (Z * Z)) : Z :=
  foldl (λ _end_tick '(pedal_start, pedal_end),
           if bool_decide (pedal_start <= _start_tick < pedal_end)
              && bool_decide (_end_tick < pedal_end)
           then pedal_end
           else _end_tick)
        _end_tick intervals.

(** The loop [while _wait_duration > self.max_time_step]; the state is
    [_wait_duration] and the tokens appended so far.  [None]: the fuel ran
    out. *)
Fixpoint wait_loop (fuel : nat) (max_time_step : Z) (_wait_duration : Z)
    (appended : list token) : option (Z * list token) :=
  match fuel with
  | O => None
  | S fuel =>
      if bool_decide (_wait_duration > max_time_step)
      then wait_loop fuel max_time_step (_wait_duration - max_time_step)
                     (appended ++ [TPair "wait" (PInt max_time_step)])
      else Some (_wait_duration, appended)
  end.

(** The tokens appended for a raw gap of [_wait_duration] ms.  A turn of the
    loop that does not lower [_wait_duration] leaves the loop condition true
    for ever, and otherwise [_wait_duration] turns are enough. *)
Definition wait_tokens (self : TokenizerLazy) (_wait_duration : Z) : result (list token) :=
  match wait_loop (S (Z.to_nat _wait_duration)) (max_time_step self) _wait_duration [] with
  | None => Diverge
  | Some (_wait_duration, appended) =>
      _wait_duration ← _quantize_time self _wait_duration;
      match _wait_duration with
      | PInt 0 => Ok appended
      | _ => Ok (appended ++ [TPair "wait" _wait_duration])
      end
  end.

(** The tokens of one note message, before its wait tokens. *)
Definition note_tokens (self : TokenizerLazy) (channel_to_instrument : gmap Z string)
    (channel_to_pedal_intervals : gmap Z (list (Z * Z)))
    (tempo_msgs : list tempo_msg) (ticks_per_beat : Z) (msg : note_msg)
    : result (list token) :=
  if is_drum_channel (note_channel msg)
  then Ok [TPair "drum" (PInt (pitch msg))]
  else
    _instrument ← dict_get channel_to_instrument (note_channel msg);
    let _end_tick :=
      extend_end_tick (start msg) (end_ msg)
                      (channel_to_pedal_intervals !!! note_channel msg) in
    _note_duration ← _get_duration_ms (start msg) _end_tick tempo_msgs ticks_per_beat;
    _velocity ← _quantize_velocity self (velocity msg);
    _note_duration ← _quantize_time self _note_duration;
    let _note_duration :=
      match _note_duration with
      | PInt 0 => PInt (min_time_step self)
      | _ => _note_duration
      end in
    Ok [TNote _instrument (pitch msg) _velocity; TPair "dur" _note_duration].

(** The loop over [enumerate(midi_dict.note_msgs)]: [i <= num_notes - 2]
    holds when a message follows the current one. *)
Fixpoint tokenize_notes (self : TokenizerLazy) (channel_to_instrument : gmap Z string)
    (channel_to_pedal_intervals : gmap Z (list (Z * Z)))
    (tempo_msgs : list tempo_msg) (ticks_per_beat : Z) (msgs : list note_msg)
    : result (list token) :=
  match msgs with
  | [] => Ok []
  | msg :: rest =>
      toks ← note_tokens self channel_to_instrument channel_to_pedal_intervals
                         tempo_msgs ticks_per_beat msg;
      waits ← match rest with
              | next_msg :: _ =>
                  _wait_duration ← _get_duration_ms (start msg) (start next_msg)
                                                    tempo_msgs ticks_per_beat;
                  wait_tokens self _wait_duration
              | [] => Ok []
              end;
      tokenized_rest ← tokenize_notes self channel_to_instrument
                                      channel_to_pedal_intervals tempo_msgs
                                      ticks_per_beat rest;
      Ok (toks ++ waits ++ tokenized_rest)
  end.

(** [channel_to_instrument]: the dict comprehension over the instrument
    messages outside the drum channels. *)
Definition channel_to_instrument_of (msgs : list instrument_msg) : result (gmap Z string) :=
  foldl (λ acc msg,
           d ← acc;
           if is_drum_channel (instr_channel msg) then Ok d
           else name ← dict_get program_to_instrument (instr_data msg);
                Ok (<[instr_channel msg := name]> d))
        (Ok ∅) msgs.

(** [present_instruments] as it stands before [list(set(...))]. *)
Definition declared_instruments (msgs : list instrument_msg) : result (list string) :=
  names ← mapM (λ msg, dict_get program_to_instrument (instr_data msg))
               (filter (λ msg, is_drum_channel (instr_channel msg) = false) msgs);
  let channels_used : gset Z := list_to_set (instr_channel <$> msgs) in
  Ok (if bool_decide (9 ∈ channels_used) || bool_decide (16 ∈ channels_used)
      then names ++ ["drums"]
      else names).

(** [present_instruments]; [list_of_set l] stands for [list(set(l))], whose
    order Python leaves to the hash table. *)
Definition present_instruments_of (list_of_set : list string → list string)
    (msgs : list instrument_msg) : result (list string) :=
  names ← declared_instruments msgs;
  Ok (list_of_set names).

(** The loop [while idx + self.max_seq_len - prefix_len < seq_len]; the state
    is [idx] and [res]. *)
Fixpoint strided_loop (fuel : nat) (self : TokenizerLazy)
    (present_instruments _res : list token) (idx : Z) (res : list (list token))
    : result (Z * list (list token)) :=
  match fuel with
  | O => Diverge
  | S fuel =>
      let seq_len := py_len _res in
      let prefix_len := py_len present_instruments in
      if bool_decide (idx + max_seq_len self - prefix_len < seq_len)
      then
        let res :=
          res ++ [present_instruments
                  ++ py_slice _res idx (idx + max_seq_len self - prefix_len)] in
        match stride_len self with
        | None => Raise TypeError
        | Some stride => strided_loop fuel self present_instruments _res (idx + stride) res
        end
      else Ok (idx, res)
  end.

(** The [truncate_type == "strided"] branch.  With a stride that is not
    positive the loop condition stays true once it holds, and otherwise
    [seq_len - (max_seq_len - prefix_len)] turns are enough. *)
Definition strided_windows (self : TokenizerLazy)
    (present_instruments tokenized_seq : list token) : result (list (list token)) :=
  let _res := [TStr bos_tok] ++ tokenized_seq ++ [TStr eos_tok] in
  let seq_len := py_len _res in
  let prefix_len := py_len present_instruments in
  '(idx, res) ←
    strided_loop (S (Z.to_nat (seq_len - (max_seq_len self - prefix_len))))
                 self present_instruments _res 0 [];
  (* Add the last sequence *)
  let _seq :=
    present_instruments ++ py_slice _res idx (idx + max_seq_len self - prefix_len) in
  let _seq :=
    if padding self
    then _seq ++ py_repeat (TStr pad_tok) (max_seq_len self - py_len _seq)
    else _seq in
  Ok (res ++ [_seq]).

(** The return of [tokenize_midi_dict] according to the truncation setting. *)
Definition windows (self : TokenizerLazy)
    (present_instruments tokenized_seq : list token) : result (list (list token)) :=
  if bool_decide (truncate_type self = "none") then
    Ok [present_instruments ++ [TStr bos_tok] ++ tokenized_seq ++ [TStr eos_tok]]
  else if bool_decide (truncate_type self = "default") then
    let _res := present_instruments ++ [TStr bos_tok] ++ tokenized_seq ++ [TStr eos_tok] in
    let _res :=
      if padding self
      then _res ++ py_repeat (TStr pad_tok) (max_seq_len self - py_len _res)
      else _res in
    Ok [py_slice _res 0 (max_seq_len self)]
  else if bool_decide (truncate_type self = "strided") then
    strided_windows self present_instruments tokenized_seq
  else Raise UnboundLocalError.

Definition tokenize_midi_dict (list_of_set : list string → list string)
    (self : TokenizerLazy) (midi_dict : MidiDict) : result (list (list token)) :=
  let ticks_per_beat := ticks_per_beat midi_dict in
  midi_dict ← _remove_instruments self midi_dict;
  channel_to_pedal_intervals ← _build_pedal_intervals midi_dict;
  channel_to_instrument ← channel_to_instrument_of (instrument_msgs midi_dict);
  present_instruments ← present_instruments_of list_of_set (instrument_msgs midi_dict);
  tokenized_seq ← tokenize_notes self channel_to_instrument channel_to_pedal_intervals
                                 (tempo_msgs midi_dict) ticks_per_beat
                                 (note_msgs midi_dict);
  windows self (TStr <$> present_instruments) tokenized_seq.

(** ** [export_pitch_aug], [export_velocity_aug] *)

(** [_tok_type] is one of ["special"], ["dur"], ["drum"], ["wait"]. *)
Definition returned_unchanged (_tok_type : string) : bool :=
  bool_decide (_tok_type = "special") || bool_decide (_tok_type = "dur")
  || bool_decide (_tok_type = "drum") || bool_decide (_tok_type = "wait").

(** A pair that reaches the unpacking into three names raises. *)
Definition pitch_aug_tok (unk_tok : string) (tok : token) (_pitch_aug : Z) : result token :=
  match tok with
  | TStr _ => Ok tok
  | TPair _tok_type _ =>
      if returned_unchanged _tok_type then Ok tok else Raise ValueError
  | TNote _instrument _pitch _velocity =>
      if returned_unchanged _instrument then Ok tok
      else if bool_decide (0 <= _pitch + _pitch_aug <= 127)
      then Ok (TNote _instrument (_pitch + _pitch_aug) _velocity)
      else Ok (TStr unk_tok)
  end.

(** [pitch_aug] is the value [randint(-_aug_range, _aug_range)] returns;
    [randint] raises on an empty range. *)
Definition pitch_aug_seq (src : list token) (unk_tok : string) (_aug_range : Z)
    (pitch_aug : Z) : result (list token) :=
  if bool_decide (_aug_range < 0) then Raise ValueError else
  mapM (λ x, pitch_aug_tok unk_tok x pitch_aug) src.

Definition export_pitch_aug (self : TokenizerLazy) (aug_range : Z)
    : list token → Z → result (list token) :=
  λ src pitch_aug, pitch_aug_seq src unk_tok aug_range pitch_aug.

(** [_velocity + _velocity_aug >= bound] and [<= bound] on a velocity that may
    be [float("inf")]: the sum then converts the offset to a float, which
    raises [OverflowError] for an offset beyond the range of the floats, and
    is [inf]. *)
Definition sum_ge (v : pynum) (aug bound : Z) : result bool :=
  match v with
  | PInt v => Ok (bool_decide (v + aug >= bound))
  | PInf => _ ← float_of_int aug; Ok true
  end.
Definition sum_le (v : pynum) (aug bound : Z) : result bool :=
  match v with
  | PInt v => Ok (bool_decide (v + aug <= bound))
  | PInf => _ ← float_of_int aug; Ok false
  end.

(** [_velocity + _velocity_aug] once both comparisons have been made. *)
Definition pynum_add (v : pynum) (aug : Z) : pynum :=
  match v with
  | PInt v => PInt (v + aug)
  | PInf => PInf
  end.

Definition velocity_aug_tok (velocity_step max_velocity : Z) (tok : token)
    (_velocity_aug : Z) : result token :=
  match tok with
  | TStr _ => Ok tok
  | TPair _tok_type _ =>
      if returned_unchanged _tok_type then Ok tok else Raise ValueError
  | TNote _instrument _pitch _velocity =>
      if returned_unchanged _instrument then Ok tok else
      above ← sum_ge _velocity _velocity_aug max_velocity;
      if above : bool then Ok (TNote _instrument _pitch (PInt max_velocity)) else
      below ← sum_le _velocity _velocity_aug velocity_step;
      if below : bool then Ok (TNote _instrument _pitch (PInt velocity_step)) else
      Ok (TNote _instrument _pitch (pynum_add _velocity _velocity_aug))
  end.

(** [drawn] is the value [randint(-_aug_steps_range, _aug_steps_range)]
    returns. *)
Definition velocity_aug_seq (src : list token) (velocity_step max_velocity : Z)
    (_aug_steps_range : Z) (drawn : Z) : result (list token) :=
  if bool_decide (_aug_steps_range < 0) then Raise ValueError else
  let velocity_aug := velocity_step * drawn in
  mapM (λ x, velocity_aug_tok velocity_step max_velocity x velocity_aug) src.

Definition export_velocity_aug (self : TokenizerLazy) (aug_steps_range : Z)
    : list token → Z → result (list token) :=
  λ src drawn,
    velocity_aug_seq src (velocity_step self) (max_velocity self) aug_steps_range drawn.


(** ** The vocabulary, [encode], [decode] *)

#[global] Instance pynum_eq_dec : EqDecision pynum.
Proof. solve_decision. Defined.

#[global] Instance token_eq_dec : EqDecision token.
Proof. solve_decision. Defined.

#[global] Instance pynum_countable : Countable pynum.
Proof.
  refine (inj_countable' (λ n, match n with PInt z => Some z | PInf => None end)
                         (λ o, match o with Some z => PInt z | None => PInf end) _).
  by intros [].
Defined.

#[global] Instance token_countable : Countable token.
Proof.
  refine (inj_countable'
            (λ tok, match tok with
                    | TStr s => inl s
                    | TPair tag v => inr (inl (tag, v))
                    | TNote i p v => inr (inr (i, p, v))
                    end)
            (λ x, match x with
                  | inl s => TStr s
                  | inr (inl (tag, v)) => TPair tag v
                  | inr (inr (i, p, v)) => TNote i p v
                  end) _).
  by intros [].
Defined.

(** [enumerate(l)] *)
Definition py_enumerate {A} (l : list A) : list (Z * A) := zip (seqZ 0 (py_len l)) l.

(** The vocabulary of [TokenizerLazy.__init__] and the two dicts built from
    it.  [ignore_items] is [self.config["ignore_instruments"].items()]: the
    flags in the order of the configuration file. *)
Module Vocab.

Definition instrument_tokens (ignore_items : list (string * bool)) : list string :=
  (filter (λ kv : string * bool, kv.2 = false) ignore_items).*1 ++ ["drums"].

Definition special_tokens : list token :=
  [TStr bos_tok; TStr eos_tok; TStr pad_tok; TStr unk_tok].

Definition wait_tokens (self : TokenizerLazy) : list token :=
  (λ i, TPair "wait" (PInt i)) <$> time_step_quantizations self.

(** [range(35, 82)] *)
Definition drum_tokens : list token :=
  (λ i, TPair "drum" (PInt i)) <$> seqZ 35 (82 - 35).

(** [itertools.product]: the last component runs fastest. *)
Definition note_tokens (self : TokenizerLazy) (ignore_items : list (string * bool))
    : list token :=
  _instrument ← instrument_tokens ignore_items;
  _pitch ← py_range 128;
  _velocity ← velocity_quantizations self;
  [TNote _instrument _pitch (PInt _velocity)].

Definition vocab (self : TokenizerLazy) (ignore_items : list (string * bool))
    : list token :=
  special_tokens
  ++ (TStr <$> instrument_tokens ignore_items)
  ++ note_tokens self ignore_items
  ++ drum_tokens
  ++ wait_tokens self.

(** [{tok: idx for idx, tok in enumerate(self.vocab)}]: a token that comes
    twice keeps its later index. *)
Definition tok_to_id (self : TokenizerLazy) (ignore_items : list (string * bool))
    : gmap token Z :=
  foldl (λ d '(idx, tok), <[tok := idx]> d) ∅ (py_enumerate (vocab self ignore_items)).

(** [{v: k for k, v in self.tok_to_id.items()}] *)
Definition id_to_tok (self : TokenizerLazy) (ignore_items : list (string * bool))
    : gmap Z token :=
  map_fold (λ k v d, <[v := k]> d) ∅ (tok_to_id self ignore_items).

Definition vocab_size (self : TokenizerLazy) (ignore_items : list (string * bool)) : Z :=
  py_len (vocab self ignore_items).

Definition pad_id (self : TokenizerLazy) (ignore_items : list (string * bool))
    : result Z :=
  dict_get (tok_to_id self ignore_items) (TStr pad_tok).

End Vocab.

(** [_enc_fn]: the default [self.tok_to_id[self.unk_tok]] is looked up
    before [get] is called. *)
Definition _enc_fn (tok_to_id : gmap token Z) (tok : token) : result Z :=
  unk_id ← dict_get tok_to_id (TStr unk_tok);
  Ok (default unk_id (tok_to_id !! tok)).

(** [Tokenizer.encode] where [return_tensors] is [False]. *)
Definition encode (tok_to_id : gmap token Z) (unencoded_seq : list token)
    : result (list Z) :=
  mapM (_enc_fn tok_to_id) unencoded_seq.

Definition _dec_fn (id_to_tok : gmap Z token) (id : Z) : token :=
  default (TStr unk_tok) (id_to_tok !! id).

(** [Tokenizer.decode] of a list of ids. *)
Definition decode (id_to_tok : gmap Z token) (encoded_seq : list Z) : list token :=
  _dec_fn id_to_tok <$> encoded_seq.
(** * The statements

    The notions in which the properties are stated, the example inputs, and
    the definitions that follow the words of the specification where a
    property compares the code with them. *)

(** An ascending ladder; equal neighbours are allowed. *)
Definition ascending (l : list Z) : Prop := StronglySorted Z.le l.

(** [c] is an element of [l] that minimises the absolute difference to [n]. *)
Definition nearest_in (l : list Z) (n c : Z) : Prop :=
  c ∈ l ∧ ∀ x, x ∈ l → Z.abs (c - n) <= Z.abs (x - n).

(** The quantizer as the specification words it: a nearest element, and the
    lower-valued one of two that are equally close. *)
Definition nearest_lower_on_tie (l : list Z) (n : Z) (r : result pynum) : Prop :=
  ∃ c, r = Ok (PInt c) ∧ nearest_in l n c
       ∧ ∀ x, x ∈ l → Z.abs (x - n) = Z.abs (c - n) → c <= x.

(** [float(n)] does not raise: [n] is within the range of the floats. *)
Definition converts (n : Z) : Prop := ∃ f, float_of_int n = Ok f.

(** The elements of the ladder that the search probes, in the order of their
    probing. *)
Equations? probed (n : Z) (sorted_list : list Z) (left_ right_ : Z) : list Z
    by wf (Z.to_nat (right_ - left_ + 1)) lt :=
  probed n sorted_list left_ right_ with decide (left_ <= right_) => {
    | right _ := []
    | left _ :=
        let mid := (left_ + right_) `div` 2 in
        py_nth sorted_list mid
        :: if bool_decide (py_nth sorted_list mid < n)
           then probed n sorted_list (mid + 1) right_
           else probed n sorted_list left_ (mid - 1) }.
Proof.
  all: subst mid; pose proof (Z.div_mod (left_ + right_) 2);
    pose proof (Z.mod_pos_bound (left_ + right_) 2); lia.
Qed.

(** What a probe makes of [closest]: the probed element where it is
    strictly closer to [n], or [closest] is still [float("inf")]. *)
Definition keep_closer (n : Z) (closest : pynum) (x : Z) : pynum :=
  if match closest with
     | PInf => true
     | PInt c => bool_decide (Z.abs (x - n) < Z.abs (c - n))
     end
  then PInt x else closest.

(** Where the sequence has a note, not of a reserved type, whose velocity is
    [float("inf")], the offset is within the range of the floats. *)
Definition inf_velocity_offset_ok (src : list token) (offset : Z) : Prop :=
  ∀ _instrument _pitch,
    TNote _instrument _pitch PInf ∈ src →
    returned_unchanged _instrument = false →
    converts offset.

(** [closest] is an [int] no farther from [n] than [x] is. *)
Definition at_least_as_close (n : Z) (closest : pynum) (x : Z) : Prop :=
  match closest with
  | PInt c => Z.abs (c - n) <= Z.abs (x - n)
  | PInf => False
  end.

(** [closest] is still [float("inf")] or an element of [l]. *)
Definition drawn_from (l : list Z) (closest : pynum) : Prop :=
  match closest with
  | PInt c => c ∈ l
  | PInf => True
  end.

(** A configuration with a minimum step of 10 ms, a maximum bucket of 100 ms
    and a velocity step of 10, and the tokenizer built from it. *)
Definition example_config : LazyConfig :=
  {| time_num_steps := 11;
     time_min_step := 10;
     velocity_quantization_step := 10;
     ignore_instruments :=
       list_to_map ((λ '(_, name), (name, false)) <$> program_families) |}.

(** The object [__init__] returns for [example_config]. *)
Definition example_tokenizer (padding_ : bool) (truncate_type_ : string)
    (max_seq_len_ : Z) (stride_len_ : option Z) : TokenizerLazy :=
  {| padding := padding_;
     truncate_type := truncate_type_;
     max_seq_len := max_seq_len_;
     stride_len := stride_len_;
     config := example_config;
     num_time_step := 11;
     min_time_step := 10;
     time_step_quantizations := [0; 10; 20; 30; 40; 50; 60; 70; 80; 90; 100];
     max_time_step := 100;
     velocity_step := 10;
     velocity_quantizations := [0; 10; 20; 30; 40; 50; 60; 70; 80; 90; 100; 110; 120];
     max_velocity := 120 |}.


(** The value of a wait token is an [int] of the time ladder, at most the
    ladder's maximum. *)
Definition wait_value_ok (self : TokenizerLazy) (v : pynum) : Prop :=
  ∃ q, v = PInt q ∧ q ∈ time_step_quantizations self ∧ q <= max_time_step self.

(** A token that, if it is a wait token, carries such a value. *)
Definition wait_ok (self : TokenizerLazy) (tok : token) : Prop :=
  ∀ v, tok = TPair "wait" v → wait_value_ok self v.

(** The window the strided branch cuts at offset [idx]. *)
Definition strided_window (self : TokenizerLazy) (present_instruments _res : list token)
    (idx : Z) : list token :=
  present_instruments
  ++ py_slice _res idx (idx + max_seq_len self - py_len present_instruments).

(** The last window: padded to [max_seq_len] when padding is enabled. *)
Definition last_window (self : TokenizerLazy) (present_instruments _res : list token)
    (idx : Z) : list token :=
  let _seq := strided_window self present_instruments _res idx in
  if padding self
  then _seq ++ py_repeat (TStr pad_tok) (max_seq_len self - py_len _seq)
  else _seq.

(** A prefix of 2 tokens. *)
Definition example_prefix : list token := [TStr "piano"; TStr "bass"].

(** The 8 tokens between [<S>] and [<E>]. *)
Definition example_body : list token :=
  (λ i, TPair "wait" (PInt (10 * i))) <$> seqZ 1 8.

(** One interval ends no later than the other starts. *)
Definition precedes (a b : Z * Z) : Prop := a.2 <= b.1.

(** Each interval of the list precedes all later ones. *)
Definition chained (l : list (Z * Z)) : Prop := StronglySorted precedes l.

(** Two intervals, read as half-open ranges, share a tick. *)
Definition overlap (a b : Z * Z) : Prop := ∃ t, a.1 <= t < a.2 ∧ b.1 <= t < b.2.

(** No two intervals of the list overlap. *)
Definition pairwise_disjoint (l : list (Z * Z)) : Prop :=
  ∀ (i j : nat) a b, i ≠ j → l !! i = Some a → l !! j = Some b → ¬ overlap a b.

(** The pedal messages come in the order of their ticks. *)
Definition tick_ordered (msgs : list pedal_msg) : Prop :=
  StronglySorted Z.le (pedal_tick <$> msgs).

(** The pedal intervals as the specification words them: per channel, no two
    overlap and each has its start before its end. *)
Definition disjoint_and_proper (d : gmap Z (list (Z * Z))) : Prop :=
  ∀ channel, pairwise_disjoint (d !!! channel)
             ∧ Forall (λ interval, interval.1 < interval.2) (d !!! channel).

(** The state of the scan after the messages up to tick [T]: the closed
    intervals of each channel are chained, proper up to equality and end by
    [T]; a pedal held since [s] was pressed by [T], after every interval
    closed on its channel. *)
Definition scan_inv (T : Z) (st : gmap Z (list (Z * Z)) * gmap Z Z) : Prop :=
  (∀ channel, chained (st.1 !!! channel)
              ∧ Forall (λ interval, interval.1 <= interval.2 ∧ interval.2 <= T)
                       (st.1 !!! channel))
  ∧ (∀ channel s, st.2 !! channel = Some s →
                  s <= T ∧ Forall (λ interval, interval.2 <= s) (st.1 !!! channel)).

(** A stream whose pedal is pressed and released at the same tick. *)
Definition pedal_tap : MidiDict :=
  {| meta_msgs := [];
     tempo_msgs := [ {| tempo_tick := 0; tempo_data := 500000 |} ];
     pedal_msgs := [ {| pedal_tick := 5; pedal_channel := 0; pedal_data := 1 |};
                     {| pedal_tick := 5; pedal_channel := 0; pedal_data := 0 |} ];
     instrument_msgs := [ {| instr_tick := 0; instr_channel := 0; instr_data := 0 |} ];
     note_msgs := [ {| note_channel := 0; pitch := 60; start := 0; end_ := 10;
                       velocity := 64 |} ];
     ticks_per_beat := 480 |}.

(** A pedal pressed at tick 1000, after the only note has ended at 900. *)
Definition pedal_after_last_note : MidiDict :=
  {| meta_msgs := [];
     tempo_msgs := [ {| tempo_tick := 0; tempo_data := 500000 |} ];
     pedal_msgs := [ {| pedal_tick := 1000; pedal_channel := 0; pedal_data := 1 |} ];
     instrument_msgs := [ {| instr_tick := 0; instr_channel := 0; instr_data := 0 |} ];
     note_msgs := [ {| note_channel := 0; pitch := 60; start := 0; end_ := 900;
                       velocity := 64 |} ];
     ticks_per_beat := 480 |}.

(** The configuration has an ignore flag for each of the sixteen families. *)
Definition config_complete (config_ : LazyConfig) : Prop :=
  Forall (λ family : Z * string, is_Some (ignore_instruments config_ !! family.2))
         program_families.

(** A stream with a tempo, an instrument declaration and a pedal press, and
    no note. *)
Definition no_notes : MidiDict :=
  {| meta_msgs := [];
     tempo_msgs := [ {| tempo_tick := 0; tempo_data := 500000 |} ];
     pedal_msgs := [ {| pedal_tick := 10; pedal_channel := 0; pedal_data := 1 |} ];
     instrument_msgs := [ {| instr_tick := 0; instr_channel := 0; instr_data := 0 |} ];
     note_msgs := [];
     ticks_per_beat := 480 |}.

(** What [list(set(l))] is known to return, whatever the order of the hash
    table: each element of [l], once. *)
Definition set_order (list_of_set : list string → list string) : Prop :=
  ∀ l, NoDup (list_of_set l) ∧ ∀ x, x ∈ list_of_set l ↔ x ∈ l.

(** The elements of a list in the order of their first occurrence. *)
Fixpoint first_occurrences (l : list string) : list string :=
  match l with
  | [] => []
  | x :: rest => x :: filter (λ y, y ≠ x) (first_occurrences rest)
  end.

(** The prefix as the specification words it: the names of the instruments
    declared outside the drum channels, in the order of their first
    occurrence, then the drum marker when a drum channel is declared. *)
Definition spec_present_instruments (msgs : list instrument_msg) : result (list string) :=
  names ← mapM (λ msg, dict_get program_to_instrument (instr_data msg))
               (filter (λ msg, is_drum_channel (instr_channel msg) = false) msgs);
  Ok (first_occurrences names
      ++ if bool_decide (Exists (λ msg, is_drum_channel (instr_channel msg) = true) msgs)
         then ["drums"] else []).

(** A piano on channel 0 and a bass on channel 1. *)
Definition piano_then_bass : list instrument_msg :=
  [ {| instr_tick := 0; instr_channel := 0; instr_data := 0 |};
    {| instr_tick := 0; instr_channel := 1; instr_data := 32 |} ].

(** The names collected from the declarations. *)
Definition declared (msgs : list instrument_msg) (x : string) : Prop :=
  (∃ msg, msg ∈ msgs ∧ is_drum_channel (instr_channel msg) = false
          ∧ program_to_instrument !! instr_data msg = Some x)
  ∨ (x = "drums" ∧ ∃ msg, msg ∈ msgs ∧ is_drum_channel (instr_channel msg) = true).

(** A note token: a triple whose first component is not one of the reserved
    token types. *)
Definition note_with (P : Z → pynum → Prop) (tok : token) : Prop :=
  ∀ _instrument _pitch _velocity,
    tok = TNote _instrument _pitch _velocity →
    returned_unchanged _instrument = false → P _pitch _velocity.

(** No pair of the sequence has a type outside the reserved ones. *)
Definition pairs_known (src : list token) : Prop :=
  ∀ _tok_type v, TPair _tok_type v ∈ src → returned_unchanged _tok_type = true.

(** What the pitch augmentation makes of a token. *)
Definition pitch_shifted (pitch_aug : Z) (tok tok' : token) : Prop :=
  match tok with
  | TNote _instrument _pitch _velocity =>
      if returned_unchanged _instrument then tok' = tok
      else if bool_decide (0 <= _pitch + pitch_aug <= 127)
      then tok' = TNote _instrument (_pitch + pitch_aug) _velocity
      else tok' = TStr unk_tok
  | _ => tok' = tok
  end.

(** What the velocity augmentation makes of a token: the sum, kept between
    the velocity step and the maximum. *)
Definition velocity_shifted (velocity_step_ max_velocity_ velocity_aug : Z)
    (tok tok' : token) : Prop :=
  match tok with
  | TNote _instrument _pitch _velocity =>
      if returned_unchanged _instrument then tok' = tok
      else ∃ q, tok' = TNote _instrument _pitch (PInt q)
                ∧ velocity_step_ <= q <= max_velocity_
                ∧ match _velocity with
                  | PInt v => q = Z.max velocity_step_ (Z.min max_velocity_ (v + velocity_aug))
                  | PInf => q = max_velocity_
                  end
  | _ => tok' = tok
  end.

(** A note near the top of the pitch range, a quiet note, a loud note and a
    wait token. *)
Definition example_tokens : list token :=
  [ TNote "piano" 125 (PInt 60); TNote "piano" 60 (PInt 10);
    TNote "bass" 40 (PInt 120); TPair "wait" (PInt 50) ].

(** The ticks of [start_tick, end_tick) that fall in the segment [a, b). *)
Definition ticks_within (start_tick end_tick a b : Z) : Z :=
  Z.max 0 (Z.min end_tick b - Z.max start_tick a).

(** The duration as the specification words it, before the division by the
    ticks per beat: each segment's share of [start_tick, end_tick) at that
    segment's tempo, the last tempo holding from the last entry on.  The
    unit is the microsecond times the ticks per beat. *)
Fixpoint tempo_integral (start_tick end_tick : Z) (tempo_msgs : list tempo_msg) : Z :=
  match tempo_msgs with
  | [] => 0
  | curr_msg :: rest =>
      match rest with
      | [] => Z.max 0 (end_tick - Z.max start_tick (tempo_tick curr_msg))
              * tempo_data curr_msg
      | next_msg :: _ =>
          ticks_within start_tick end_tick (tempo_tick curr_msg) (tempo_tick next_msg)
          * tempo_data curr_msg
          + tempo_integral start_tick end_tick rest
      end
  end.

(** [n / d] rounded to the nearest integer, ties to the even one. *)
Definition round_half_even (n d : Z) : Z :=
  let q := n `div` d in
  let r := n `mod` d in
  if bool_decide (2 * r < d) then q
  else if bool_decide (d < 2 * r) then q + 1
  else if Z.even q then q else q + 1.

(** The integral in milliseconds, rounded once. *)
Definition spec_duration_ms (start_tick end_tick : Z) (tempo_msgs : list tempo_msg)
    (ticks_per_beat : Z) : Z :=
  round_half_even (tempo_integral start_tick end_tick tempo_msgs) (1000 * ticks_per_beat).

(** A tempo of 500000 from tick 0 and of 1000000 from tick 100. *)
Definition two_tempos : list tempo_msg :=
  [ {| tempo_tick := 0; tempo_data := 500000 |};
    {| tempo_tick := 100; tempo_data := 1000000 |} ].

(** A single tempo of 500000 from tick 0. *)
Definition one_tempo : list tempo_msg :=
  [ {| tempo_tick := 0; tempo_data := 500000 |} ].


(** ** What the encoder emits *)

(** A name of [program_to_instrument]. *)
Definition family_name (name : string) : Prop :=
  ∃ program, program_to_instrument !! program = Some name.

(** The instrument declarations of a channel, in the order of the stream. *)
Definition declarations_on (channel : Z) (msgs : list instrument_msg)
    : list instrument_msg :=
  filter (λ msg, instr_channel msg = channel) msgs.

(** A token as the encoder builds it: a string; a drum pitch; a wait or a
    duration that is a value of the time ladder and at least the minimum
    step; a note of a named instrument whose velocity is a value of the
    velocity ladder. *)
Definition emitted_ok (self : TokenizerLazy) (tok : token) : Prop :=
  match tok with
  | TStr _ => True
  | TPair tag v =>
      ∃ q, v = PInt q
           ∧ (tag = "drum"
              ∨ ((tag = "wait" ∨ tag = "dur")
                 ∧ q ∈ time_step_quantizations self
                 ∧ min_time_step self <= q <= max_time_step self))
  | TNote _instrument _ v =>
      family_name _instrument ∧ ∃ q, v = PInt q ∧ q ∈ velocity_quantizations self
  end.

(** A piano on channel 0 held by the pedal, and a drum hit half a second
    later. *)
Definition piano_and_drum : MidiDict :=
  {| meta_msgs := [];
     tempo_msgs := [ {| tempo_tick := 0; tempo_data := 500000 |} ];
     pedal_msgs := [ {| pedal_tick := 0; pedal_channel := 0; pedal_data := 1 |};
                     {| pedal_tick := 960; pedal_channel := 0; pedal_data := 0 |} ];
     instrument_msgs := [ {| instr_tick := 0; instr_channel := 0; instr_data := 0 |};
                          {| instr_tick := 0; instr_channel := 9; instr_data := 0 |} ];
     note_msgs := [ {| note_channel := 0; pitch := 60; start := 0; end_ := 48;
                       velocity := 64 |};
                    {| note_channel := 9; pitch := 36; start := 480; end_ := 490;
                       velocity := 100 |} ];
     ticks_per_beat := 480 |}.

(** ** Which channels [_remove_instruments] removes *)

(** A program that [programs_to_remove] lists: one of [range(1, 127 + 1)]
    whose instrument the configuration flags. *)
Definition ignored_program (config_ : LazyConfig) (program : Z) : Prop :=
  1 <= program <= 127
  ∧ ∃ name, program_to_instrument !! program = Some name
            ∧ ignore_instruments config_ !! name = Some true.

(** A channel outside the drum channels with a declaration of such a
    program. *)
Definition removed_channel (config_ : LazyConfig) (msgs : list instrument_msg)
    (channel : Z) : Prop :=
  is_drum_channel channel = false
  ∧ ∃ msg, msg ∈ msgs ∧ instr_channel msg = channel
           ∧ ignored_program config_ (instr_data msg).

(** The configuration that flags every instrument. *)
Definition ignore_all : LazyConfig :=
  {| time_num_steps := 11;
     time_min_step := 10;
     velocity_quantization_step := 10;
     ignore_instruments := list_to_map ((λ family, (family.2, true)) <$> program_families) |}.

(** The tokenizer of the example ladders with that configuration. *)
Definition ignoring_tokenizer : TokenizerLazy :=
  {| padding := false; truncate_type := "none"; max_seq_len := 512; stride_len := None;
     config := ignore_all; num_time_step := 11; min_time_step := 10;
     time_step_quantizations := (λ i, 10 * i) <$> py_range 11;
     max_time_step := 100; velocity_step := 10;
     velocity_quantizations := (λ i, i * 10) <$> py_range 13;
     max_velocity := 120 |}.

(** A grand piano (program 0) on channel 0 and a bright piano (program 1) on
    channel 1, one note each. *)
Definition two_pianos : MidiDict :=
  {| meta_msgs := [];
     tempo_msgs := [ {| tempo_tick := 0; tempo_data := 500000 |} ];
     pedal_msgs := [];
     instrument_msgs := [ {| instr_tick := 0; instr_channel := 0; instr_data := 0 |};
                          {| instr_tick := 0; instr_channel := 1; instr_data := 1 |} ];
     note_msgs := [ {| note_channel := 0; pitch := 60; start := 0; end_ := 48;
                       velocity := 64 |};
                    {| note_channel := 1; pitch := 64; start := 0; end_ := 48;
                       velocity := 64 |} ];
     ticks_per_beat := 480 |}.

(** ** The shape of the token sequence *)

(** A wait token. *)
Definition is_wait (tok : token) : Prop := ∃ v, tok = TPair "wait" v.

(** The tokens of one note: a drum token, or a note token and its duration
    token, and then wait tokens only. *)
Definition note_group (msg : note_msg) (group : list token) : Prop :=
  ∃ waits,
    Forall is_wait waits
    ∧ if is_drum_channel (note_channel msg)
      then group = TPair "drum" (PInt (pitch msg)) :: waits
      else ∃ name v d, group = TNote name (pitch msg) v :: TPair "dur" d :: waits.

(** The milliseconds a wait token stands for; 0 for every other token. *)
Definition wait_value (tok : token) : Z :=
  match tok with
  | TPair tag (PInt q) => if bool_decide (tag = "wait") then q else 0
  | _ => 0
  end.

Definition wait_total (toks : list token) : Z :=
  foldr (λ tok total, wait_value tok + total) 0 toks.

(** ** The pedal messages of one channel *)

(** The stream with its pedal messages replaced. *)
Definition with_pedal_msgs (midi_dict : MidiDict) (msgs : list pedal_msg) : MidiDict :=
  {| meta_msgs := meta_msgs midi_dict;
     tempo_msgs := tempo_msgs midi_dict;
     pedal_msgs := msgs;
     instrument_msgs := instrument_msgs midi_dict;
     note_msgs := note_msgs midi_dict;
     ticks_per_beat := ticks_per_beat midi_dict |}.

(** The pedal messages of a channel. *)
Definition pedal_msgs_on (channel : Z) (msgs : list pedal_msg) : list pedal_msg :=
  filter (λ msg, pedal_channel msg = channel) msgs.

(** A pedal held on channel 0 across a press and a release on channel 1. *)
Definition two_pedals : MidiDict :=
  {| meta_msgs := [];
     tempo_msgs := [ {| tempo_tick := 0; tempo_data := 500000 |} ];
     pedal_msgs := [ {| pedal_tick := 0; pedal_channel := 0; pedal_data := 1 |};
                     {| pedal_tick := 10; pedal_channel := 1; pedal_data := 1 |};
                     {| pedal_tick := 20; pedal_channel := 1; pedal_data := 0 |};
                     {| pedal_tick := 30; pedal_channel := 0; pedal_data := 0 |} ];
     instrument_msgs := [ {| instr_tick := 0; instr_channel := 0; instr_data := 0 |} ];
     note_msgs := [ {| note_channel := 0; pitch := 60; start := 0; end_ := 48;
                       velocity := 64 |} ];
     ticks_per_beat := 480 |}.

(** ** The vocabulary *)

(** The flags of two instruments, the second one ignored. *)
Definition small_items : list (string * bool) := [("piano", false); ("bass", true)].

(** What the vocabulary holds, by the shape of the token. *)
Definition in_vocab (self : TokenizerLazy) (ignore_items : list (string * bool))
    (tok : token) : Prop :=
  match tok with
  | TStr s =>
      s ∈ [bos_tok; eos_tok; pad_tok; unk_tok] ∨ s ∈ Vocab.instrument_tokens ignore_items
  | TPair tag (PInt q) =>
      (tag = "drum" ∧ 35 <= q < 82)
      ∨ (tag = "wait" ∧ q ∈ time_step_quantizations self)
  | TPair _ PInf => False
  | TNote _instrument _pitch (PInt v) =>
      _instrument ∈ Vocab.instrument_tokens ignore_items
      ∧ 0 <= _pitch < 128
      ∧ v ∈ velocity_quantizations self
  | TNote _ _ PInf => False
  end.

(** ** The arguments [__init__] accepts *)

(** The two assertions of [Tokenizer.__init__]. *)
Definition valid_truncation (truncate_type_ : string) (max_seq_len_ : Z)
    (stride_len_ : option Z) : Prop :=
  truncate_type_ ∈ ["none"; "default"; "strided"]
  ∧ (truncate_type_ = "strided" → ∃ s, stride_len_ = Some s ∧ 0 < s < max_seq_len_).

(** A note on channel 0 in a stream without any instrument declaration. *)
Definition undeclared_piano : MidiDict :=
  {| meta_msgs := [];
     tempo_msgs := [ {| tempo_tick := 0; tempo_data := 500000 |} ];
     pedal_msgs := [];
     instrument_msgs := [];
     note_msgs := [ {| note_channel := 0; pitch := 60; start := 0; end_ := 48;
                       velocity := 64 |} ];
     ticks_per_beat := 480 |}.
(** * Properties *)

(** ** The quantizer *)

Lemma py_nth_lookup (l : list Z) (i : Z) :
  0 <= i < py_len l → l !! Z.to_nat i = Some (py_nth l i).
Proof.
  intros Hi. unfold py_nth, py_len in *.
  destruct (lookup_lt_is_Some_2 l (Z.to_nat i)) as [x Hx]; [lia|].
  rewrite Hx. f_equal. symmetry. by apply nth_lookup_Some.
Qed.

Lemma py_nth_elem_of (l : list Z) (i : Z) :
  0 <= i < py_len l → py_nth l i ∈ l.
Proof. intros Hi. eapply list_elem_of_lookup_2, py_nth_lookup, Hi. Qed.

Lemma elem_of_py_nth (l : list Z) (x : Z) :
  x ∈ l → ∃ i, 0 <= i < py_len l ∧ py_nth l i = x.
Proof.
  intros [k Hk]%list_elem_of_lookup_1. exists (Z.of_nat k).
  pose proof (lookup_lt_Some _ _ _ Hk) as Hlt. unfold py_len. split; [lia|].
  unfold py_nth. rewrite Nat2Z.id. by apply nth_lookup_Some.
Qed.

Lemma ascending_lookup (l : list Z) (i j : nat) (x y : Z) :
  ascending l → l !! i = Some x → l !! j = Some y → (i <= j)%nat → x <= y.
Proof.
  unfold ascending. intros Hs. revert i j. induction Hs as [|a l Hs IH Ha]; intros i j Hi Hj Hij.
  - done.
  - destruct i as [|i], j as [|j]; simpl in *; simplify_eq; try lia.
    + apply (proj1 (Forall_forall _ _) Ha). by eapply list_elem_of_lookup_2.
    + eapply IH; eauto. lia.
Qed.

Lemma ascending_py_nth (l : list Z) (i j : Z) :
  ascending l → 0 <= i → i <= j → j < py_len l → py_nth l i <= py_nth l j.
Proof.
  intros Hs Hi Hij Hj.
  eapply (ascending_lookup l (Z.to_nat i) (Z.to_nat j)); eauto using py_nth_lookup.
  - apply py_nth_lookup. lia.
  - apply py_nth_lookup. lia.
  - lia.
Qed.

Lemma float_of_int_cases (n : Z) :
  converts n ∨ float_of_int n = Raise OverflowError.
Proof.
  unfold converts, float_of_int.
  destruct (PrimFloat.is_infinity _); [by right | left; by eexists].
Qed.

Lemma converts_not_overflow (n : Z) :
  converts n → float_of_int n ≠ Raise OverflowError.
Proof. intros [f Hf]. by rewrite Hf. Qed.

Lemma closer_converts (diff n : Z) (closest : pynum) :
  converts n →
  closer diff closest n
  = Ok match closest with
       | PInf => true
       | PInt c => bool_decide (diff < Z.abs (c - n))
       end.
Proof. intros [f Hf]. destruct closest; [done|]. unfold closer. by rewrite Hf. Qed.

Lemma closest_loop_step (n : Z) (l : list Z) (left_ right_ : Z) (closest : pynum) :
  closest_loop n l left_ right_ closest
  = if decide (left_ <= right_)
    then let mid := (left_ + right_) `div` 2 in
         match closer (Z.abs (py_nth l mid - n)) closest n with
         | Ok is_closer =>
             let closest' := if is_closer : bool then PInt (py_nth l mid) else closest in
             if bool_decide (py_nth l mid < n)
             then closest_loop n l (mid + 1) right_ closest'
             else closest_loop n l left_ (mid - 1) closest'
         | Raise e => Raise e
         | Diverge => Diverge
         end
    else Ok closest.
Proof.
  rewrite closest_loop_equation_1. destruct (decide (left_ <= right_)).
  - by rewrite closest_loop_clause_1_equation_1.
  - by rewrite closest_loop_clause_1_equation_2.
Qed.

Lemma probed_step (n : Z) (l : list Z) (left_ right_ : Z) :
  probed n l left_ right_
  = if decide (left_ <= right_)
    then let mid := (left_ + right_) `div` 2 in
         py_nth l mid
         :: if bool_decide (py_nth l mid < n)
            then probed n l (mid + 1) right_
            else probed n l left_ (mid - 1)
    else [].
Proof.
  rewrite probed_equation_1. destruct (decide (left_ <= right_)).
  - by rewrite probed_clause_1_equation_1.
  - by rewrite probed_clause_1_equation_2.
Qed.

(** Induction on the width of the interval that is left to search. *)
Lemma interval_ind (P : Z → Z → Prop) :
  (∀ left_ right_,
     (∀ left' right',
        (Z.to_nat (right' - left' + 1) < Z.to_nat (right_ - left_ + 1))%nat →
        P left' right') →
     P left_ right_) →
  ∀ left_ right_, P left_ right_.
Proof.
  intros Hstep left_ right_.
  remember (Z.to_nat (right_ - left_ + 1)) as m eqn:Hm.
  revert left_ right_ Hm. induction (lt_wf m) as [m _ IH]. intros left_ right_ ->.
  apply Hstep. intros left' right' Hlt. by eapply IH.
Qed.

Lemma midpoint_bounds (left_ right_ : Z) :
  left_ <= right_ → left_ <= (left_ + right_) `div` 2 <= right_.
Proof.
  intros. pose proof (Z.div_mod (left_ + right_) 2).
  pose proof (Z.mod_pos_bound (left_ + right_) 2). lia.
Qed.

(** For a value within the range of the floats the loop is the fold of
    [keep_closer] over the probed elements. *)
Lemma closest_loop_fold (n : Z) (l : list Z) (left_ right_ : Z) :
  converts n →
  ∀ closest,
    closest_loop n l left_ right_ closest
    = Ok (foldl (keep_closer n) closest (probed n l left_ right_)).
Proof.
  intros Hn. revert left_ right_.
  apply (interval_ind (λ left_ right_, ∀ closest,
           closest_loop n l left_ right_ closest
           = Ok (foldl (keep_closer n) closest (probed n l left_ right_)))).
  intros left_ right_ IH closest. rewrite closest_loop_step, probed_step.
  destruct (decide (left_ <= right_)) as [Hle|Hgt]; [|done].
  pose proof (midpoint_bounds _ _ Hle) as Hmid. cbn zeta.
  rewrite (closer_converts _ _ _ Hn). cbn [foldl].
  fold (keep_closer n closest (py_nth l ((left_ + right_) `div` 2))).
  case_bool_decide; apply IH; lia.
Qed.

(** Beyond the range of the floats the first probe raises. *)
Lemma closest_loop_overflow (n : Z) (l : list Z) (left_ right_ : Z) :
  float_of_int n = Raise OverflowError → left_ <= right_ →
  closest_loop n l left_ right_ PInf = Raise OverflowError.
Proof.
  intros Hn Hle. rewrite closest_loop_step, decide_True by done.
  cbn zeta. unfold closer. by rewrite Hn.
Qed.

Lemma keep_closer_update (n x : Z) (closest : pynum) :
  at_least_as_close n (keep_closer n closest x) x
  ∧ ∀ y, at_least_as_close n closest y → at_least_as_close n (keep_closer n closest x) y.
Proof.
  unfold keep_closer. destruct closest as [c|]; simpl.
  - case_bool_decide; simpl; split; intros; lia.
  - split; [lia | done].
Qed.

Lemma probed_fold_spec (n : Z) (l : list Z) (left_ right_ : Z) :
  ascending l →
  ∀ closest,
    0 <= left_ → right_ < py_len l →
    (∀ i, 0 <= i < py_len l → i < left_ ∨ right_ < i →
          at_least_as_close n closest (py_nth l i)) →
    drawn_from l closest →
    (∀ i, 0 <= i < py_len l →
          at_least_as_close n (foldl (keep_closer n) closest (probed n l left_ right_))
                            (py_nth l i))
    ∧ drawn_from l (foldl (keep_closer n) closest (probed n l left_ right_)).
Proof.
  intros Hs. revert left_ right_.
  apply (interval_ind (λ left_ right_, ∀ closest,
           0 <= left_ → right_ < py_len l →
           (∀ i, 0 <= i < py_len l → i < left_ ∨ right_ < i →
                 at_least_as_close n closest (py_nth l i)) →
           drawn_from l closest →
           (∀ i, 0 <= i < py_len l →
                 at_least_as_close n
                   (foldl (keep_closer n) closest (probed n l left_ right_))
                   (py_nth l i))
           ∧ drawn_from l (foldl (keep_closer n) closest (probed n l left_ right_)))).
  intros left_ right_ IH closest Hl Hr Hinv Hmem. rewrite probed_step.
  destruct (decide (left_ <= right_)) as [Hle|Hgt].
  2: { split; [|done]. intros i Hi. apply Hinv; [done | lia]. }
  pose proof (midpoint_bounds _ _ Hle) as Hmid. cbn zeta.
  set (mid := (left_ + right_) `div` 2) in *. cbn [foldl].
  destruct (keep_closer_update n (py_nth l mid) closest) as [Hx Hmono].
  assert (drawn_from l (keep_closer n closest (py_nth l mid))) as Hmem'.
  { unfold keep_closer.
    destruct (match closest with PInf => true | PInt c => _ end); [|done].
    apply py_nth_elem_of. lia. }
  set (closest' := keep_closer n closest (py_nth l mid)) in *.
  case_bool_decide as Hlt.
  - apply IH; [lia | lia | done | | done].
    intros i Hi [Hi'|Hi']; [|by apply Hmono, Hinv; auto].
    destruct (decide (i < left_)); [by apply Hmono, Hinv; auto|].
    pose proof (ascending_py_nth l i mid Hs) as Hasc.
    destruct closest' as [c|]; simpl in *; [lia | done].
  - apply IH; [lia | done | lia | | done].
    intros i Hi [Hi'|Hi']; [by apply Hmono, Hinv; auto|].
    destruct (decide (right_ < i)); [by apply Hmono, Hinv; auto|].
    pose proof (ascending_py_nth l mid i Hs) as Hasc.
    destruct closest' as [c|]; simpl in *; [lia | done].
Qed.

(** The fold keeps the first of the elements that are closest: every element
    before it is strictly farther. *)
Lemma fold_keep_closer_first (n : Z) (xs : list Z) :
  ∀ closest c,
    foldl (keep_closer n) closest xs = PInt c →
    (closest = PInt c ∧ Forall (λ y, Z.abs (c - n) <= Z.abs (y - n)) xs)
    ∨ ∃ before after,
        xs = before ++ c :: after
        ∧ Forall (λ y, Z.abs (c - n) < Z.abs (y - n)) before
        ∧ match closest with
          | PInt c0 => Z.abs (c - n) < Z.abs (c0 - n)
          | PInf => True
          end.
Proof.
  induction xs as [|x xs IH]; intros closest c H; cbn [foldl] in H.
  - left. by split.
  - destruct (IH _ _ H) as [[Hkept Hall]|(before & after & -> & Hbefore & Hfar)].
    + unfold keep_closer in Hkept. destruct closest as [c0|].
      * case_bool_decide as Hlt.
        -- injection Hkept as ->. right. exists [], xs. by repeat split.
        -- injection Hkept as ->. left. split; [done|]. constructor; [lia|done].
      * injection Hkept as ->. right. exists [], xs. by repeat split.
    + right. exists (x :: before), after. split; [done|].
      unfold keep_closer in Hfar. destruct closest as [c0|].
      * case_bool_decide as Hlt; (split; [constructor; [lia|done] | lia]).
      * split; [by constructor | done].
Qed.

Lemma find_closest_int_nearest (n : Z) (l : list Z) :
  l ≠ [] → ascending l → converts n →
  ∃ c, _find_closest_int n l = Ok (PInt c) ∧ nearest_in l n c.
Proof.
  intros Hne Hs Hn. unfold _find_closest_int. rewrite (closest_loop_fold _ _ _ _ Hn).
  destruct (probed_fold_spec n l 0 (py_len l - 1) Hs PInf) as [Hclose Hmem];
    [lia | lia | intros; lia | done |].
  assert (0 < py_len l) as Hlen.
  { unfold py_len. destruct l; [done | simpl; lia]. }
  destruct (foldl (keep_closer n) PInf (probed n l 0 (py_len l - 1))) as [c|].
  - exists c. split; [done|]. split; [done|].
    intros x [i [Hi <-]]%elem_of_py_nth. by apply (Hclose i).
  - destruct (Hclose 0); lia.
Qed.

Lemma find_closest_int_overflow (n : Z) (l : list Z) :
  l ≠ [] → float_of_int n = Raise OverflowError →
  _find_closest_int n l = Raise OverflowError.
Proof.
  intros Hne Hn. apply closest_loop_overflow; [done|].
  unfold py_len. destruct l; [done | simpl; lia].
Qed.

(** A value the search returns on a non-empty ascending ladder is a nearest
    element, and the searched value is within the range of the floats. *)
Lemma find_closest_int_Ok (n : Z) (l : list Z) (v : pynum) :
  l ≠ [] → ascending l → _find_closest_int n l = Ok v →
  converts n ∧ ∃ c, v = PInt c ∧ nearest_in l n c.
Proof.
  intros Hne Hs H. destruct (float_of_int_cases n) as [Hn|Hn].
  - split; [done|]. destruct (find_closest_int_nearest n l Hne Hs Hn) as (c & Hc & Hnear).
    rewrite Hc in H. injection H as <-. by exists c.
  - by rewrite (find_closest_int_overflow n l Hne Hn) in H.
Qed.

(** The search probes the middle element first: on a tie between its two
    neighbours of the value, the one probed first is kept. *)
Example find_closest_int_tie_upper : _find_closest_int 5 [0; 10; 20] = Ok (PInt 10).
Proof. vm_compute. reflexivity. Qed.

Example find_closest_int_tie_lower : _find_closest_int 5 [0; 10] = Ok (PInt 0).
Proof. vm_compute. reflexivity. Qed.

(** C2, as stated, fails: on the ascending ladder [0, 10, 20] the value 5 is
    equally close to 0 and to 10, and [_find_closest_int] returns 10, not the
    lower-valued 0. *)
Lemma C2_tie_not_lower :
  ascending [0; 10; 20]
  ∧ ¬ nearest_lower_on_tie [0; 10; 20] 5 (_find_closest_int 5 [0; 10; 20]).
Proof.
  split.
  - repeat constructor; lia.
  - intros (c & Hc & _ & Htie). vm_compute in Hc. simplify_eq.
    assert (10 <= 0) as Habs by (apply Htie; [set_solver | lia]). lia.
Qed.

(** C2, amended: for every non-empty ascending ladder and every integer [n]
    within the range of the floats, [_find_closest_int] returns a ladder
    element that minimises the absolute difference to [n], and of the
    elements that are equally close the one the search probes first: every
    element probed before it is strictly farther.  So 5 on [0, 10, 20] gives
    10 and 5 on [0, 10] gives 0.  For an [n] beyond the range of the floats
    the first comparison, [abs(inf - n)], raises [OverflowError]. *)
Theorem C2_find_closest_int_nearest (n : Z) (l : list Z) :
  l ≠ [] → ascending l →
  (float_of_int n = Raise OverflowError → _find_closest_int n l = Raise OverflowError)
  ∧ (converts n →
     ∃ c before after,
       _find_closest_int n l = Ok (PInt c)
       ∧ nearest_in l n c
       ∧ probed n l 0 (py_len l - 1) = before ++ c :: after
       ∧ Forall (λ x, Z.abs (c - n) < Z.abs (x - n)) before)
  ∧ (n = 5 → l = [0; 10; 20] → _find_closest_int n l = Ok (PInt 10))
  ∧ (n = 5 → l = [0; 10] → _find_closest_int n l = Ok (PInt 0)).
Proof.
  intros Hne Hs. split; [|split; [|split]].
  - intros Hn. apply closest_loop_overflow; [done|].
    unfold py_len. destruct l; [done | simpl; lia].
  - intros Hn. unfold _find_closest_int. rewrite (closest_loop_fold _ _ _ _ Hn).
    destruct (probed_fold_spec n l 0 (py_len l - 1) Hs PInf) as [Hclose Hmem];
      [lia | lia | intros; lia | done |].
    assert (0 < py_len l) as Hlen.
    { unfold py_len. destruct l; [done | simpl; lia]. }
    destruct (foldl (keep_closer n) PInf (probed n l 0 (py_len l - 1)))
      as [c|] eqn:Hfold; [|destruct (Hclose 0); lia].
    destruct (fold_keep_closer_first _ _ _ _ Hfold)
      as [[[=] _]|(before & after & Hprobed & Hbefore & _)].
    exists c, before, after. split; [done|]. split; [|done]. split; [done|].
    intros x [i [Hi <-]]%elem_of_py_nth. by apply (Hclose i).
  - intros -> ->. vm_compute. reflexivity.
  - intros -> ->. vm_compute. reflexivity.
Qed.

Lemma C2_find_closest_int_nearest_witness :
  [0; 10; 20] ≠ [] ∧ ascending [0; 10; 20] ∧ converts 5
  ∧ _find_closest_int 5 [0; 10; 20] = Ok (PInt 10)
  ∧ ∃ c before after,
      _find_closest_int 5 [0; 10; 20] = Ok (PInt c)
      ∧ nearest_in [0; 10; 20] 5 c
      ∧ probed 5 [0; 10; 20] 0 (py_len [0; 10; 20] - 1) = before ++ c :: after
      ∧ Forall (λ x, Z.abs (c - 5) < Z.abs (x - 5)) before.
Proof.
  assert ([0; 10; 20] ≠ []) as Hne by done.
  assert (ascending [0; 10; 20]) as Hasc by (repeat constructor; lia).
  assert (converts 5) as Hn by (eexists; vm_compute; reflexivity).
  split; [exact Hne|]. split; [exact Hasc|]. split; [exact Hn|].
  split; [exact (proj1 (proj2 (proj2 (C2_find_closest_int_nearest 5 [0; 10; 20] Hne Hasc)))
                   eq_refl eq_refl)|].
  exact (proj1 (proj2 (C2_find_closest_int_nearest 5 [0; 10; 20] Hne Hasc)) Hn).
Defined.

(** ** The tokenizer that [__init__] returns *)

Lemma last_fmap_range {A} (f : Z → A) (n : Z) :
  last (f <$> py_range n) = if decide (0 < n) then Some (f (n - 1)) else None.
Proof.
  unfold py_range. case_decide as Hn.
  - replace n with ((n - 1) + 1) at 1 by lia.
    rewrite (seqZ_app 0 (n - 1) 1) by lia. rewrite fmap_app, (seqZ_cons _ 1) by lia.
    rewrite (seqZ_nil _ (Z.pred 1)) by lia. simpl. by rewrite last_snoc.
  - by rewrite seqZ_nil by lia.
Qed.

Lemma py_last_fmap_range {A} (f : Z → A) (n : Z) (x : A) :
  py_last (f <$> py_range n) = Ok x → 0 < n ∧ x = f (n - 1).
Proof.
  unfold py_last. rewrite last_fmap_range. case_decide; [|done].
  intros [= <-]. done.
Qed.

Lemma range_ladder_ascending (step n : Z) :
  0 <= step → ascending ((λ i, step * i) <$> py_range n).
Proof.
  intros Hstep. unfold ascending, py_range.
  assert (∀ len : nat, ∀ m, 0 <= m →
            StronglySorted Z.le ((λ i, step * i) <$> seqZ m (Z.of_nat len))) as H.
  { induction len as [|len IH]; intros m Hm.
    - rewrite seqZ_nil by lia. constructor.
    - rewrite seqZ_cons by lia. rewrite fmap_cons. constructor.
      + replace (Z.pred (Z.of_nat (S len))) with (Z.of_nat len) by lia.
        apply IH. lia.
      + apply Forall_forall. intros x [i [-> Hi]]%list_elem_of_fmap.
        apply elem_of_seqZ in Hi. nia. }
  destruct (decide (0 <= n)).
  - rewrite <- (Z2Nat.id n) by lia. apply H. lia.
  - rewrite seqZ_nil by lia. constructor.
Qed.

Lemma elem_of_range_ladder (step n x : Z) :
  x ∈ (λ i, step * i) <$> py_range n ↔ ∃ i, 0 <= i < n ∧ x = step * i.
Proof.
  unfold py_range. rewrite list_elem_of_fmap. split.
  - intros (i & -> & Hi%elem_of_seqZ). exists i. split; [lia | done].
  - intros (i & Hi & ->). exists i. split; [done|]. apply elem_of_seqZ. lia.
Qed.

(** A bind that returns has run both of its parts. *)
Lemma bind_Ok {A B} (m : result A) (f : A → result B) (b : B) :
  m ≫= f = Ok b → ∃ a, m = Ok a ∧ f a = Ok b.
Proof. destruct m as [a| |]; [|done..]. intros H. by exists a. Qed.

Lemma bind_Ok_eq {A B} (a : A) (f : A → result B) : Ok a ≫= f = f a.
Proof. reflexivity. Qed.

Lemma bind_Raise_eq {A B} (e : exn) (f : A → result B) : Raise e ≫= f = Raise e.
Proof. reflexivity. Qed.

Tactic Notation "inv_bind" hyp(H) "as" simple_intropattern(a) ident(Ha) :=
  apply bind_Ok in H as (a & Ha & H).

(** What a successful construction fixes: both ladders with their maxima,
    and the stride when the truncation is strided. *)
Lemma TokenizerLazy_init_Ok (padding_ : bool) (truncate_type_ : string)
    (max_seq_len_ : Z) (stride_len_ : option Z) (config_ : LazyConfig)
    (self : TokenizerLazy) :
  TokenizerLazy_init padding_ truncate_type_ max_seq_len_ stride_len_ config_ = Ok self →
  padding self = padding_ ∧ truncate_type self = truncate_type_
  ∧ max_seq_len self = max_seq_len_ ∧ stride_len self = stride_len_
  ∧ config self = config_
  ∧ (truncate_type_ = "strided" →
       ∃ s, stride_len_ = Some s ∧ 0 < s < max_seq_len_)
  ∧ min_time_step self = time_min_step config_
  ∧ 0 < time_num_steps config_
  ∧ time_step_quantizations self
      = (λ i, time_min_step config_ * i) <$> py_range (time_num_steps config_)
  ∧ max_time_step self = time_min_step config_ * (time_num_steps config_ - 1)
  ∧ velocity_step self = velocity_quantization_step config_
  ∧ ∃ k, 0 <= k
      ∧ velocity_quantizations self
          = (λ i, i * velocity_quantization_step config_) <$> py_range (k + 1)
      ∧ max_velocity self = k * velocity_quantization_step config_
      ∧ velocity_top_index (velocity_quantization_step config_) = Ok k.
Proof.
  unfold TokenizerLazy_init. intros H.
  inv_bind H as [] Htt. inv_bind H as [] Hstride. inv_bind H as mt Hmt.
  apply py_last_fmap_range in Hmt as [Hnum ->].
  inv_bind H as k Hk.
  inv_bind H as mv Hmv.
  apply py_last_fmap_range in Hmv as [Hk1 ->].
  injection H as <-. simpl.
  do 5 (split; [done|]). split.
  - intros ->. rewrite bool_decide_eq_true_2 in Hstride by done.
    destruct stride_len_ as [s|]; [|done]. exists s. split; [done|].
    destruct (decide (0 < s < max_seq_len_)) as [|Hn]; [done|].
    by rewrite (bool_decide_eq_false_2 _ Hn) in Hstride.
  - do 5 (split; [done|]). exists k. split; [lia|]. split; [done|].
    replace (k + 1 - 1) with k by lia. done.
Qed.

Lemma velocity_ladder_eq (step n : Z) :
  (λ i, i * step) <$> py_range n = (λ i, step * i) <$> py_range n.
Proof. apply list_fmap_ext. intros _ i _. lia. Qed.


Lemma example_tokenizer_init :
  TokenizerLazy_init false "none" 512 None example_config
  = Ok (example_tokenizer false "none" 512 None).
Proof. vm_compute. reflexivity. Qed.

Lemma velocity_top_index_small (step : Z) :
  1 <= step <= 127 → velocity_top_index step = Ok (127 `div` step).
Proof.
  intros Hstep.
  assert (forallb (λ step, match velocity_top_index step with
                           | Ok k => bool_decide (k = 127 `div` step)
                           | _ => false
                           end) (seqZ 1 127) = true) as Hall
    by (vm_compute; reflexivity).
  rewrite forallb_forall in Hall. specialize (Hall step).
  destruct (velocity_top_index step) as [k| |].
  - f_equal. eapply bool_decide_eq_true_1, Hall. apply list_elem_of_In, elem_of_seqZ. lia.
  - discriminate Hall. apply list_elem_of_In, elem_of_seqZ. lia.
  - discriminate Hall. apply list_elem_of_In, elem_of_seqZ. lia.
Qed.

(** With a velocity step from 1 to 127 the ladder has a non-zero value, and
    the maximum is at least the step. *)
Lemma velocity_bounds (padding_ : bool) (truncate_type_ : string)
    (max_seq_len_ : Z) (stride_len_ : option Z) (config_ : LazyConfig)
    (self : TokenizerLazy) :
  TokenizerLazy_init padding_ truncate_type_ max_seq_len_ stride_len_ config_ = Ok self →
  1 <= velocity_quantization_step config_ <= 127 →
  velocity_step self = velocity_quantization_step config_
  ∧ max_velocity self
    = 127 `div` velocity_quantization_step config_ * velocity_quantization_step config_
  ∧ velocity_step self <= max_velocity self <= 127.
Proof.
  intros Hinit Hstep.
  apply TokenizerLazy_init_Ok in Hinit
    as (_ & _ & _ & _ & _ & _ & _ & _ & _ & _ & Hvs & k & _ & _ & Hmax & Hk).
  rewrite velocity_top_index_small in Hk by done. injection Hk as <-.
  rewrite Hvs, Hmax. split; [done|]. split; [done|].
  pose proof (Z.div_mod 127 (velocity_quantization_step config_)) as Hdm.
  pose proof (Z.mod_pos_bound 127 (velocity_quantization_step config_)) as Hm.
  assert (1 <= 127 `div` velocity_quantization_step config_) as Hq.
  { apply Z.div_le_lower_bound; lia. }
  nia.
Qed.

(** ** The velocity floor *)


(** The ladder of a tokenizer [__init__] returns is not empty. *)
Lemma velocity_ladder_not_empty (padding_ : bool) (truncate_type_ : string)
    (max_seq_len_ : Z) (stride_len_ : option Z) (config_ : LazyConfig)
    (self : TokenizerLazy) :
  TokenizerLazy_init padding_ truncate_type_ max_seq_len_ stride_len_ config_ = Ok self →
  velocity_quantizations self ≠ [].
Proof.
  intros Hinit.
  apply TokenizerLazy_init_Ok in Hinit
    as (_ & _ & _ & _ & _ & _ & _ & _ & _ & _ & _ & k & Hk & -> & _).
  unfold py_range. by rewrite seqZ_cons by lia.
Qed.




(** ** Pedal extension *)




(** The encoder measures the duration of a note that is not a drum from its
    onset to the end tick so extended. *)
Lemma note_tokens_uses_extended_end (self : TokenizerLazy)
    (channel_to_instrument : gmap Z string)
    (channel_to_pedal_intervals : gmap Z (list (Z * Z)))
    (tempo_msgs_ : list tempo_msg) (ticks_per_beat_ : Z) (msg : note_msg)
    (toks : list token) :
  is_drum_channel (note_channel msg) = false →
  note_tokens self channel_to_instrument channel_to_pedal_intervals tempo_msgs_
              ticks_per_beat_ msg = Ok toks →
  ∃ _instrument _note_duration _velocity _duration_bucket,
    channel_to_instrument !! note_channel msg = Some _instrument
    ∧ _get_duration_ms (start msg)
        (extend_end_tick (start msg) (end_ msg)
                         (channel_to_pedal_intervals !!! note_channel msg))
        tempo_msgs_ ticks_per_beat_ = Ok _note_duration
    ∧ _quantize_velocity self (velocity msg) = Ok _velocity
    ∧ toks = [TNote _instrument (pitch msg) _velocity; TPair "dur" _duration_bucket].
Proof.
  unfold note_tokens. intros -> H.
  inv_bind H as inst Hinst. inv_bind H as d Hd. inv_bind H as v Hv.
  inv_bind H as q Hq. injection H as <-.
  exists inst, d, v. eexists. split; [|split; [done | split; [done | reflexivity]]].
  unfold dict_get in Hinst. by destruct (channel_to_instrument !! _); simplify_eq.
Qed.

(** ** Wait tokens *)

Lemma Forall_py_slice {A} (P : A → Prop) (l : list A) (a b : Z) :
  Forall P l → Forall P (py_slice l a b).
Proof. intros H. unfold py_slice. by apply Forall_take, Forall_drop. Qed.

Lemma Forall_py_repeat {A} (P : A → Prop) (x : A) (k : Z) :
  P x → Forall P (py_repeat x k).
Proof. intros H. unfold py_repeat. by apply Forall_replicate. Qed.

(** The loop that splits a gap: [k] maximum-value tokens are appended, each
    for one maximum taken off the gap, until what is left fits. *)
Lemma wait_loop_spec (max_ : Z) (fuel : nat) :
  0 < max_ →
  ∀ w appended, (Z.to_nat w < fuel)%nat →
    ∃ (k : nat) (r : Z),
      wait_loop fuel max_ w appended
        = Some (r, appended ++ replicate k (TPair "wait" (PInt max_)))
      ∧ w = Z.of_nat k * max_ + r ∧ r <= max_ ∧ ((0 < k)%nat → 0 < r).
Proof.
  intros Hmax. induction fuel as [|fuel IH]; intros w appended Hfuel; [lia|].
  simpl. case_bool_decide as Hw.
  - destruct (IH (w - max_) (appended ++ [TPair "wait" (PInt max_)]))
      as (k & r & Heq & Hsum & Hr & Hpos); [lia|].
    exists (S k), r. rewrite Heq, <- app_assoc. simpl.
    split; [done|]. split; [lia|]. split; [done|].
    intros _. destruct k; [lia | apply Hpos; lia].
  - exists 0%nat, w. rewrite app_nil_r. split; [done|]. lia.
Qed.

(** With a maximum that is not positive, a gap above it is never used up. *)
Lemma wait_loop_diverges (max_ : Z) (fuel : nat) :
  max_ <= 0 → ∀ w appended, max_ < w → wait_loop fuel max_ w appended = None.
Proof.
  intros Hmax. induction fuel as [|fuel IH]; intros w appended Hw; [done|].
  simpl. rewrite bool_decide_eq_true_2 by lia. apply IH. lia.
Qed.

(** The time ladder of a tokenizer built from a positive minimum step. *)
Lemma time_ladder_facts (padding_ : bool) (truncate_type_ : string)
    (max_seq_len_ : Z) (stride_len_ : option Z) (config_ : LazyConfig)
    (self : TokenizerLazy) :
  TokenizerLazy_init padding_ truncate_type_ max_seq_len_ stride_len_ config_ = Ok self →
  0 < time_min_step config_ →
  max_time_step self = time_min_step config_ * (time_num_steps config_ - 1)
  ∧ max_time_step self ∈ time_step_quantizations self
  ∧ (∀ q, q ∈ time_step_quantizations self → q <= max_time_step self)
  ∧ (∀ time, converts time →
             ∃ q, _quantize_time self time = Ok (PInt q)
                  ∧ nearest_in (time_step_quantizations self) time q)
  ∧ (∀ time, float_of_int time = Raise OverflowError →
             _quantize_time self time = Raise OverflowError)
  ∧ ∀ time v, _quantize_time self time = Ok v →
              converts time
              ∧ ∃ q, v = PInt q ∧ nearest_in (time_step_quantizations self) time q.
Proof.
  intros Hinit Hmin.
  apply TokenizerLazy_init_Ok in Hinit
    as (_ & _ & _ & _ & _ & _ & _ & Hnum & Hladder & Hmax & _).
  assert (time_step_quantizations self ≠ []) as Hne.
  { rewrite Hladder. unfold py_range. by rewrite seqZ_cons by lia. }
  assert (ascending (time_step_quantizations self)) as Hasc.
  { rewrite Hladder. apply range_ladder_ascending. lia. }
  split; [done|]. split; [|split; [|split; [|split]]].
  - rewrite Hladder, Hmax.
    apply elem_of_range_ladder. exists (time_num_steps config_ - 1). split; lia.
  - rewrite Hladder, Hmax. intros q (i & Hi & ->)%elem_of_range_ladder. nia.
  - intros time Hconv. by apply find_closest_int_nearest.
  - intros time Hover. by apply find_closest_int_overflow.
  - intros time v Hv. by eapply find_closest_int_Ok.
Qed.

Lemma wait_tokens_spec (padding_ : bool) (truncate_type_ : string)
    (max_seq_len_ : Z) (stride_len_ : option Z) (config_ : LazyConfig)
    (self : TokenizerLazy) (w : Z) :
  TokenizerLazy_init padding_ truncate_type_ max_seq_len_ stride_len_ config_ = Ok self →
  0 < time_min_step config_ → 2 <= time_num_steps config_ →
  ∃ (k : nat) (r : Z),
    w = Z.of_nat k * max_time_step self + r
    ∧ r <= max_time_step self
    ∧ ((0 < k)%nat → 0 < r)
    ∧ (float_of_int r = Raise OverflowError →
       wait_tokens self w = Raise OverflowError)
    ∧ (converts r →
       ∃ q, wait_tokens self w
            = Ok (replicate k (TPair "wait" (PInt (max_time_step self)))
                  ++ if decide (q = 0) then [] else [TPair "wait" (PInt q)])
            ∧ _quantize_time self r = Ok (PInt q)
            ∧ nearest_in (time_step_quantizations self) r q).
Proof.
  intros Hinit Hmin Hnum.
  destruct (time_ladder_facts _ _ _ _ _ _ Hinit Hmin) as (Hmax & _ & _ & Hq & Hover & _).
  assert (0 < max_time_step self) as Hpos by (rewrite Hmax; nia).
  destruct (wait_loop_spec (max_time_step self) (S (Z.to_nat w)) Hpos w [])
    as (k & r & Hloop & Hsum & Hr & Hk); [lia|].
  exists k, r. do 3 (split; [done|]). unfold wait_tokens. rewrite Hloop. split.
  - intros Hr_over. by rewrite (Hover r Hr_over).
  - intros Hconv. destruct (Hq r Hconv) as (q & Hqr & Hnear).
    exists q. rewrite Hqr, bind_Ok_eq. simpl.
    split; [|done]. destruct q; simpl; by rewrite ?app_nil_r.
Qed.

Lemma wait_tokens_ok (padding_ : bool) (truncate_type_ : string)
    (max_seq_len_ : Z) (stride_len_ : option Z) (config_ : LazyConfig)
    (self : TokenizerLazy) (w : Z) (toks : list token) :
  TokenizerLazy_init padding_ truncate_type_ max_seq_len_ stride_len_ config_ = Ok self →
  0 < time_min_step config_ → 2 <= time_num_steps config_ →
  wait_tokens self w = Ok toks → Forall (wait_ok self) toks.
Proof.
  intros Hinit Hmin Hnum Htoks.
  destruct (time_ladder_facts _ _ _ _ _ _ Hinit Hmin) as (_ & Hin & Hle & _).
  destruct (wait_tokens_spec _ _ _ _ _ _ w Hinit Hmin Hnum)
    as (k & r & _ & _ & _ & Hover & Hconv).
  destruct (float_of_int_cases r) as [Hr|Hr]; [|by rewrite (Hover Hr) in Htoks].
  destruct (Hconv Hr) as (q & Heq & _ & Hqin & _).
  rewrite Heq in Htoks. injection Htoks as <-.
  apply Forall_app. split.
  - apply Forall_replicate. intros v [= <-]. exists (max_time_step self). auto.
  - case_decide; [done|]. repeat constructor. intros v [= <-]. exists q. auto.
Qed.

Lemma note_tokens_ok (self : TokenizerLazy) (channel_to_instrument : gmap Z string)
    (channel_to_pedal_intervals : gmap Z (list (Z * Z)))
    (tempo_msgs_ : list tempo_msg) (ticks_per_beat_ : Z) (msg : note_msg)
    (toks : list token) :
  note_tokens self channel_to_instrument channel_to_pedal_intervals tempo_msgs_
              ticks_per_beat_ msg = Ok toks →
  Forall (wait_ok self) toks.
Proof.
  unfold note_tokens. intros H. destruct (is_drum_channel _).
  - injection H as <-. by repeat constructor.
  - inv_bind H as inst Hinst. inv_bind H as d Hd. inv_bind H as v Hv.
    inv_bind H as q Hq. injection H as <-. by repeat constructor.
Qed.

Lemma tokenize_notes_ok (padding_ : bool) (truncate_type_ : string)
    (max_seq_len_ : Z) (stride_len_ : option Z) (config_ : LazyConfig)
    (self : TokenizerLazy) (channel_to_instrument : gmap Z string)
    (channel_to_pedal_intervals : gmap Z (list (Z * Z)))
    (tempo_msgs_ : list tempo_msg) (ticks_per_beat_ : Z) (msgs : list note_msg) :
  TokenizerLazy_init padding_ truncate_type_ max_seq_len_ stride_len_ config_ = Ok self →
  0 < time_min_step config_ → 2 <= time_num_steps config_ →
  ∀ toks,
    tokenize_notes self channel_to_instrument channel_to_pedal_intervals tempo_msgs_
                   ticks_per_beat_ msgs = Ok toks →
    Forall (wait_ok self) toks.
Proof.
  intros Hinit Hmin Hnum. induction msgs as [|msg rest IH]; intros toks H; simpl in H.
  - by injection H as <-.
  - inv_bind H as ntoks Hn. inv_bind H as waits Hw. inv_bind H as others Ho.
    injection H as <-. rewrite !Forall_app. split; [|split].
    + by eapply note_tokens_ok.
    + destruct rest as [|next_msg ?].
      * by injection Hw as <-.
      * inv_bind Hw as gap Hgap. by eapply wait_tokens_ok.
    + by apply IH.
Qed.

Lemma strided_loop_ok (P : token → Prop) (self : TokenizerLazy)
    (present_instruments _res : list token) (fuel : nat) :
  Forall P present_instruments → Forall P _res →
  ∀ idx res idx' res',
    Forall (Forall P) res →
    strided_loop fuel self present_instruments _res idx res = Ok (idx', res') →
    Forall (Forall P) res'.
Proof.
  intros Hp Hr. induction fuel as [|fuel IH]; intros idx res idx' res' Hres H; [done|].
  simpl in H. case_bool_decide.
  - destruct (stride_len self) as [stride|]; [|done].
    eapply IH; [|exact H]. apply Forall_app. split; [done|].
    repeat constructor. apply Forall_app. split; [done|]. by apply Forall_py_slice.
  - by simplify_eq.
Qed.

Lemma windows_ok (P : token → Prop) (self : TokenizerLazy)
    (present_instruments tokenized_seq : list token) (res : list (list token)) :
  (∀ s, P (TStr s)) →
  Forall P present_instruments → Forall P tokenized_seq →
  windows self present_instruments tokenized_seq = Ok res →
  Forall (Forall P) res.
Proof.
  intros Hstr Hp Hs H.
  assert (Forall P ([TStr bos_tok] ++ tokenized_seq ++ [TStr eos_tok])) as Hbody.
  { rewrite !Forall_app. repeat split; [|done|]; by repeat constructor. }
  unfold windows in H. repeat case_bool_decide; try done.
  - injection H as <-. repeat constructor. by apply Forall_app.
  - injection H as <-. repeat constructor. apply Forall_py_slice.
    destruct (padding self); [apply Forall_app; split|];
      [by apply Forall_app | by apply Forall_py_repeat | by apply Forall_app].
  - unfold strided_windows in H. inv_bind H as [idx res0] Hloop. injection H as <-.
    apply Forall_app. split.
    + eapply strided_loop_ok; [exact Hp | exact Hbody | | exact Hloop]. constructor.
    + repeat constructor.
      destruct (padding self); [apply Forall_app; split|];
        [| by apply Forall_py_repeat |];
        (apply Forall_app; split; [done | by apply Forall_py_slice]).
Qed.

Lemma tokenize_midi_dict_wait_ok (list_of_set : list string → list string)
    (padding_ : bool) (truncate_type_ : string)
    (max_seq_len_ : Z) (stride_len_ : option Z) (config_ : LazyConfig)
    (self : TokenizerLazy) (midi_dict : MidiDict) (res : list (list token)) :
  TokenizerLazy_init padding_ truncate_type_ max_seq_len_ stride_len_ config_ = Ok self →
  0 < time_min_step config_ → 2 <= time_num_steps config_ →
  tokenize_midi_dict list_of_set self midi_dict = Ok res →
  Forall (Forall (wait_ok self)) res.
Proof.
  intros Hinit Hmin Hnum H. unfold tokenize_midi_dict in H.
  inv_bind H as md Hmd. inv_bind H as c2p Hc2p. inv_bind H as c2i Hc2i.
  inv_bind H as present Hpresent. inv_bind H as seq Hseq.
  eapply windows_ok; [| | |exact H].
  - by intros s v.
  - apply Forall_fmap, Forall_forall. by intros s _ v.
  - by eapply tokenize_notes_ok.
Qed.

(** C4: every wait token the encoder emits carries an [int] of the time
    ladder that is at most the ladder's maximum.  A raw gap [w] is split into
    [k] maximum-value tokens, each taking one maximum off the gap, where no
    token is split off a gap that already fits; what is left is quantized
    and emitted only if it is not 0.  With minimum step 10 and maximum 100, a
    gap of 250 gives Wait(100), Wait(100), Wait(50).  The tokenizer is any
    that [__init__] returns for a positive minimum step and at least two
    steps. *)
Theorem C4_wait_tokens (padding_ : bool) (truncate_type_ : string)
    (max_seq_len_ : Z) (stride_len_ : option Z) (config_ : LazyConfig)
    (self : TokenizerLazy) :
  TokenizerLazy_init padding_ truncate_type_ max_seq_len_ stride_len_ config_ = Ok self →
  0 < time_min_step config_ → 2 <= time_num_steps config_ →
  (∀ list_of_set midi_dict res window v,
     tokenize_midi_dict list_of_set self midi_dict = Ok res →
     window ∈ res → TPair "wait" v ∈ window →
     ∃ q, v = PInt q ∧ q ∈ time_step_quantizations self ∧ q <= max_time_step self)
  ∧ (∀ w, ∃ (k : nat) (r : Z),
       w = Z.of_nat k * max_time_step self + r
       ∧ r <= max_time_step self
       ∧ ((0 < k)%nat → 0 < r)
       ∧ (converts r →
          ∃ q, wait_tokens self w
               = Ok (replicate k (TPair "wait" (PInt (max_time_step self)))
                     ++ if decide (q = 0) then [] else [TPair "wait" (PInt q)])
               ∧ _quantize_time self r = Ok (PInt q)
               ∧ nearest_in (time_step_quantizations self) r q
               ∧ q <= max_time_step self)
       ∧ (float_of_int r = Raise OverflowError →
          wait_tokens self w = Raise OverflowError))
  ∧ (time_min_step config_ = 10 → time_num_steps config_ = 11 →
     wait_tokens self 250
       = Ok [TPair "wait" (PInt 100); TPair "wait" (PInt 100); TPair "wait" (PInt 50)]).
Proof.
  intros Hinit Hmin Hnum. split; [|split].
  - intros list_of_set midi_dict res window v Hres Hwin Hv.
    pose proof (tokenize_midi_dict_wait_ok _ _ _ _ _ _ _ _ _ Hinit Hmin Hnum Hres) as Hall.
    rewrite Forall_forall in Hall. specialize (Hall window Hwin).
    rewrite Forall_forall in Hall. by apply (Hall _ Hv).
  - intros w.
    destruct (wait_tokens_spec _ _ _ _ _ _ w Hinit Hmin Hnum)
      as (k & r & Hsum & Hr & Hk & Hover & Hconv).
    destruct (time_ladder_facts _ _ _ _ _ _ Hinit Hmin) as (_ & _ & Hle & _).
    exists k, r. do 3 (split; [done|]). split; [|done].
    intros Hr_conv. destruct (Hconv Hr_conv) as (q & Heq & Hq & Hnear).
    exists q. do 3 (split; [done|]). apply Hle, Hnear.
  - intros H10 H11.
    apply TokenizerLazy_init_Ok in Hinit
      as (_ & _ & _ & _ & _ & _ & _ & _ & Hladder & Hmax & _).
    unfold wait_tokens, _quantize_time. rewrite Hladder, Hmax, H10, H11.
    reflexivity.
Qed.

Lemma C4_wait_tokens_witness :
  TokenizerLazy_init false "none" 512 None example_config
    = Ok (example_tokenizer false "none" 512 None)
  ∧ 0 < time_min_step example_config
  ∧ 2 <= time_num_steps example_config
  ∧ wait_tokens (example_tokenizer false "none" 512 None) 250
      = Ok [TPair "wait" (PInt 100); TPair "wait" (PInt 100); TPair "wait" (PInt 50)].
Proof.
  assert (0 < time_min_step example_config) as Hmin by done.
  assert (2 <= time_num_steps example_config) as Hnum by done.
  split; [exact example_tokenizer_init|]. split; [exact Hmin|]. split; [exact Hnum|].
  exact (proj2 (proj2 (C4_wait_tokens _ _ _ _ _ _ example_tokenizer_init Hmin Hnum))
           eq_refl eq_refl).
Defined.

(** ** Strided windows *)

Lemma py_slice_length {A} (l : list A) (a b : Z) :
  0 <= a → a <= b → b <= py_len l → py_len (py_slice l a b) = b - a.
Proof.
  intros Ha Hab Hb. unfold py_slice, py_bound, py_len in *.
  rewrite !bool_decide_eq_false_2 by lia.
  rewrite length_take, length_drop. lia.
Qed.

Lemma strided_window_length (self : TokenizerLazy)
    (present_instruments _res : list token) (idx : Z) :
  0 <= idx → py_len present_instruments <= max_seq_len self →
  idx + max_seq_len self - py_len present_instruments < py_len _res →
  py_len (strided_window self present_instruments _res idx) = max_seq_len self.
Proof.
  intros Hidx Hp Hin. unfold strided_window.
  pose proof (py_slice_length _res idx
                (idx + max_seq_len self - py_len present_instruments)) as Hlen.
  unfold py_len in *. rewrite length_app. lia.
Qed.

Lemma strided_offsets_cons (f : Z → list token) (idx s : Z) (n : nat) :
  (λ k, f (idx + k * s)) <$> seqZ 0 (Z.of_nat (S n))
  = f idx :: ((λ k, f (idx + s + k * s)) <$> seqZ 0 (Z.of_nat n)).
Proof.
  rewrite seqZ_cons by lia. rewrite fmap_cons. f_equal; [f_equal; lia|].
  replace (Z.pred (Z.of_nat (S n))) with (Z.of_nat n) by lia.
  replace (Z.succ 0) with (1 + 0) by lia.
  rewrite <- fmap_add_seqZ, <- list_fmap_compose.
  apply list_fmap_ext. intros _ k _. simpl. f_equal. lia.
Qed.

Lemma strided_loop_S (fuel : nat) (self : TokenizerLazy)
    (present_instruments _res : list token) (idx : Z) (res : list (list token)) :
  strided_loop (S fuel) self present_instruments _res idx res
  = if bool_decide (idx + max_seq_len self - py_len present_instruments < py_len _res)
    then match stride_len self with
         | None => Raise TypeError
         | Some stride =>
             strided_loop fuel self present_instruments _res (idx + stride)
               (res ++ [strided_window self present_instruments _res idx])
         end
    else Ok (idx, res).
Proof. reflexivity. Qed.

(** The loop leaves at the first offset [idx + n * stride] that fails its
    condition, having appended the windows at the [n] offsets before it. *)
Lemma strided_loop_spec (self : TokenizerLazy) (stride : Z)
    (present_instruments _res : list token) (fuel : nat) :
  stride_len self = Some stride → 0 < stride →
  ∀ idx res,
    (Z.to_nat (py_len _res - (max_seq_len self - py_len present_instruments) - idx)
     < fuel)%nat →
    ∃ n : nat,
      strided_loop fuel self present_instruments _res idx res
        = Ok (idx + Z.of_nat n * stride,
              res ++ ((λ k, strided_window self present_instruments _res
                              (idx + k * stride))
                      <$> seqZ 0 (Z.of_nat n)))
      ∧ (∀ k, 0 <= k < Z.of_nat n →
              idx + k * stride + max_seq_len self - py_len present_instruments
              < py_len _res)
      ∧ py_len _res
        <= idx + Z.of_nat n * stride + max_seq_len self - py_len present_instruments.
Proof.
  intros Hstride Hpos. induction fuel as [|fuel IH]; intros idx res Hfuel; [lia|].
  rewrite strided_loop_S. case_bool_decide as Hcond.
  - rewrite Hstride.
    destruct (IH (idx + stride)
                 (res ++ [strided_window self present_instruments _res idx]))
      as (n & Heq & Hin & Hout); [lia|].
    exists (S n). split; [|split].
    + rewrite Heq. f_equal. f_equal; [lia|].
      rewrite strided_offsets_cons, <- app_assoc. done.
    + intros k Hk. destruct (decide (k = 0)) as [->|]; [lia|].
      specialize (Hin (k - 1)). nia.
    + lia.
  - exists 0%nat. split; [|split].
    + f_equal. f_equal; [lia|]. simpl. by rewrite app_nil_r.
    + lia.
    + lia.
Qed.

Lemma windows_strided (self : TokenizerLazy)
    (present_instruments tokenized_seq : list token) :
  truncate_type self = "strided" →
  windows self present_instruments tokenized_seq
  = strided_windows self present_instruments tokenized_seq.
Proof. intros Htt. unfold windows. by rewrite Htt. Qed.

Lemma windows_strided_spec (self : TokenizerLazy) (stride : Z)
    (present_instruments tokenized_seq : list token) :
  truncate_type self = "strided" →
  stride_len self = Some stride → 0 < stride →
  ∃ n : Z,
    0 <= n
    ∧ windows self present_instruments tokenized_seq
      = Ok (((λ k, strided_window self present_instruments
                     ([TStr bos_tok] ++ tokenized_seq ++ [TStr eos_tok]) (k * stride))
             <$> seqZ 0 n)
            ++ [last_window self present_instruments
                  ([TStr bos_tok] ++ tokenized_seq ++ [TStr eos_tok]) (n * stride)])
    ∧ (∀ k, 0 <= k < n →
            k * stride + max_seq_len self - py_len present_instruments
            < py_len ([TStr bos_tok] ++ tokenized_seq ++ [TStr eos_tok]))
    ∧ py_len ([TStr bos_tok] ++ tokenized_seq ++ [TStr eos_tok])
      <= n * stride + max_seq_len self - py_len present_instruments.
Proof.
  intros Htt Hstride Hpos. rewrite windows_strided by done.
  unfold strided_windows.
  destruct (strided_loop_spec self stride present_instruments
              ([TStr bos_tok] ++ tokenized_seq ++ [TStr eos_tok])
              (S (Z.to_nat (py_len ([TStr bos_tok] ++ tokenized_seq ++ [TStr eos_tok])
                            - (max_seq_len self - py_len present_instruments))))
              Hstride Hpos 0 [])
    as (n & Heq & Hin & Hout); [lia|].
  exists (Z.of_nat n). split; [lia|]. split; [|split].
  - rewrite Heq. done.
  - intros k Hk. specialize (Hin k Hk). lia.
  - lia.
Qed.

Lemma last_window_length (self : TokenizerLazy)
    (present_instruments _res : list token) (idx : Z) :
  0 <= idx → py_len present_instruments <= max_seq_len self →
  py_len (last_window self present_instruments _res idx) <= max_seq_len self
  ∧ (padding self = true →
     py_len (last_window self present_instruments _res idx) = max_seq_len self)
  ∧ (padding self = false →
     last_window self present_instruments _res idx
     = strided_window self present_instruments _res idx).
Proof.
  intros Hidx Hp. unfold last_window.
  assert (py_len (strided_window self present_instruments _res idx) <= max_seq_len self)
    as Hle.
  { unfold strided_window, py_slice, py_bound, py_len in *.
    rewrite length_app, length_take, length_drop.
    repeat case_bool_decide; lia. }
  destruct (padding self); (split; [|split]); try done.
  - unfold py_repeat, py_len in *. rewrite length_app, length_replicate. lia.
  - intros _. unfold py_repeat, py_len in *. rewrite length_app, length_replicate. lia.
Qed.

(** C3, as stated, fails for a prefix longer than [max_seq_len]: with
    [max_seq_len = 2], [stride_len = 1], three instrument names and an empty
    body, the slice bound [idx + 2 - 3] is negative, Python counts it from the
    end, and the first of the four windows has 4 tokens, not 2. *)
Lemma C3_long_prefix_window :
  TokenizerLazy_init false "strided" 2 (Some 1) example_config
    = Ok (example_tokenizer false "strided" 2 (Some 1))
  ∧ windows (example_tokenizer false "strided" 2 (Some 1))
            [TStr "piano"; TStr "bass"; TStr "organ"] []
    = Ok [ [TStr "piano"; TStr "bass"; TStr "organ"; TStr "<S>"];
           [TStr "piano"; TStr "bass"; TStr "organ"];
           [TStr "piano"; TStr "bass"; TStr "organ"];
           [TStr "piano"; TStr "bass"; TStr "organ"] ]
  ∧ py_len [TStr "piano"; TStr "bass"; TStr "organ"; TStr "<S>"]
    ≠ max_seq_len (example_tokenizer false "strided" 2 (Some 1)).
Proof. split; [by vm_compute|]. split; [by vm_compute | done]. Qed.

(** C3, amended: under the strided truncation with [0 < stride_len <
    max_seq_len] and a prefix of at most [max_seq_len] tokens, the windower
    emits prefix + body[offset : offset + (max_seq_len - p)] at the offsets 0,
    s, 2s, ... for which offset + (max_seq_len - p) < L, then one last window
    at the next offset, padded to [max_seq_len] exactly when padding is
    enabled; every window before the last has exactly [max_seq_len] tokens and
    the last has at most that many.  With p = 2, L = 10, max_seq_len = 6 and
    stride 2 there are exactly 4 windows, of 6 tokens each, at the body offsets
    0, 2, 4, 6. *)
Theorem C3_strided_windows (self : TokenizerLazy) (stride : Z)
    (present_instruments tokenized_seq : list token) :
  truncate_type self = "strided" →
  stride_len self = Some stride → 0 < stride < max_seq_len self →
  py_len present_instruments <= max_seq_len self →
  (∃ n : Z,
     0 <= n
     ∧ windows self present_instruments tokenized_seq
       = Ok (((λ k, present_instruments
                    ++ py_slice ([TStr bos_tok] ++ tokenized_seq ++ [TStr eos_tok])
                         (k * stride)
                         (k * stride + max_seq_len self - py_len present_instruments))
              <$> seqZ 0 n)
             ++ [last_window self present_instruments
                   ([TStr bos_tok] ++ tokenized_seq ++ [TStr eos_tok]) (n * stride)])
     ∧ (∀ k, 0 <= k < n →
             k * stride + max_seq_len self - py_len present_instruments
             < py_len ([TStr bos_tok] ++ tokenized_seq ++ [TStr eos_tok]))
     ∧ py_len ([TStr bos_tok] ++ tokenized_seq ++ [TStr eos_tok])
       <= n * stride + max_seq_len self - py_len present_instruments
     ∧ (∀ k, 0 <= k < n →
             py_len (present_instruments
                     ++ py_slice ([TStr bos_tok] ++ tokenized_seq ++ [TStr eos_tok])
                          (k * stride)
                          (k * stride + max_seq_len self - py_len present_instruments))
             = max_seq_len self)
     ∧ py_len (last_window self present_instruments
                 ([TStr bos_tok] ++ tokenized_seq ++ [TStr eos_tok]) (n * stride))
       <= max_seq_len self
     ∧ (padding self = true →
        py_len (last_window self present_instruments
                  ([TStr bos_tok] ++ tokenized_seq ++ [TStr eos_tok]) (n * stride))
        = max_seq_len self)
     ∧ (padding self = false →
        last_window self present_instruments
          ([TStr bos_tok] ++ tokenized_seq ++ [TStr eos_tok]) (n * stride)
        = present_instruments
          ++ py_slice ([TStr bos_tok] ++ tokenized_seq ++ [TStr eos_tok])
               (n * stride)
               (n * stride + max_seq_len self - py_len present_instruments)))
  ∧ (py_len present_instruments = 2 → py_len tokenized_seq = 8 →
     max_seq_len self = 6 → stride = 2 →
     ∃ w0 w2 w4 w6,
       windows self present_instruments tokenized_seq = Ok [w0; w2; w4; w6]
       ∧ w0 = present_instruments
              ++ py_slice ([TStr bos_tok] ++ tokenized_seq ++ [TStr eos_tok]) 0 4
       ∧ w2 = present_instruments
              ++ py_slice ([TStr bos_tok] ++ tokenized_seq ++ [TStr eos_tok]) 2 6
       ∧ w4 = present_instruments
              ++ py_slice ([TStr bos_tok] ++ tokenized_seq ++ [TStr eos_tok]) 4 8
       ∧ w6 = present_instruments
              ++ py_slice ([TStr bos_tok] ++ tokenized_seq ++ [TStr eos_tok]) 6 10
       ∧ Forall (λ w, py_len w = 6) [w0; w2; w4; w6]).
Proof.
  intros Htt Hstride Hs Hp.
  destruct (windows_strided_spec self stride present_instruments tokenized_seq
              Htt Hstride) as (n & Hn & Heq & Hin & Hout); [lia|].
  set (_res := [TStr bos_tok] ++ tokenized_seq ++ [TStr eos_tok]) in *.
  assert (∀ k, 0 <= k < n →
               py_len (strided_window self present_instruments _res (k * stride))
               = max_seq_len self) as Hfull.
  { intros k Hk. apply strided_window_length; [nia | done | by apply Hin]. }
  destruct (last_window_length self present_instruments _res (n * stride))
    as (Hlast & Hpad & Hnopad); [nia | done |].
  split.
  - exists n. by repeat (split; [done|]).
  - intros Hp2 Hlen8 Hm6 ->.
    assert (py_len _res = 10) as HL.
    { subst _res. unfold py_len in *. rewrite !length_app. simpl. lia. }
    assert (n = 3) as ->.
    { destruct (decide (n <= 3)); [lia|]. specialize (Hin 3). lia. }
    assert (py_len (strided_window self present_instruments _res 6) = 6) as H6.
    { unfold strided_window. rewrite Hm6, Hp2.
      pose proof (py_slice_length _res 6 (6 + 6 - 2)) as Hsl.
      unfold py_len in *. rewrite length_app. lia. }
    assert (last_window self present_instruments _res (3 * 2)
            = strided_window self present_instruments _res 6) as Hlw.
    { unfold last_window. change (3 * 2) with 6. rewrite H6, Hm6.
      destruct (padding self); [|done]. by rewrite app_nil_r. }
    rewrite Hlw in Heq. rewrite Heq.
    exists (strided_window self present_instruments _res 0),
           (strided_window self present_instruments _res 2),
           (strided_window self present_instruments _res 4),
           (strided_window self present_instruments _res 6).
    split; [reflexivity|].
    do 4 (split; [unfold strided_window; by rewrite Hm6, Hp2|]).
    rewrite <- Hm6. repeat constructor.
    + apply (Hfull 0). lia.
    + apply (Hfull 1). lia.
    + apply (Hfull 2). lia.
    + by rewrite Hm6.
Qed.

Lemma C3_strided_windows_witness :
  truncate_type (example_tokenizer false "strided" 6 (Some 2)) = "strided"
  ∧ stride_len (example_tokenizer false "strided" 6 (Some 2)) = Some 2
  ∧ 0 < 2 < max_seq_len (example_tokenizer false "strided" 6 (Some 2))
  ∧ py_len example_prefix <= max_seq_len (example_tokenizer false "strided" 6 (Some 2))
  ∧ ∃ w0 w2 w4 w6,
      windows (example_tokenizer false "strided" 6 (Some 2)) example_prefix example_body
        = Ok [w0; w2; w4; w6]
      ∧ Forall (λ w, py_len w = 6) [w0; w2; w4; w6].
Proof.
  assert (0 < 2 < max_seq_len (example_tokenizer false "strided" 6 (Some 2))) as Hs
    by (simpl; lia).
  assert (py_len example_prefix
          <= max_seq_len (example_tokenizer false "strided" 6 (Some 2))) as Hp
    by (vm_compute; discriminate).
  split; [reflexivity|]. split; [reflexivity|]. split; [exact Hs|]. split; [exact Hp|].
  destruct (proj2 (C3_strided_windows (example_tokenizer false "strided" 6 (Some 2)) 2
                     example_prefix example_body eq_refl eq_refl Hs Hp)
              eq_refl eq_refl eq_refl eq_refl)
    as (w0 & w2 & w4 & w6 & Heq & _ & _ & _ & _ & Hlen).
  exists w0, w2, w4, w6. split; [exact Heq | exact Hlen].
Defined.

Example strided_windows_example :
  windows (example_tokenizer false "strided" 6 (Some 2)) example_prefix example_body
  = Ok [ [TStr "piano"; TStr "bass"; TStr "<S>"; TPair "wait" (PInt 10);
          TPair "wait" (PInt 20); TPair "wait" (PInt 30)];
         [TStr "piano"; TStr "bass"; TPair "wait" (PInt 20); TPair "wait" (PInt 30);
          TPair "wait" (PInt 40); TPair "wait" (PInt 50)];
         [TStr "piano"; TStr "bass"; TPair "wait" (PInt 40); TPair "wait" (PInt 50);
          TPair "wait" (PInt 60); TPair "wait" (PInt 70)];
         [TStr "piano"; TStr "bass"; TPair "wait" (PInt 60); TPair "wait" (PInt 70);
          TPair "wait" (PInt 80); TStr "<E>"] ].
Proof. by vm_compute. Qed.

(** ** Pedal intervals *)

Lemma StronglySorted_lookup_lt {A} (R : relation A) (l : list A) (i j : nat) (a b : A) :
  StronglySorted R l → (i < j)%nat → l !! i = Some a → l !! j = Some b → R a b.
Proof.
  intros Hs. revert i j. induction Hs as [|x l Hs IH Hx]; intros i j Hij Hi Hj; [done|].
  destruct j as [|j]; [lia|]. destruct i as [|i]; simpl in *.
  - simplify_eq. apply (proj1 (Forall_forall _ _) Hx). by eapply list_elem_of_lookup_2.
  - apply (IH i j); [lia | done | done].
Qed.

Lemma StronglySorted_snoc {A} (R : relation A) (l : list A) (x : A) :
  StronglySorted R l → Forall (λ y, R y x) l → StronglySorted R (l ++ [x]).
Proof.
  intros Hs Hx. apply StronglySorted_app_2; [|done | repeat constructor].
  intros y z Hy ->%list_elem_of_singleton. by apply (proj1 (Forall_forall _ _) Hx).
Qed.

Lemma chained_pairwise_disjoint (l : list (Z * Z)) :
  chained l → pairwise_disjoint l.
Proof.
  intros Hc i j a b Hij Hi Hj (t & Ha & Hb).
  destruct (decide (i < j)%nat).
  - assert (precedes a b) as H
      by (apply (StronglySorted_lookup_lt precedes l i j a b Hc); [lia | done | done]).
    unfold precedes in H. lia.
  - assert (precedes b a) as H
      by (apply (StronglySorted_lookup_lt precedes l j i b a Hc); [lia | done | done]).
    unfold precedes in H. lia.
Qed.

Lemma lookup_total_dd_append (channel channel' : Z) (interval : Z * Z)
    (d : gmap Z (list (Z * Z))) :
  dd_append channel interval d !!! channel'
  = if decide (channel = channel') then d !!! channel ++ [interval] else d !!! channel'.
Proof. unfold dd_append. apply lookup_total_insert. Qed.

Lemma scan_inv_init (T : Z) : scan_inv T (∅, ∅).
Proof.
  split.
  - intros channel. simpl. rewrite lookup_total_empty. split; constructor.
  - intros channel s. simpl. by rewrite lookup_empty.
Qed.

Lemma scan_inv_step (T : Z) (st : gmap Z (list (Z * Z)) * gmap Z Z) (msg : pedal_msg) :
  scan_inv T st → T <= pedal_tick msg → scan_inv (pedal_tick msg) (pedal_step st msg).
Proof.
  destruct st as [d status]. intros [Hd Hst] HT. unfold pedal_step. simpl in *.
  assert (∀ channel, Forall (λ interval : Z * Z,
                       interval.1 <= interval.2 ∧ interval.2 <= pedal_tick msg)
                     (d !!! channel)) as Hd'.
  { intros channel. destruct (Hd channel) as [_ H].
    eapply Forall_impl; [exact H|]. simpl. lia. }
  destruct (status !! pedal_channel msg) as [s|] eqn:Hopen; case_bool_decide.
  - (* an off message closes the interval *)
    destruct (Hst _ _ Hopen) as [Hs Hbefore]. split; simpl.
    + intros channel. rewrite lookup_total_dd_append. case_decide as Hch.
      * split.
        -- apply StronglySorted_snoc; [apply Hd | exact Hbefore].
        -- apply Forall_app. split; [apply Hd'|]. repeat constructor; simpl; lia.
      * split; [apply Hd | apply Hd'].
    + intros channel s' Hs'. apply lookup_delete_Some in Hs' as [Hne Hs'].
      rewrite lookup_total_dd_append. rewrite decide_False by done.
      destruct (Hst _ _ Hs') as [? ?]. split; [lia | done].
  - split; simpl; [intros channel; split; [apply Hd | apply Hd']|].
    intros channel s' Hs'. destruct (Hst _ _ Hs') as [? ?]. split; [lia | done].
  - (* an on message opens one *)
    split; simpl; [intros channel; split; [apply Hd | apply Hd']|].
    intros channel s' Hs'. apply lookup_insert_Some in Hs' as [[<- <-]|[Hne Hs']].
    + split; [lia|]. destruct (Hd (pedal_channel msg)) as [_ Hall].
      eapply Forall_impl; [exact Hall|]. simpl. lia.
    + destruct (Hst _ _ Hs') as [? ?]. split; [lia | done].
  - split; simpl; [intros channel; split; [apply Hd | apply Hd']|].
    intros channel s' Hs'. destruct (Hst _ _ Hs') as [? ?]. split; [lia | done].
Qed.

Lemma scan_inv_foldl (msgs : list pedal_msg) :
  ∀ T st, scan_inv T st → tick_ordered msgs →
          Forall (λ msg, T <= pedal_tick msg) msgs →
          ∃ T', scan_inv T' (foldl pedal_step st msgs).
Proof.
  unfold tick_ordered.
  induction msgs as [|msg rest IH]; intros T st Hinv Hord Hge; simpl.
  - by exists T.
  - rewrite fmap_cons in Hord. apply StronglySorted_inv in Hord as [Hord Hmsg].
    apply Forall_cons in Hge as [Hge _].
    apply (IH (pedal_tick msg)); [by apply (scan_inv_step T) | done |].
    rewrite Forall_fmap in Hmsg. eapply Forall_impl; [exact Hmsg|]. by intros.
Qed.

(** Closing the pedals still held appends one interval, ending at the final
    tick, to the channels that hold one. *)
Lemma close_unclosed_lookup (final_tick : Z) (d : gmap Z (list (Z * Z)))
    (status : gmap Z Z) (channel : Z) :
  map_fold (λ channel start_tick d, dd_append channel (start_tick, final_tick) d)
           d status !!! channel
  = d !!! channel
    ++ match status !! channel with
       | Some start_tick => [(start_tick, final_tick)]
       | None => []
       end.
Proof.
  apply (map_fold_weak_ind
           (λ r m, r !!! channel
                   = d !!! channel
                     ++ match m !! channel with
                        | Some start_tick => [(start_tick, final_tick)]
                        | None => []
                        end)).
  - by rewrite lookup_empty, app_nil_r.
  - intros i x m r Hi IH. rewrite lookup_total_dd_append, lookup_insert.
    case_decide as Hch.
    + subst i. rewrite IH, Hi, app_nil_r. done.
    + done.
Qed.

Lemma scan_inv_all (msgs : list pedal_msg) :
  tick_ordered msgs → ∃ T, scan_inv T (foldl pedal_step (∅, ∅) msgs).
Proof.
  intros Hord. destruct msgs as [|msg rest].
  - exists 0. apply scan_inv_init.
  - apply (scan_inv_foldl (msg :: rest) (pedal_tick msg)); [apply scan_inv_init | done |].
    unfold tick_ordered in Hord. rewrite fmap_cons in Hord.
    apply StronglySorted_inv in Hord as [_ Hmsg]. constructor; [lia|].
    rewrite Forall_fmap in Hmsg. eapply Forall_impl; [exact Hmsg|]. by intros.
Qed.

Lemma build_pedal_intervals_spec (midi_dict : MidiDict) :
  tick_ordered (pedal_msgs midi_dict) → note_msgs midi_dict ≠ [] →
  ∃ d last_note,
    last (note_msgs midi_dict) = Some last_note
    ∧ _build_pedal_intervals midi_dict = Ok d
    ∧ ∀ channel,
        chained (d !!! channel)
        ∧ ∃ closed unclosed,
            d !!! channel = closed ++ unclosed
            ∧ Forall (λ interval, interval.1 <= interval.2) closed
            ∧ (unclosed = [] ∨ ∃ s, unclosed = [(s, end_ last_note)]).
Proof.
  intros Hord Hnotes. destruct (scan_inv_all _ Hord) as [T Hinv].
  unfold _build_pedal_intervals.
  destruct (foldl pedal_step (∅, ∅) (pedal_msgs midi_dict)) as [d0 status].
  destruct Hinv as [Hd Hst]. simpl in Hd, Hst.
  destruct (last (note_msgs midi_dict)) as [last_note|] eqn:Hlast.
  2: { apply last_None in Hlast. done. }
  eexists. exists last_note. split; [done|].
  unfold py_last. rewrite Hlast. simpl. split; [reflexivity|].
  intros channel. rewrite close_unclosed_lookup.
  destruct (Hd channel) as [Hchain Hprop].
  split.
  - destruct (status !! channel) as [s|] eqn:Hs.
    + apply StronglySorted_snoc; [done|]. by destruct (Hst _ _ Hs).
    + by rewrite app_nil_r.
  - exists (d0 !!! channel). eexists. split; [reflexivity|]. split.
    + eapply Forall_impl; [exact Hprop|]. simpl. lia.
    + destruct (status !! channel) as [s|]; [right; by exists s | by left].
Qed.

Example pedal_after_last_note_interval :
  ∃ d, _build_pedal_intervals pedal_after_last_note = Ok d ∧ d !!! 0 = [(1000, 900)].
Proof. eexists. split; [reflexivity | by vm_compute]. Qed.

(** C8, as stated, fails: a pedal pressed and released at the same tick
    leaves the interval (5, 5), whose start is not before its end. *)
Lemma C8_tap_interval_not_proper :
  tick_ordered (pedal_msgs pedal_tap)
  ∧ ∃ d, _build_pedal_intervals pedal_tap = Ok d
         ∧ d !!! 0 = [(5, 5)]
         ∧ ¬ disjoint_and_proper d.
Proof.
  split.
  - unfold tick_ordered. simpl. repeat constructor; lia.
  - eexists. split; [reflexivity|].
    assert (∀ d : gmap Z (list (Z * Z)), d !!! 0 = [(5, 5)] → ¬ disjoint_and_proper d)
      as Hno.
    { intros d Hd Hclaim. destruct (Hclaim 0) as [_ Hproper].
      rewrite Hd in Hproper. apply Forall_cons in Hproper as [Hlt _]. simpl in Hlt. lia. }
    assert (∀ (d : gmap Z (list (Z * Z))) l, d !!! 0 = l → l = [(5, 5)] →
              d !!! 0 = [(5, 5)] ∧ ¬ disjoint_and_proper d) as Hboth.
    { intros d l <- Hl. split; [done | by apply Hno]. }
    eapply Hboth; [reflexivity | by vm_compute].
Qed.

(** C8, amended: for every pedal event stream ordered by tick and every
    non-empty note list, the extractor returns, for each channel, intervals
    of which no two overlap as half-open ranges; each interval precedes the
    later ones; every interval closed by a pedal-off event has its start at
    or before its end (the two are equal when the pedal is pressed and
    released at one tick); at most one interval, the last, is left open by
    the scan and closed at the end tick of the last note, whatever its
    start. *)
Theorem C8_pedal_intervals (midi_dict : MidiDict) :
  tick_ordered (pedal_msgs midi_dict) → note_msgs midi_dict ≠ [] →
  ∃ d last_note,
    last (note_msgs midi_dict) = Some last_note
    ∧ _build_pedal_intervals midi_dict = Ok d
    ∧ ∀ channel,
        pairwise_disjoint (d !!! channel)
        ∧ chained (d !!! channel)
        ∧ ∃ closed unclosed,
            d !!! channel = closed ++ unclosed
            ∧ Forall (λ interval, interval.1 <= interval.2) closed
            ∧ (unclosed = [] ∨ ∃ s, unclosed = [(s, end_ last_note)]).
Proof.
  intros Hord Hnotes.
  destruct (build_pedal_intervals_spec midi_dict Hord Hnotes)
    as (d & last_note & Hlast & Hd & Hall).
  exists d, last_note. split; [done|]. split; [done|].
  intros channel. destruct (Hall channel) as [Hchain Hparts].
  split; [by apply chained_pairwise_disjoint|]. by split.
Qed.

Lemma C8_pedal_intervals_witness :
  tick_ordered (pedal_msgs pedal_tap) ∧ note_msgs pedal_tap ≠ []
  ∧ ∃ d last_note,
      last (note_msgs pedal_tap) = Some last_note
      ∧ _build_pedal_intervals pedal_tap = Ok d
      ∧ ∀ channel,
          pairwise_disjoint (d !!! channel)
          ∧ chained (d !!! channel)
          ∧ ∃ closed unclosed,
              d !!! channel = closed ++ unclosed
              ∧ Forall (λ interval, interval.1 <= interval.2) closed
              ∧ (unclosed = [] ∨ ∃ s, unclosed = [(s, end_ last_note)]).
Proof.
  assert (tick_ordered (pedal_msgs pedal_tap)) as Hord
    by (unfold tick_ordered; simpl; repeat constructor; lia).
  assert (note_msgs pedal_tap ≠ []) as Hnotes by done.
  split; [exact Hord|]. split; [exact Hnotes|].
  exact (C8_pedal_intervals pedal_tap Hord Hnotes).
Defined.

(** ** An empty note stream *)

Lemma program_to_instrument_total (i : Z) :
  0 <= i <= 127 →
  ∃ family, family ∈ program_families ∧ program_to_instrument !! i = Some family.2.
Proof.
  intros Hi.
  assert (Forall (λ i, ∃ family, family ∈ program_families
                                 ∧ program_to_instrument !! i = Some family.2)
                 (seqZ 0 128)) as Hall.
  { apply Forall_forall. intros j Hj.
    assert (bool_decide (Exists (λ family : Z * string,
                                   program_to_instrument !! j = Some family.2)
                                program_families) = true) as Hb.
    { revert j Hj. apply Forall_forall.
      apply (bool_decide_unpack _). by vm_compute. }
    apply bool_decide_eq_true, Exists_exists in Hb. destruct Hb as (f & ? & ?). eauto. }
  rewrite Forall_forall in Hall. apply Hall, elem_of_seqZ. lia.
Qed.

Lemma dict_get_Some `{Countable K} {V} (d : gmap K V) (k : K) (v : V) :
  d !! k = Some v → dict_get d k = Ok v.
Proof. unfold dict_get. by intros ->. Qed.

Lemma remove_instruments_Ok (self : TokenizerLazy) (midi_dict : MidiDict) :
  config_complete (config self) →
  ∃ filtered,
    _remove_instruments self midi_dict = Ok filtered
    ∧ (∀ msg, msg ∈ note_msgs filtered → msg ∈ note_msgs midi_dict)
    ∧ ticks_per_beat filtered = ticks_per_beat midi_dict.
Proof.
  intros Hcfg. unfold _remove_instruments.
  assert (∀ l : list Z, Forall (λ i, 0 <= i <= 127) l →
            ∃ programs,
              foldr (λ i rest,
                       name ← dict_get program_to_instrument i;
                       flag ← dict_get (ignore_instruments (config self)) name;
                       tl ← rest;
                       Ok (if flag : bool then i :: tl else tl))
                    (Ok []) l = Ok programs) as Hprograms.
  { induction l as [|i l IH]; intros Hl; cbn [foldr].
    - by eexists.
    - apply Forall_cons in Hl as [Hi Hl]. destruct (IH Hl) as [tl ->].
      destruct (program_to_instrument_total i Hi) as (family & Hin & Hname).
      rewrite (dict_get_Some _ _ _ Hname), bind_Ok_eq.
      unfold config_complete in Hcfg. rewrite Forall_forall in Hcfg.
      destruct (Hcfg family Hin) as [flag Hflag].
      rewrite (dict_get_Some _ _ _ Hflag), !bind_Ok_eq. by eexists. }
  destruct (Hprograms (seqZ 1 127)) as [programs ->].
  { apply Forall_forall. intros i Hi%elem_of_seqZ. lia. }
  rewrite bind_Ok_eq. eexists. split; [reflexivity|]. cbn [note_msgs ticks_per_beat].
  split; [|reflexivity].
  intros msg Hmsg. by apply list_elem_of_filter in Hmsg as [_ ?].
Qed.

Lemma build_pedal_intervals_no_notes (midi_dict : MidiDict) :
  note_msgs midi_dict = [] → _build_pedal_intervals midi_dict = Raise IndexError.
Proof.
  intros Hnotes. unfold _build_pedal_intervals.
  destruct (foldl pedal_step (∅, ∅) (pedal_msgs midi_dict)) as [d status].
  rewrite Hnotes. reflexivity.
Qed.


Lemma example_config_complete : config_complete example_config.
Proof. unfold config_complete. apply (bool_decide_unpack _). vm_compute. exact I. Qed.

(** C7, as stated, fails: encoding a stream without notes does not raise an
    [EmptySequenceError]; it raises the [IndexError] of
    [midi_dict.note_msgs[-1]]. *)
Lemma C7_no_notes_index_error :
  note_msgs no_notes = []
  ∧ tokenize_midi_dict remove_dups (example_tokenizer false "none" 512 None) no_notes
    = Raise IndexError
  ∧ tokenize_midi_dict remove_dups (example_tokenizer false "none" 512 None) no_notes
    ≠ Raise EmptySequenceError.
Proof.
  assert (tokenize_midi_dict remove_dups (example_tokenizer false "none" 512 None)
                             no_notes = Raise IndexError) as H
    by (vm_compute; reflexivity).
  split; [reflexivity|]. split; [exact H|]. rewrite H. discriminate.
Qed.

(** C7, amended: for every event stream without note events, encoding fails,
    with the [IndexError] that [_build_pedal_intervals] raises when it reads
    the end tick of the last note; this happens after the instruments have
    been filtered and the pedal messages scanned, and before any token is
    built.  There is no check of its own for the empty stream.  The tokenizer
    is any whose configuration flags all sixteen instrument families. *)
Theorem C7_empty_stream_fails (list_of_set : list string → list string)
    (self : TokenizerLazy) (midi_dict : MidiDict) :
  config_complete (config self) → note_msgs midi_dict = [] →
  ∃ filtered,
    _remove_instruments self midi_dict = Ok filtered
    ∧ note_msgs filtered = []
    ∧ _build_pedal_intervals filtered = Raise IndexError
    ∧ tokenize_midi_dict list_of_set self midi_dict = Raise IndexError.
Proof.
  intros Hcfg Hnotes.
  destruct (remove_instruments_Ok self midi_dict Hcfg)
    as (filtered & Hremove & Hsub & _).
  assert (note_msgs filtered = []) as Hkeep.
  { destruct (note_msgs filtered) as [|msg rest]; [done|].
    specialize (Hsub msg). rewrite Hnotes in Hsub.
    exfalso. eapply not_elem_of_nil, Hsub. by left. }
  exists filtered. split; [done|]. split; [done|].
  pose proof (build_pedal_intervals_no_notes filtered Hkeep) as Hbuild.
  split; [done|]. unfold tokenize_midi_dict.
  by rewrite Hremove, bind_Ok_eq, Hbuild, bind_Raise_eq.
Qed.

Lemma C7_empty_stream_fails_witness :
  config_complete (config (example_tokenizer false "none" 512 None))
  ∧ note_msgs no_notes = []
  ∧ ∃ filtered,
      _remove_instruments (example_tokenizer false "none" 512 None) no_notes = Ok filtered
      ∧ note_msgs filtered = []
      ∧ _build_pedal_intervals filtered = Raise IndexError
      ∧ tokenize_midi_dict remove_dups (example_tokenizer false "none" 512 None) no_notes
        = Raise IndexError.
Proof.
  split; [exact example_config_complete|]. split; [reflexivity|].
  exact (C7_empty_stream_fails remove_dups (example_tokenizer false "none" 512 None)
           no_notes example_config_complete eq_refl).
Defined.

(** ** The present-instruments prefix *)

Lemma set_order_remove_dups : set_order remove_dups.
Proof.
  intros l. split; [apply NoDup_remove_dups|]. intros x. apply elem_of_remove_dups.
Qed.

Lemma set_order_reverse_remove_dups : set_order (reverse ∘ remove_dups).
Proof.
  intros l. simpl. split.
  - rewrite reverse_Permutation. apply NoDup_remove_dups.
  - intros x. rewrite elem_of_reverse. apply elem_of_remove_dups.
Qed.

Lemma Forall2_elem_l {A B} (P : A → B → Prop) (l : list A) (k : list B) (x : A) :
  Forall2 P l k → x ∈ l → ∃ y, y ∈ k ∧ P x y.
Proof.
  induction 1 as [|a b l k Hab _ IH]; intros Hx; [by apply elem_of_nil in Hx|].
  apply elem_of_cons in Hx as [->|Hx].
  - exists b. split; [by left | done].
  - destruct (IH Hx) as (y & ? & ?). exists y. split; [by right | done].
Qed.

Lemma Forall2_elem_r {A B} (P : A → B → Prop) (l : list A) (k : list B) (y : B) :
  Forall2 P l k → y ∈ k → ∃ x, x ∈ l ∧ P x y.
Proof.
  induction 1 as [|a b l k Hab _ IH]; intros Hy; [by apply elem_of_nil in Hy|].
  apply elem_of_cons in Hy as [->|Hy].
  - exists a. split; [by left | done].
  - destruct (IH Hy) as (x & ? & ?). exists x. split; [by right | done].
Qed.

Lemma mapM_Ok {A B} (f : A → result B) (l : list A) :
  (∀ x, x ∈ l → ∃ y, f x = Ok y) →
  ∃ ys, mapM f l = Ok ys ∧ Forall2 (λ x y, f x = Ok y) l ys.
Proof.
  induction l as [|x l IH]; intros Hall.
  - exists []. split; [reflexivity | constructor].
  - destruct (Hall x) as [y Hy]; [by left|].
    destruct IH as (ys & Hys & Hrel); [intros z Hz; apply Hall; by right|].
    exists (y :: ys). split; [|by constructor].
    cbn [mapM]. by rewrite Hy, bind_Ok_eq, Hys, bind_Ok_eq.
Qed.

Lemma mapM_Ok_inv {A B} (f : A → result B) (l : list A) (ys : list B) :
  mapM f l = Ok ys → Forall2 (λ x y, f x = Ok y) l ys.
Proof.
  revert ys. induction l as [|x l IH]; intros ys H; cbn [mapM] in H.
  - injection H as <-. constructor.
  - inv_bind H as y Hy. inv_bind H as k Hk. injection H as <-.
    constructor; [done | by apply IH].
Qed.

Lemma drum_channel_used (msgs : list instrument_msg) :
  bool_decide (9 ∈ (list_to_set (instr_channel <$> msgs) : gset Z))
  || bool_decide (16 ∈ (list_to_set (instr_channel <$> msgs) : gset Z)) = true
  ↔ ∃ msg, msg ∈ msgs ∧ is_drum_channel (instr_channel msg) = true.
Proof.
  rewrite orb_true_iff, !bool_decide_eq_true, !elem_of_list_to_set, !list_elem_of_fmap.
  unfold is_drum_channel. split.
  - intros [(msg & Hch & Hin)|(msg & Hch & Hin)]; exists msg; rewrite <- Hch;
      split; try done.
  - intros (msg & Hin & Hch). apply orb_true_iff in Hch as [Hch|Hch];
      apply bool_decide_eq_true in Hch; [left | right]; by exists msg.
Qed.

Lemma declared_instruments_spec (msgs : list instrument_msg) (names : list string) :
  declared_instruments msgs = Ok names → ∀ x, x ∈ names ↔ declared msgs x.
Proof.
  unfold declared_instruments, declared. intros H x.
  inv_bind H as collected Hcollected. injection H as <-.
  apply mapM_Ok_inv in Hcollected.
  assert (x ∈ collected
          ↔ ∃ msg, msg ∈ msgs ∧ is_drum_channel (instr_channel msg) = false
                   ∧ program_to_instrument !! instr_data msg = Some x) as Hnames.
  { split.
    - intros Hx. destruct (Forall2_elem_r _ _ _ _ Hcollected Hx) as (msg & Hin & Hget).
      apply list_elem_of_filter in Hin as [Hnd Hin]. exists msg.
      split; [done|]. split; [done|].
      unfold dict_get in Hget. by destruct (program_to_instrument !! _); simplify_eq.
    - intros (msg & Hin & Hnd & Hname).
      destruct (Forall2_elem_l _ _ _ msg Hcollected) as (y & Hy & Hget).
      { by apply list_elem_of_filter. }
      rewrite (dict_get_Some _ _ _ Hname) in Hget. by simplify_eq. }
  pose proof (drum_channel_used msgs) as Hdrum.
  destruct (_ || _).
  - rewrite elem_of_app, list_elem_of_singleton, Hnames.
    destruct Hdrum as [Hdrum _]. specialize (Hdrum eq_refl).
    split; (intros [Hx|Hx]; [by left | right]); [by split | by destruct Hx].
  - rewrite Hnames. split; [by left|]. intros [?|[_ Hex]]; [done|].
    destruct Hdrum as [_ Hdrum]. by specialize (Hdrum Hex).
Qed.

Lemma declared_instruments_Ok (msgs : list instrument_msg) :
  (∀ msg, msg ∈ msgs → 0 <= instr_data msg <= 127) →
  ∃ names, declared_instruments msgs = Ok names.
Proof.
  intros Hrange. unfold declared_instruments.
  destruct (mapM_Ok (λ msg, dict_get program_to_instrument (instr_data msg))
              (filter (λ msg, is_drum_channel (instr_channel msg) = false) msgs))
    as (names & -> & _).
  - intros msg [_ Hin]%list_elem_of_filter.
    destruct (program_to_instrument_total _ (Hrange msg Hin)) as (family & _ & Hname).
    exists family.2. by apply dict_get_Some.
  - rewrite bind_Ok_eq. by eexists.
Qed.

Lemma present_instruments_spec (list_of_set : list string → list string)
    (msgs : list instrument_msg) :
  set_order list_of_set →
  (∀ msg, msg ∈ msgs → 0 <= instr_data msg <= 127) →
  ∃ names,
    declared_instruments msgs = Ok names
    ∧ present_instruments_of list_of_set msgs = Ok (list_of_set names)
    ∧ NoDup (list_of_set names)
    ∧ ∀ x, x ∈ list_of_set names ↔ declared msgs x.
Proof.
  intros Hset Hrange. destruct (declared_instruments_Ok msgs Hrange) as [names Hnames].
  exists names. destruct (Hset names) as [Hnodup Helem].
  split; [done|]. split; [|split; [done|]].
  - unfold present_instruments_of. by rewrite Hnames, bind_Ok_eq.
  - intros x. rewrite Helem. by apply declared_instruments_spec.
Qed.

(** An order that depends on the elements alone cannot be the order of first
    occurrence for both orders of two declarations. *)
Lemma first_occurrence_needs_the_order (list_of_set : list string → list string) :
  list_of_set ["piano"; "bass"] = list_of_set ["bass"; "piano"] →
  present_instruments_of list_of_set piano_then_bass
    ≠ spec_present_instruments piano_then_bass
  ∨ present_instruments_of list_of_set (reverse piano_then_bass)
    ≠ spec_present_instruments (reverse piano_then_bass).
Proof.
  intros Hsame.
  assert (present_instruments_of list_of_set piano_then_bass
          = Ok (list_of_set ["piano"; "bass"])) as -> by (vm_compute; reflexivity).
  assert (present_instruments_of list_of_set (reverse piano_then_bass)
          = Ok (list_of_set ["bass"; "piano"])) as -> by (vm_compute; reflexivity).
  assert (spec_present_instruments piano_then_bass = Ok ["piano"; "bass"]) as ->
    by (vm_compute; reflexivity).
  assert (spec_present_instruments (reverse piano_then_bass) = Ok ["bass"; "piano"]) as ->
    by (vm_compute; reflexivity).
  rewrite Hsame. destruct (decide (list_of_set ["bass"; "piano"] = ["piano"; "bass"]))
    as [->|Hne].
  - right. discriminate.
  - left. intros [= Heq]. done.
Qed.

(** C9, as stated, fails: [list(set(...))] does not keep the order of first
    occurrence.  For an iteration order that [list(set(...))] may take, a
    piano declared before a bass gives the prefix bass, piano. *)
Lemma C9_prefix_order_not_kept :
  set_order (reverse ∘ remove_dups)
  ∧ present_instruments_of (reverse ∘ remove_dups) piano_then_bass = Ok ["bass"; "piano"]
  ∧ spec_present_instruments piano_then_bass = Ok ["piano"; "bass"]
  ∧ ¬ (∀ list_of_set msgs,
         set_order list_of_set →
         present_instruments_of list_of_set msgs = spec_present_instruments msgs).
Proof.
  assert (present_instruments_of (reverse ∘ remove_dups) piano_then_bass
          = Ok ["bass"; "piano"]) as Hcode by (vm_compute; reflexivity).
  assert (spec_present_instruments piano_then_bass = Ok ["piano"; "bass"]) as Hspec
    by (vm_compute; reflexivity).
  split; [exact set_order_reverse_remove_dups|]. split; [exact Hcode|].
  split; [exact Hspec|]. intros Hclaim.
  specialize (Hclaim _ piano_then_bass set_order_reverse_remove_dups).
  rewrite Hcode, Hspec in Hclaim. discriminate.
Qed.

(** C9, amended: the present-instruments prefix is free of duplicates and
    holds exactly the names of the instruments declared outside the drum
    channels, and the drum marker exactly when a drum channel is declared;
    its order is the iteration order of a Python set, which need not be the
    order of first occurrence nor put the drum marker last.  The programs of
    the declarations are MIDI programs, 0 to 127. *)
Theorem C9_present_instruments (list_of_set : list string → list string)
    (msgs : list instrument_msg) :
  set_order list_of_set →
  (∀ msg, msg ∈ msgs → 0 <= instr_data msg <= 127) →
  ∃ prefix,
    present_instruments_of list_of_set msgs = Ok prefix
    ∧ NoDup prefix
    ∧ ∀ x, x ∈ prefix ↔ declared msgs x.
Proof.
  intros Hset Hrange.
  destruct (present_instruments_spec list_of_set msgs Hset Hrange)
    as (names & _ & Hprefix & Hnodup & Helem).
  by exists (list_of_set names).
Qed.

Lemma C9_present_instruments_witness :
  set_order remove_dups
  ∧ (∀ msg, msg ∈ piano_then_bass → 0 <= instr_data msg <= 127)
  ∧ ∃ prefix,
      present_instruments_of remove_dups piano_then_bass = Ok prefix
      ∧ NoDup prefix
      ∧ ∀ x, x ∈ prefix ↔ declared piano_then_bass x.
Proof.
  assert (∀ msg, msg ∈ piano_then_bass → 0 <= instr_data msg <= 127) as Hrange.
  { intros msg Hmsg. unfold piano_then_bass in Hmsg.
    apply elem_of_cons in Hmsg as [->|Hmsg]; [simpl; lia|].
    apply elem_of_cons in Hmsg as [->|Hmsg]; [simpl; lia|].
    by apply elem_of_nil in Hmsg. }
  split; [exact set_order_remove_dups|]. split; [exact Hrange|].
  exact (C9_present_instruments remove_dups piano_then_bass set_order_remove_dups Hrange).
Defined.

(** The prefix of the windows is this list: without truncation the one
    window starts with it. *)
Lemma tokenize_midi_dict_prefix (list_of_set : list string → list string)
    (self : TokenizerLazy) (midi_dict : MidiDict) (res : list (list token)) :
  truncate_type self = "none" →
  tokenize_midi_dict list_of_set self midi_dict = Ok res →
  ∃ filtered present_instruments tokenized_seq,
    _remove_instruments self midi_dict = Ok filtered
    ∧ present_instruments_of list_of_set (instrument_msgs filtered)
      = Ok present_instruments
    ∧ res = [(TStr <$> present_instruments)
             ++ [TStr bos_tok] ++ tokenized_seq ++ [TStr eos_tok]].
Proof.
  intros Htt H. unfold tokenize_midi_dict in H.
  inv_bind H as filtered Hfiltered. inv_bind H as c2p Hc2p. inv_bind H as c2i Hc2i.
  inv_bind H as present Hpresent. inv_bind H as seq Hseq.
  unfold windows in H. rewrite Htt in H.
  change (bool_decide ("none" = "none")) with true in H. injection H as <-.
  by exists filtered, present, seq.
Qed.

(** ** Augmentation *)

Lemma pitch_aug_tok_spec (unk : string) (tok tok' : token) (pitch_aug : Z) :
  pitch_aug_tok unk tok pitch_aug = Ok tok' →
  unk = unk_tok →
  pitch_shifted pitch_aug tok tok' ∧ note_with (λ p _, 0 <= p <= 127) tok'.
Proof.
  intros H ->. unfold pitch_shifted, note_with.
  destruct tok as [s|tag v|inst p v]; simpl in H.
  - injection H as <-. by split.
  - destruct (returned_unchanged tag); [|done]. injection H as <-. by split.
  - destruct (returned_unchanged inst) eqn:Hinst.
    + injection H as <-. split; [done|]. intros ??? [= <- <- <-] ?. congruence.
    + case_bool_decide as Hrange; injection H as <-; (split; [done|]).
      * by intros ??? [= <- <- <-] _.
      * done.
Qed.

Lemma velocity_aug_tok_spec (step max_ : Z) (tok tok' : token) (velocity_aug : Z) :
  step <= max_ →
  velocity_aug_tok step max_ tok velocity_aug = Ok tok' →
  velocity_shifted step max_ velocity_aug tok tok'
  ∧ note_with (λ _ v, ∃ q, v = PInt q ∧ step <= q <= max_) tok'.
Proof.
  intros Hle H. unfold velocity_shifted, note_with.
  destruct tok as [s|tag v|inst p v]; simpl in H.
  - injection H as <-. by split.
  - destruct (returned_unchanged tag); [|done]. injection H as <-. by split.
  - destruct (returned_unchanged inst) eqn:Hinst.
    + injection H as <-. split; [done|]. intros ??? [= <- <- <-] ?. congruence.
    + destruct v as [v|]; simpl in H.
      * repeat case_bool_decide; injection H as <-.
        -- split; [exists max_; split; [done|]; split; lia|].
           intros ??? [= <- <- <-] _. exists max_. split; [done | lia].
        -- split; [exists step; split; [done|]; split; lia|].
           intros ??? [= <- <- <-] _. exists step. split; [done | lia].
        -- split; [exists (v + velocity_aug); split; [done|]; split; lia|].
           intros ??? [= <- <- <-] _. exists (v + velocity_aug). split; [done | lia].
      * destruct (float_of_int velocity_aug); simpl in H; [|done..].
        injection H as <-.
        split; [exists max_; split; [done|]; split; [lia | done]|].
        intros ??? [= <- <- <-] _. exists max_. split; [done | lia].
Qed.

Lemma mapM_spec {A B} (f : A → result B) (R : A → B → Prop) (Q : B → Prop)
    (l : list A) (ys : list B) :
  (∀ x y, f x = Ok y → R x y ∧ Q y) →
  mapM f l = Ok ys → Forall2 R l ys ∧ Forall Q ys.
Proof.
  intros Hf Hmap. apply mapM_Ok_inv in Hmap.
  induction Hmap as [|x y l ys Hxy _ [IH1 IH2]]; [by split; constructor|].
  destruct (Hf x y Hxy). split; by constructor.
Qed.

Lemma aug_tok_total (f : token → result token) (src : list token) :
  (∀ s, ∃ tok', f (TStr s) = Ok tok') →
  (∀ tag v, returned_unchanged tag = true → ∃ tok', f (TPair tag v) = Ok tok') →
  (∀ i p v, TNote i p v ∈ src → ∃ tok', f (TNote i p v) = Ok tok') →
  pairs_known src →
  ∃ out, mapM f src = Ok out.
Proof.
  intros Hs Hp Hn Hknown. destruct (mapM_Ok f src) as (out & Hout & _); [|by exists out].
  intros [s|tag v|i p v] Hin; [apply Hs | apply Hp; by eapply Hknown | by apply Hn].
Qed.

Lemma export_pitch_aug_spec (self : TokenizerLazy) (aug_range : Z) (src : list token)
    (pitch_aug : Z) (out : list token) :
  export_pitch_aug self aug_range src pitch_aug = Ok out →
  Forall2 (pitch_shifted pitch_aug) src out
  ∧ Forall (note_with (λ p _, 0 <= p <= 127)) out.
Proof.
  unfold export_pitch_aug, pitch_aug_seq. case_bool_decide; [done|].
  apply mapM_spec. intros tok tok' Htok. by eapply pitch_aug_tok_spec.
Qed.

Lemma export_velocity_aug_spec (self : TokenizerLazy) (aug_steps_range : Z)
    (src : list token) (drawn : Z) (out : list token) :
  velocity_step self <= max_velocity self →
  export_velocity_aug self aug_steps_range src drawn = Ok out →
  Forall2 (velocity_shifted (velocity_step self) (max_velocity self)
                            (velocity_step self * drawn)) src out
  ∧ Forall (note_with (λ _ v, ∃ q, v = PInt q
                                   ∧ velocity_step self <= q <= max_velocity self)) out.
Proof.
  intros Hle. unfold export_velocity_aug, velocity_aug_seq. case_bool_decide; [done|].
  apply mapM_spec. intros tok tok' Htok. by eapply velocity_aug_tok_spec.
Qed.

Lemma mapM_Raise {A B} (f : A → result B) (e : exn) (l : list A) (x : A) :
  (∀ y, y ∈ l → (∃ z, f y = Ok z) ∨ f y = Raise e) →
  x ∈ l → f x = Raise e → mapM f l = Raise e.
Proof.
  induction l as [|a l IH]; intros Hall Hin Hx; [by apply elem_of_nil in Hin|].
  cbn [mapM]. destruct (Hall a) as [[z Hz]|Hr]; [by left| |by rewrite Hr].
  rewrite Hz, bind_Ok_eq.
  apply elem_of_cons in Hin as [->|Hin]; [congruence|].
  rewrite IH; [done| |done..]. intros y Hy. apply Hall. by right.
Qed.

Lemma export_aug_total (self : TokenizerLazy) (range_ : Z) (src : list token) (drawn : Z) :
  0 <= range_ → pairs_known src →
  (∃ out, export_pitch_aug self range_ src drawn = Ok out)
  ∧ (inf_velocity_offset_ok src (velocity_step self * drawn) →
     ∃ out, export_velocity_aug self range_ src drawn = Ok out)
  ∧ (∀ _instrument _pitch,
       TNote _instrument _pitch PInf ∈ src →
       returned_unchanged _instrument = false →
       float_of_int (velocity_step self * drawn) = Raise OverflowError →
       export_velocity_aug self range_ src drawn = Raise OverflowError).
Proof.
  intros Hrange Hknown.
  unfold export_pitch_aug, pitch_aug_seq, export_velocity_aug, velocity_aug_seq.
  rewrite !bool_decide_eq_false_2 by lia. split; [|split].
  - apply aug_tok_total; [| | |done].
    + intros s. by eexists.
    + intros tag v Htag. simpl. rewrite Htag. by eexists.
    + intros i p v _. simpl. destruct (returned_unchanged i); [by eexists|].
      case_bool_decide; by eexists.
  - intros Hinf. apply aug_tok_total; [| | |done].
    + intros s. by eexists.
    + intros tag v Htag. simpl. rewrite Htag. by eexists.
    + intros i p v Hin. cbn [velocity_aug_tok].
      destruct (returned_unchanged i) eqn:Hi; [by eexists|].
      destruct v as [v|]; cbn [sum_ge sum_le].
      * rewrite bind_Ok_eq. case_bool_decide; [by eexists|].
        rewrite bind_Ok_eq. case_bool_decide; by eexists.
      * destruct (Hinf i p Hin Hi) as [f ->]. by eexists.
  - intros _instrument _pitch Hin Hi Hover.
    apply (mapM_Raise _ _ _ (TNote _instrument _pitch PInf)); [|done|].
    + intros [s|tag v|i p v] Hy; cbn [velocity_aug_tok].
      * left. by eexists.
      * rewrite (Hknown _ _ Hy). left. by eexists.
      * destruct (returned_unchanged i); [left; by eexists|].
        destruct v as [v|]; cbn [sum_ge sum_le].
        -- left. rewrite bind_Ok_eq. case_bool_decide; [by eexists|].
           rewrite bind_Ok_eq. case_bool_decide; by eexists.
        -- right. by rewrite Hover.
    + cbn [velocity_aug_tok sum_ge]. by rewrite Hi, Hover.
Qed.

(** C10: for every token sequence and every drawn offset, the exported
    pitch augmentation leaves no note token with a pitch outside [0, 127]: a
    note whose shifted pitch is out of range becomes the unknown token and
    every other kind of token is returned as it is; the exported velocity
    augmentation leaves no note token with a velocity outside
    [velocity_step, max_velocity]: the sum is clamped to these bounds.  When
    the range is not negative and every pair token is a drum, duration or
    wait token, the pitch augmentation returns a sequence, and so does the
    velocity augmentation unless a note it has to change has the velocity
    [float("inf")] and the offset is beyond the range of the floats: then
    [inf + offset] raises [OverflowError].  The tokenizer is any that
    [__init__] returns for a velocity step from 1 to 127. *)
Theorem C10_augmentation_bounds (padding_ : bool) (truncate_type_ : string)
    (max_seq_len_ : Z) (stride_len_ : option Z) (config_ : LazyConfig)
    (self : TokenizerLazy) :
  TokenizerLazy_init padding_ truncate_type_ max_seq_len_ stride_len_ config_ = Ok self →
  1 <= velocity_quantization_step config_ <= 127 →
  (∀ aug_range src pitch_aug out,
     export_pitch_aug self aug_range src pitch_aug = Ok out →
     Forall2 (pitch_shifted pitch_aug) src out
     ∧ Forall (note_with (λ p _, 0 <= p <= 127)) out)
  ∧ (∀ aug_steps_range src drawn out,
       export_velocity_aug self aug_steps_range src drawn = Ok out →
       Forall2 (velocity_shifted (velocity_step self) (max_velocity self)
                                 (velocity_step self * drawn)) src out
       ∧ Forall (note_with (λ _ v, ∃ q, v = PInt q
                                        ∧ velocity_step self <= q <= max_velocity self))
                out)
  ∧ (∀ range_ src drawn,
       0 <= range_ → pairs_known src →
       (∃ out, export_pitch_aug self range_ src drawn = Ok out)
       ∧ (inf_velocity_offset_ok src (velocity_step self * drawn) →
          ∃ out, export_velocity_aug self range_ src drawn = Ok out)
       ∧ (∀ _instrument _pitch,
            TNote _instrument _pitch PInf ∈ src →
            returned_unchanged _instrument = false →
            float_of_int (velocity_step self * drawn) = Raise OverflowError →
            export_velocity_aug self range_ src drawn = Raise OverflowError)).
Proof.
  intros Hinit Hstep.
  destruct (velocity_bounds _ _ _ _ _ _ Hinit Hstep) as (_ & _ & Hle & _).
  split; [|split].
  - intros aug_range src pitch_aug out. apply export_pitch_aug_spec.
  - intros aug_steps_range src drawn out. by apply export_velocity_aug_spec.
  - intros range_ src drawn. apply export_aug_total.
Qed.

Lemma example_tokens_pairs_known : pairs_known example_tokens.
Proof.
  intros tag v Hin. unfold example_tokens in Hin.
  repeat (apply elem_of_cons in Hin as [Hin|Hin]; [by simplify_eq|]).
  by apply elem_of_nil in Hin.
Qed.

Lemma C10_augmentation_bounds_witness :
  TokenizerLazy_init false "none" 512 None example_config
    = Ok (example_tokenizer false "none" 512 None)
  ∧ 1 <= velocity_quantization_step example_config <= 127
  ∧ inf_velocity_offset_ok example_tokens
      (velocity_step (example_tokenizer false "none" 512 None) * 5)
  ∧ (∃ out, export_pitch_aug (example_tokenizer false "none" 512 None) 5
                             example_tokens 5 = Ok out)
  ∧ (∃ out, export_velocity_aug (example_tokenizer false "none" 512 None) 5
                                example_tokens 5 = Ok out).
Proof.
  assert (1 <= velocity_quantization_step example_config <= 127) as Hstep
    by (simpl; lia).
  assert (0 <= 5) as Hrange by lia.
  assert (inf_velocity_offset_ok example_tokens
            (velocity_step (example_tokenizer false "none" 512 None) * 5)) as Hinf.
  { intros i p _ _. eexists. vm_compute. reflexivity. }
  split; [exact example_tokenizer_init|]. split; [exact Hstep|]. split; [exact Hinf|].
  destruct (proj2 (proj2 (C10_augmentation_bounds _ _ _ _ _ _ example_tokenizer_init
                            Hstep))
              5 example_tokens 5 Hrange example_tokens_pairs_known)
    as (Hpitch & Hvel & _).
  split; [exact Hpitch | exact (Hvel Hinf)].
Defined.

Example export_pitch_aug_example :
  export_pitch_aug (example_tokenizer false "none" 512 None) 5 example_tokens 5
  = Ok [ TStr "<U>"; TNote "piano" 65 (PInt 10); TNote "bass" 45 (PInt 120);
         TPair "wait" (PInt 50) ].
Proof. vm_compute. reflexivity. Qed.

Example export_velocity_aug_up :
  export_velocity_aug (example_tokenizer false "none" 512 None) 5 example_tokens 5
  = Ok [ TNote "piano" 125 (PInt 110); TNote "piano" 60 (PInt 60);
         TNote "bass" 40 (PInt 120); TPair "wait" (PInt 50) ].
Proof. vm_compute. reflexivity. Qed.

Example export_velocity_aug_down :
  export_velocity_aug (example_tokenizer false "none" 512 None) 5 example_tokens (-5)
  = Ok [ TNote "piano" 125 (PInt 10); TNote "piano" 60 (PInt 10);
         TNote "bass" 40 (PInt 70); TPair "wait" (PInt 50) ].
Proof. vm_compute. reflexivity. Qed.

(** ** The duration calculator *)

(** Where the interval starts at or before the last tempo change the code and
    the specification agree. *)
Example duration_across_change :
  _get_duration_ms 50 300 two_tempos 480 = Ok 469
  ∧ spec_duration_ms 50 300 two_tempos 480 = 469.
Proof. split; vm_compute; reflexivity. Qed.

Example duration_from_change :
  _get_duration_ms 100 300 two_tempos 480 = Ok 417
  ∧ spec_duration_ms 100 300 two_tempos 480 = 417.
Proof. split; vm_compute; reflexivity. Qed.

Example duration_one_tempo :
  _get_duration_ms 120 600 one_tempo 480 = Ok 500
  ∧ spec_duration_ms 120 600 one_tempo 480 = 500.
Proof. split; vm_compute; reflexivity. Qed.

Example duration_no_tempo : _get_duration_ms 0 480 [] 480 = Raise UnboundLocalError.
Proof. reflexivity. Qed.

(** With one tempo message the segment loop has no turn: the duration is the
    one conversion of [end_tick - start_tick] ticks, rounded. *)
Lemma get_duration_ms_one_tempo (start_tick end_tick ticks_per_beat_ : Z)
    (msg : tempo_msg) :
  tempo_tick msg < end_tick →
  _get_duration_ms start_tick end_tick [msg] ticks_per_beat_
  = seconds ← tick2second (end_tick - start_tick) (tempo_data msg) ticks_per_beat_;
    py_round ((0 + seconds) * float_1e3)%float.
Proof.
  intros Hend. unfold _get_duration_ms. cbn [enumerate_until].
  assert ((if bool_decide (start_tick <= tempo_tick msg) then Some 0 else Some 0)
          = Some 0) as -> by (by case_bool_decide).
  rewrite bind_Ok_eq, (bool_decide_eq_false_2 (0 > 0)) by lia.
  change (py_index [msg] 0) with (@Ok tempo_msg msg).
  change (py_slice_from [msg] 0) with [msg].
  change (py_slice_from [msg] (0 + 1)) with (@nil tempo_msg).
  cbn. rewrite (bool_decide_eq_true_2 (end_tick > tempo_tick msg)) by lia.
  by destruct (tick2second _ _ _).
Qed.

(** With two tempo messages and a start after the second, the search for
    [idx] runs through without its [break] and the decrement still applies:
    the ticks from the second message back to the start are charged, as a
    negative span, at the first tempo. *)
Lemma get_duration_ms_after_two (start_tick end_tick ticks_per_beat_ : Z)
    (msg0 msg1 : tempo_msg) :
  tempo_tick msg0 < start_tick → tempo_tick msg1 < start_tick →
  start_tick <= end_tick →
  _get_duration_ms start_tick end_tick [msg0; msg1] ticks_per_beat_
  = before ← tick2second (tempo_tick msg1 - start_tick) (tempo_data msg0)
                         ticks_per_beat_;
    after ← tick2second (end_tick - tempo_tick msg1) (tempo_data msg1) ticks_per_beat_;
    py_round ((0 + before + after) * float_1e3)%float.
Proof.
  intros H0 H1 Hle. unfold _get_duration_ms. cbn [enumerate_until].
  rewrite (bool_decide_eq_false_2 (start_tick <= tempo_tick msg0)) by lia.
  rewrite (bool_decide_eq_false_2 (start_tick <= tempo_tick msg1)) by lia.
  rewrite bind_Ok_eq.
  change (bool_decide (0 + 1 > 0)) with true. cbv iota.
  change (py_index [msg0; msg1] (0 + 1 - 1)) with (@Ok tempo_msg msg0).
  change (py_slice_from [msg0; msg1] (0 + 1 - 1)) with [msg0; msg1].
  change (py_slice_from [msg0; msg1] (0 + 1 - 1 + 1)) with [msg1].
  cbn. rewrite !(bool_decide_eq_false_2 (end_tick < tempo_tick msg1)) by lia.
  destruct (tick2second (tempo_tick msg1 - start_tick) _ _) as [before| |]; [|done..].
  cbn. rewrite (bool_decide_eq_true_2 (end_tick > tempo_tick msg1)) by lia.
  by destruct (tick2second (end_tick - tempo_tick msg1) _ _).
Qed.

(** C1, the code at its failing input: from tick 200 to tick 300, after the
    last tempo change at tick 100, with 500 ticks per beat.  The
    specification gives 100 ticks at the last tempo, 200 ms; the code gives
    300 ms, 100 ticks taken off at the first tempo and 200 ticks added at the
    last. *)
Theorem C1_duration_after_last_tempo_change :
  _get_duration_ms 200 300 two_tempos 500 = Ok 300
  ∧ spec_duration_ms 200 300 two_tempos 500 = 200
  ∧ _get_duration_ms 100 300 two_tempos 500 = Ok 400
  ∧ spec_duration_ms 100 300 two_tempos 500 = 400.
Proof. repeat split; vm_compute; reflexivity. Qed.

(** The conversions between integers and floats: ties go to the even
    neighbour, truncation is towards zero. *)
Example python_float_conversions :
  float_of_int (2 ^ 53 + 1) = float_of_int (2 ^ 53)
  ∧ float_of_int (2 ^ 53 + 3) = float_of_int (2 ^ 53 + 4)
  ∧ float_of_int (2 ^ 1024) = Raise OverflowError
  ∧ py_round 0.5%float = Ok 0 ∧ py_round 1.5%float = Ok 2 ∧ py_round 2.5%float = Ok 2
  ∧ py_round (-2.5)%float = Ok (-2) ∧ py_round (-0.75)%float = Ok (-1)
  ∧ py_int (-2.75)%float = Ok (-2) ∧ py_int 12.5%float = Ok 12
  ∧ velocity_top_index 10 = Ok 12 ∧ velocity_top_index (2 ^ 60) = Ok 0.
Proof. repeat split; vm_compute; reflexivity. Qed.

(** * Further properties *)

(** ** The quantizer on and around its ladder *)

(** A value of the ladder is returned as it is. *)
Lemma find_closest_int_exact (n : Z) (l : list Z) :
  ascending l → n ∈ l → converts n → _find_closest_int n l = Ok (PInt n).
Proof.
  intros Hasc Hn Hconv.
  destruct (find_closest_int_nearest n l) as (c & Hc & _ & Hnear); [|done|done|].
  { intros ->. by apply elem_of_nil in Hn. }
  rewrite Hc. do 2 f_equal. specialize (Hnear n Hn). lia.
Qed.

(** X1: on a non-empty ascending list and a value within the range of the
    floats, [_find_closest_int] returns an element of the list, and
    quantizing that element again returns it: quantizing twice is quantizing
    once.  (An element beyond the range of the floats makes the second search
    raise, like any such value.) *)
Theorem find_closest_int_idempotent (n : Z) (l : list Z) :
  l ≠ [] → ascending l → converts n →
  ∃ c, _find_closest_int n l = Ok (PInt c)
       ∧ c ∈ l
       ∧ (converts c → _find_closest_int c l = Ok (PInt c))
       ∧ (float_of_int c = Raise OverflowError →
          _find_closest_int c l = Raise OverflowError).
Proof.
  intros Hne Hasc Hconv.
  destruct (find_closest_int_nearest n l Hne Hasc Hconv) as (c & Hc & Hin & _).
  exists c. split; [done|]. split; [done|]. split.
  - intros Hc_conv. by apply find_closest_int_exact.
  - intros Hover. by apply find_closest_int_overflow.
Qed.

Lemma find_closest_int_idempotent_witness :
  [0; 10; 20] ≠ [] ∧ ascending [0; 10; 20] ∧ converts 14
  ∧ ∃ c, _find_closest_int 14 [0; 10; 20] = Ok (PInt c)
         ∧ c ∈ [0; 10; 20]
         ∧ (converts c → _find_closest_int c [0; 10; 20] = Ok (PInt c))
         ∧ (float_of_int c = Raise OverflowError →
            _find_closest_int c [0; 10; 20] = Raise OverflowError).
Proof.
  assert ([0; 10; 20] ≠ []) as Hne by done.
  assert (ascending [0; 10; 20]) as Hasc by (repeat constructor; lia).
  assert (converts 14) as Hconv by (eexists; vm_compute; reflexivity).
  split; [exact Hne|]. split; [exact Hasc|]. split; [exact Hconv|].
  exact (find_closest_int_idempotent 14 [0; 10; 20] Hne Hasc Hconv).
Defined.

(** On a ladder of the multiples of a positive step, the nearest value to a
    value within the ladder's range is at most half a step away; a value at
    or beyond an end of the range goes to that end. *)
Lemma nearest_in_range_ladder (step n t q : Z) :
  0 < step → 0 < n →
  nearest_in ((λ i, step * i) <$> py_range n) t q →
  (0 <= t <= step * (n - 1) → 2 * Z.abs (q - t) <= step)
  ∧ (step * (n - 1) <= t → q = step * (n - 1))
  ∧ (t <= 0 → q = 0)
  ∧ 0 <= q <= step * (n - 1)
  ∧ (step | q).
Proof.
  intros Hstep Hn [Hin Hnear].
  apply elem_of_range_ladder in Hin as (j & Hj & ->).
  assert (∀ i, 0 <= i < n → Z.abs (step * j - t) <= Z.abs (step * i - t)) as Hall.
  { intros i Hi. apply Hnear, elem_of_range_ladder. by exists i. }
  split; [|split; [|split; [|split]]].
  - intros Ht.
    pose proof (Z.div_mod t step ltac:(lia)) as Hdm.
    pose proof (Z.mod_pos_bound t step Hstep) as Hmod.
    assert (0 <= t `div` step) as Hq0 by (apply Z.div_pos; lia).
    assert (t `div` step <= n - 1) as Hq1.
    { apply Z.div_le_upper_bound; [lia|]. nia. }
    pose proof (Hall (t `div` step) ltac:(lia)) as Ha.
    destruct (decide (t `div` step = n - 1)) as [Heq|Hne].
    + assert (t `mod` step = 0) by nia. nia.
    + pose proof (Hall (t `div` step + 1) ltac:(lia)) as Hb. nia.
  - intros Ht. pose proof (Hall (n - 1) ltac:(lia)) as Ha.
    assert (step * j <= step * (n - 1)) by nia. lia.
  - intros Ht. pose proof (Hall 0 ltac:(lia)) as Ha.
    assert (0 <= step * j) by nia. lia.
  - nia.
  - by apply Z.divide_factor_l.
Qed.

(** X2: for a time within the range of the floats [_quantize_time] returns a
    multiple of the minimum step from 0 to the maximum; it is within half a
    minimum step of a time from 0 to the maximum, and a time outside goes to
    the nearer end.  For a time beyond the range of the floats it raises
    [OverflowError]. *)
Theorem quantize_time_error (padding_ : bool) (truncate_type_ : string)
    (max_seq_len_ : Z) (stride_len_ : option Z) (config_ : LazyConfig)
    (self : TokenizerLazy) (time : Z) :
  TokenizerLazy_init padding_ truncate_type_ max_seq_len_ stride_len_ config_ = Ok self →
  0 < time_min_step config_ →
  (float_of_int time = Raise OverflowError →
   _quantize_time self time = Raise OverflowError)
  ∧ (converts time →
     ∃ q, _quantize_time self time = Ok (PInt q)
          ∧ q ∈ time_step_quantizations self
          ∧ 0 <= q <= max_time_step self
          ∧ (min_time_step self | q)
          ∧ (0 <= time <= max_time_step self →
             2 * Z.abs (q - time) <= min_time_step self)
          ∧ (max_time_step self <= time → q = max_time_step self)
          ∧ (time <= 0 → q = 0)).
Proof.
  intros Hinit Hmin.
  destruct (time_ladder_facts _ _ _ _ _ _ Hinit Hmin) as (_ & _ & _ & Hq & Hover & _).
  split; [by apply Hover|]. intros Hconv.
  destruct (Hq time Hconv) as (q & Hqt & Hnear).
  apply TokenizerLazy_init_Ok in Hinit
    as (_ & _ & _ & _ & _ & _ & Hms & Hnum & Hladder & Hmax & _).
  exists q. split; [done|]. split; [apply Hnear|].
  rewrite Hladder in Hnear. rewrite Hmax, Hms.
  destruct (nearest_in_range_ladder _ _ _ _ Hmin Hnum Hnear) as (H1 & H2 & H3 & H4 & H5).
  done.
Qed.

Lemma quantize_time_error_witness :
  TokenizerLazy_init false "none" 512 None example_config
    = Ok (example_tokenizer false "none" 512 None)
  ∧ 0 < time_min_step example_config
  ∧ converts 47
  ∧ ∃ q, _quantize_time (example_tokenizer false "none" 512 None) 47 = Ok (PInt q)
         ∧ q ∈ time_step_quantizations (example_tokenizer false "none" 512 None)
         ∧ 0 <= q <= max_time_step (example_tokenizer false "none" 512 None)
         ∧ (min_time_step (example_tokenizer false "none" 512 None) | q)
         ∧ (0 <= 47 <= max_time_step (example_tokenizer false "none" 512 None) →
            2 * Z.abs (q - 47) <= min_time_step (example_tokenizer false "none" 512 None))
         ∧ (max_time_step (example_tokenizer false "none" 512 None) <= 47 →
            q = max_time_step (example_tokenizer false "none" 512 None))
         ∧ (47 <= 0 → q = 0).
Proof.
  assert (0 < time_min_step example_config) as Hmin by done.
  assert (converts 47) as Hconv by (eexists; vm_compute; reflexivity).
  split; [exact example_tokenizer_init|]. split; [exact Hmin|]. split; [exact Hconv|].
  exact (proj2 (quantize_time_error _ _ _ _ _ _ 47 example_tokenizer_init Hmin) Hconv).
Defined.

(** X3: [_quantize_velocity] sends a velocity within the range of the
    floats that is not 0 to a value of the ladder from the velocity step to
    the maximum, never to 0, and sends 0 to 0; a velocity from the step to
    the maximum stays within half a step.  For a velocity beyond the range
    of the floats it raises [OverflowError]. *)
Theorem quantize_velocity_range (padding_ : bool) (truncate_type_ : string)
    (max_seq_len_ : Z) (stride_len_ : option Z) (config_ : LazyConfig)
    (self : TokenizerLazy) (velocity_ : Z) :
  TokenizerLazy_init padding_ truncate_type_ max_seq_len_ stride_len_ config_ = Ok self →
  1 <= velocity_quantization_step config_ <= 127 →
  (float_of_int velocity_ = Raise OverflowError →
   _quantize_velocity self velocity_ = Raise OverflowError)
  ∧ (converts velocity_ →
     ∃ q, _quantize_velocity self velocity_ = Ok (PInt q)
          ∧ q ∈ velocity_quantizations self
          ∧ (velocity_ ≠ 0 → velocity_step self <= q <= max_velocity self ∧ q <= 127)
          ∧ (velocity_ = 0 → q = 0)
          ∧ (velocity_step self <= velocity_ <= max_velocity self →
             2 * Z.abs (q - velocity_) <= velocity_step self)).
Proof.
  intros Hinit Hstep.
  destruct (velocity_bounds _ _ _ _ _ _ Hinit Hstep) as (Hvs & Hmax & Hle).
  pose proof (velocity_ladder_not_empty _ _ _ _ _ _ Hinit) as Hne.
  apply TokenizerLazy_init_Ok in Hinit
    as (_ & _ & _ & _ & _ & _ & _ & _ & _ & _ & _ & k & Hk & Hladder & Hmaxk & _).
  rewrite velocity_ladder_eq in Hladder.
  split.
  { intros Hover. unfold _quantize_velocity.
    by rewrite find_closest_int_overflow. }
  intros Hconv.
  destruct (find_closest_int_nearest velocity_ (velocity_quantizations self))
    as (c & Hc & Hnear); [done | | done |].
  { rewrite Hladder. apply range_ladder_ascending. lia. }
  assert (max_velocity self = velocity_quantization_step config_ * (k + 1 - 1)) as Hmax'
    by (rewrite Hmaxk; lia).
  assert (1 <= k) as Hk1 by nia.
  pose proof Hnear as Hnear'. rewrite Hladder in Hnear'.
  assert (0 < velocity_quantization_step config_) as Hpos by lia.
  assert (0 < k + 1) as Hk' by lia.
  destruct (nearest_in_range_ladder _ _ _ _ Hpos Hk' Hnear')
    as (Hhalf & Htop & Hbot & Hrange & Hdiv).
  assert (velocity_step self ∈ velocity_quantizations self) as Hstep_in.
  { rewrite Hladder, Hvs. apply elem_of_range_ladder. exists 1. split; lia. }
  unfold _quantize_velocity. rewrite Hc, bind_Ok_eq.
  destruct (decide (c = 0)) as [->|Hc0].
  - destruct (decide (velocity_ = 0)) as [->|Hv].
    + rewrite bool_decide_eq_false_2 by (intros ?; done).
      exists 0. split; [done|]. split; [apply Hnear|]. split; [done|]. split; [done|].
      intros ?. lia.
    + rewrite bool_decide_eq_true_2 by done.
      exists (velocity_step self). split; [done|]. split; [done|].
      split; [intros _; lia|]. split; [done|].
      intros Hv'. specialize (Hhalf ltac:(lia)). lia.
  - exists c. split; [by destruct c|]. split; [apply Hnear|].
    destruct Hdiv as [m ->].
    assert (1 <= m) as Hm.
    { destruct (decide (m <= 0)) as [Hm0|]; [|lia].
      assert (m * velocity_quantization_step config_ <= 0) by nia. lia. }
    assert (velocity_quantization_step config_ <= m * velocity_quantization_step config_)
      by nia.
    split; [intros _; lia|]. split.
    + intros ->. specialize (Hbot ltac:(lia)). lia.
    + intros Hv'. specialize (Hhalf ltac:(lia)). lia.
Qed.

Lemma quantize_velocity_range_witness :
  TokenizerLazy_init false "none" 512 None example_config
    = Ok (example_tokenizer false "none" 512 None)
  ∧ 1 <= velocity_quantization_step example_config <= 127
  ∧ converts 127
  ∧ _quantize_velocity (example_tokenizer false "none" 512 None) 127 = Ok (PInt 120)
  ∧ ∃ q, _quantize_velocity (example_tokenizer false "none" 512 None) 127 = Ok (PInt q)
         ∧ q ∈ velocity_quantizations (example_tokenizer false "none" 512 None)
         ∧ (127 ≠ 0 →
            velocity_step (example_tokenizer false "none" 512 None) <= q
            <= max_velocity (example_tokenizer false "none" 512 None) ∧ q <= 127)
         ∧ (127 = 0 → q = 0)
         ∧ (velocity_step (example_tokenizer false "none" 512 None) <= 127
            <= max_velocity (example_tokenizer false "none" 512 None) →
            2 * Z.abs (q - 127) <= velocity_step (example_tokenizer false "none" 512 None)).
Proof.
  assert (1 <= velocity_quantization_step example_config <= 127) as Hstep
    by (simpl; lia).
  assert (converts 127) as Hconv by (eexists; vm_compute; reflexivity).
  split; [exact example_tokenizer_init|]. split; [exact Hstep|]. split; [exact Hconv|].
  split; [vm_compute; reflexivity|].
  exact (proj2 (quantize_velocity_range _ _ _ _ _ _ 127 example_tokenizer_init Hstep)
           Hconv).
Defined.

(** ** The instrument of a channel *)

Lemma channel_to_instrument_of_snoc (msgs : list instrument_msg) (msg : instrument_msg) :
  channel_to_instrument_of (msgs ++ [msg])
  = d ← channel_to_instrument_of msgs;
    if is_drum_channel (instr_channel msg) then Ok d
    else name ← dict_get program_to_instrument (instr_data msg);
         Ok (<[instr_channel msg := name]> d).
Proof. unfold channel_to_instrument_of. by rewrite foldl_app. Qed.

(** The dict comprehension keeps, for each channel outside the drum
    channels, the instrument of the channel's last declaration. *)
Lemma channel_to_instrument_of_lookup (msgs : list instrument_msg) (d : gmap Z string) :
  channel_to_instrument_of msgs = Ok d →
  ∀ channel,
    d !! channel
    = if is_drum_channel channel then None
      else msg ← last (declarations_on channel msgs);
           program_to_instrument !! instr_data msg.
Proof.
  revert d. induction msgs as [|msg msgs IH] using rev_ind; intros d H channel.
  - injection H as <-. rewrite lookup_empty. by destruct (is_drum_channel channel).
  - rewrite channel_to_instrument_of_snoc in H. inv_bind H as d0 Hd0.
    specialize (IH d0 Hd0 channel). unfold declarations_on in *.
    rewrite filter_app, filter_cons, filter_nil.
    destruct (is_drum_channel (instr_channel msg)) eqn:Hdrum.
    + injection H as <-. rewrite IH.
      destruct (is_drum_channel channel) eqn:Hch; [done|].
      case_decide as Heq; [congruence|]. by rewrite app_nil_r.
    + inv_bind H as name Hname. injection H as <-.
      unfold dict_get in Hname.
      destruct (program_to_instrument !! instr_data msg) as [name'|] eqn:Hp; [|done].
      injection Hname as ->.
      case_decide as Heq.
      * subst channel. rewrite Hdrum, lookup_insert_eq, last_snoc. simpl. by rewrite Hp.
      * rewrite lookup_insert_ne by done. by rewrite app_nil_r.
Qed.

(** X4: a note outside the drum channels carries the instrument of the last
    declaration of its channel, the declaration's tick and the note's start
    playing no part; without a declaration encoding the note raises
    [KeyError]. *)
Theorem note_instrument_last_declaration (self : TokenizerLazy)
    (msgs : list instrument_msg) (channel_to_instrument : gmap Z string)
    (channel_to_pedal_intervals : gmap Z (list (Z * Z)))
    (tempo_msgs_ : list tempo_msg) (ticks_per_beat_ : Z) (msg : note_msg) :
  channel_to_instrument_of msgs = Ok channel_to_instrument →
  is_drum_channel (note_channel msg) = false →
  (declarations_on (note_channel msg) msgs = [] →
   note_tokens self channel_to_instrument channel_to_pedal_intervals tempo_msgs_
               ticks_per_beat_ msg = Raise KeyError)
  ∧ (∀ toks,
       note_tokens self channel_to_instrument channel_to_pedal_intervals tempo_msgs_
                   ticks_per_beat_ msg = Ok toks →
       ∃ declaration name v d,
         last (declarations_on (note_channel msg) msgs) = Some declaration
         ∧ program_to_instrument !! instr_data declaration = Some name
         ∧ toks = [TNote name (pitch msg) v; TPair "dur" d]).
Proof.
  intros Hc2i Hdrum.
  pose proof (channel_to_instrument_of_lookup _ _ Hc2i (note_channel msg)) as Hlook.
  rewrite Hdrum in Hlook. unfold note_tokens. rewrite Hdrum. split.
  - intros Hnone. rewrite Hnone in Hlook. simpl in Hlook.
    unfold dict_get. by rewrite Hlook.
  - intros toks H. inv_bind H as name Hname. inv_bind H as dur Hdur.
    inv_bind H as v Hv. inv_bind H as q Hq.
    injection H as <-. unfold dict_get in Hname.
    destruct (channel_to_instrument !! note_channel msg) as [name'|] eqn:Hget; [|done].
    injection Hname as ->.
    destruct (last (declarations_on (note_channel msg) msgs)) as [declaration|];
      [|done].
    simpl in Hlook. exists declaration, name. eauto.
Qed.

Lemma note_instrument_last_declaration_witness :
  channel_to_instrument_of
    [ {| instr_tick := 0; instr_channel := 0; instr_data := 0 |};
      {| instr_tick := 900; instr_channel := 0; instr_data := 32 |} ]
    = Ok {[ 0 := "bass" ]}
  ∧ is_drum_channel 0 = false
  ∧ note_tokens (example_tokenizer false "none" 512 None) {[ 0 := "bass" ]} ∅
      [ {| tempo_tick := 0; tempo_data := 500000 |} ] 480
      {| note_channel := 0; pitch := 60; start := 0; end_ := 48; velocity := 64 |}
    = Ok [TNote "bass" 60 (PInt 60); TPair "dur" (PInt 50)]
  ∧ ∃ declaration name v d,
      last (declarations_on 0
              [ {| instr_tick := 0; instr_channel := 0; instr_data := 0 |};
                {| instr_tick := 900; instr_channel := 0; instr_data := 32 |} ])
        = Some declaration
      ∧ program_to_instrument !! instr_data declaration = Some name
      ∧ [TNote "bass" 60 (PInt 60); TPair "dur" (PInt 50)]
        = [TNote name 60 v; TPair "dur" d].
Proof.
  assert (channel_to_instrument_of
            [ {| instr_tick := 0; instr_channel := 0; instr_data := 0 |};
              {| instr_tick := 900; instr_channel := 0; instr_data := 32 |} ]
          = Ok {[ 0 := "bass" ]}) as Hc2i by (vm_compute; reflexivity).
  assert (is_drum_channel 0 = false) as Hdrum by reflexivity.
  assert (note_tokens (example_tokenizer false "none" 512 None) {[ 0 := "bass" ]} ∅
            [ {| tempo_tick := 0; tempo_data := 500000 |} ] 480
            {| note_channel := 0; pitch := 60; start := 0; end_ := 48; velocity := 64 |}
          = Ok [TNote "bass" 60 (PInt 60); TPair "dur" (PInt 50)]) as Htoks
    by (vm_compute; reflexivity).
  split; [exact Hc2i|]. split; [exact Hdrum|]. split; [exact Htoks|].
  exact (proj2 (note_instrument_last_declaration
                  (example_tokenizer false "none" 512 None) _ _ ∅
                  [ {| tempo_tick := 0; tempo_data := 500000 |} ] 480
                  {| note_channel := 0; pitch := 60; start := 0; end_ := 48;
                     velocity := 64 |}
                  Hc2i Hdrum) _ Htoks).
Defined.

(** ** The tokens of the encoder *)

Lemma ladder_nonzero_ge (step n q : Z) :
  0 < step → q ∈ (λ i, step * i) <$> py_range n → q ≠ 0 → step <= q.
Proof.
  intros Hstep Hq Hne. apply elem_of_range_ladder in Hq as (i & Hi & ->).
  assert (1 <= i) by (destruct (decide (i = 0)) as [->|]; [lia|lia]). nia.
Qed.

(** The time ladder of a tokenizer with at least two steps: its minimum step
    is a value of it, and every value but 0 lies from the minimum step to
    the maximum. *)
Lemma time_ladder_bounds (padding_ : bool) (truncate_type_ : string)
    (max_seq_len_ : Z) (stride_len_ : option Z) (config_ : LazyConfig)
    (self : TokenizerLazy) :
  TokenizerLazy_init padding_ truncate_type_ max_seq_len_ stride_len_ config_ = Ok self →
  0 < time_min_step config_ → 2 <= time_num_steps config_ →
  min_time_step self ∈ time_step_quantizations self
  ∧ 0 < min_time_step self <= max_time_step self
  ∧ ∀ q, q ∈ time_step_quantizations self → q ≠ 0 →
         min_time_step self <= q <= max_time_step self.
Proof.
  intros Hinit Hmin Hnum.
  destruct (time_ladder_facts _ _ _ _ _ _ Hinit Hmin) as (Hmax & _ & Hle & _).
  apply TokenizerLazy_init_Ok in Hinit
    as (_ & _ & _ & _ & _ & _ & Hms & _ & Hladder & _).
  rewrite Hms, Hladder in *. split; [|split].
  - apply elem_of_range_ladder. exists 1. lia.
  - rewrite Hmax. nia.
  - intros q Hq Hne. split; [by eapply ladder_nonzero_ge | by apply Hle].
Qed.

Lemma wait_tokens_emitted_ok (padding_ : bool) (truncate_type_ : string)
    (max_seq_len_ : Z) (stride_len_ : option Z) (config_ : LazyConfig)
    (self : TokenizerLazy) (w : Z) (toks : list token) :
  TokenizerLazy_init padding_ truncate_type_ max_seq_len_ stride_len_ config_ = Ok self →
  0 < time_min_step config_ → 2 <= time_num_steps config_ →
  wait_tokens self w = Ok toks → Forall (emitted_ok self) toks.
Proof.
  intros Hinit Hmin Hnum Htoks.
  destruct (time_ladder_facts _ _ _ _ _ _ Hinit Hmin) as (_ & Hin & _ & _).
  destruct (time_ladder_bounds _ _ _ _ _ _ Hinit Hmin Hnum) as (_ & Hpos & Hbounds).
  destruct (wait_tokens_spec _ _ _ _ _ _ w Hinit Hmin Hnum)
    as (k & r & _ & _ & _ & Hover & Hconv).
  destruct (float_of_int_cases r) as [Hr|Hr]; [|by rewrite (Hover Hr) in Htoks].
  destruct (Hconv Hr) as (q & Heq & _ & Hqin & _).
  rewrite Heq in Htoks. injection Htoks as <-.
  apply Forall_app. split.
  - apply Forall_replicate. exists (max_time_step self). split; [done|]. right.
    split; [by left|]. split; [done|lia].
  - case_decide as Hq; [done|]. repeat constructor. exists q. split; [done|]. right.
    split; [by left|]. split; [done|]. by apply Hbounds.
Qed.

Lemma quantize_velocity_member (padding_ : bool) (truncate_type_ : string)
    (max_seq_len_ : Z) (stride_len_ : option Z) (config_ : LazyConfig)
    (self : TokenizerLazy) (velocity_ : Z) :
  TokenizerLazy_init padding_ truncate_type_ max_seq_len_ stride_len_ config_ = Ok self →
  1 <= velocity_quantization_step config_ <= 127 →
  (float_of_int velocity_ = Raise OverflowError →
   _quantize_velocity self velocity_ = Raise OverflowError)
  ∧ (converts velocity_ →
     ∃ q, _quantize_velocity self velocity_ = Ok (PInt q)
          ∧ q ∈ velocity_quantizations self).
Proof.
  intros Hinit Hstep.
  destruct (velocity_bounds _ _ _ _ _ _ Hinit Hstep) as (Hvs & Hmax & Hle).
  pose proof (velocity_ladder_not_empty _ _ _ _ _ _ Hinit) as Hne.
  apply TokenizerLazy_init_Ok in Hinit
    as (_ & _ & _ & _ & _ & _ & _ & _ & _ & _ & _ & k & Hk & Hladder & Hmaxk & _).
  rewrite velocity_ladder_eq in Hladder.
  split.
  - intros Hover. unfold _quantize_velocity.
    by rewrite (find_closest_int_overflow _ _ Hne Hover).
  - intros Hconv.
    destruct (find_closest_int_nearest velocity_ (velocity_quantizations self))
      as (c & Hc & Hin & _); [done| |done|].
    { rewrite Hladder. apply range_ladder_ascending. lia. }
    assert (velocity_step self ∈ velocity_quantizations self) as Hstep_in.
    { rewrite Hladder, Hvs. apply elem_of_range_ladder. exists 1.
      split; [|lia]. assert (1 <= k) by nia. lia. }
    unfold _quantize_velocity. rewrite Hc, bind_Ok_eq.
    destruct c as [|c|c]; [|by eauto..].
    case_bool_decide; eauto.
Qed.

Lemma channel_to_instrument_family (msgs : list instrument_msg) (d : gmap Z string)
    (channel : Z) (name : string) :
  channel_to_instrument_of msgs = Ok d → d !! channel = Some name → family_name name.
Proof.
  intros Hd Hname. rewrite (channel_to_instrument_of_lookup _ _ Hd) in Hname.
  destruct (is_drum_channel channel); [done|].
  destruct (last (declarations_on channel msgs)) as [msg|]; [|done].
  by exists (instr_data msg).
Qed.

Lemma note_tokens_emitted_ok (padding_ : bool) (truncate_type_ : string)
    (max_seq_len_ : Z) (stride_len_ : option Z) (config_ : LazyConfig)
    (self : TokenizerLazy) (msgs : list instrument_msg)
    (channel_to_instrument : gmap Z string)
    (channel_to_pedal_intervals : gmap Z (list (Z * Z)))
    (tempo_msgs_ : list tempo_msg) (ticks_per_beat_ : Z) (msg : note_msg)
    (toks : list token) :
  TokenizerLazy_init padding_ truncate_type_ max_seq_len_ stride_len_ config_ = Ok self →
  0 < time_min_step config_ → 2 <= time_num_steps config_ →
  1 <= velocity_quantization_step config_ <= 127 →
  channel_to_instrument_of msgs = Ok channel_to_instrument →
  note_tokens self channel_to_instrument channel_to_pedal_intervals tempo_msgs_
              ticks_per_beat_ msg = Ok toks →
  Forall (emitted_ok self) toks.
Proof.
  intros Hinit Hmin Hnum Hstep Hc2i H. unfold note_tokens in H.
  destruct (is_drum_channel _).
  - injection H as <-. repeat constructor. exists (pitch msg). split; [done|by left].
  - inv_bind H as inst Hinst. inv_bind H as d Hd.
    inv_bind H as qv Hqv. inv_bind H as qd Hqd. injection H as <-.
    destruct (time_ladder_facts _ _ _ _ _ _ Hinit Hmin) as (_ & _ & _ & _ & _ & Hq).
    destruct (time_ladder_bounds _ _ _ _ _ _ Hinit Hmin Hnum) as (Hmin_in & Hpos & Hbounds).
    destruct (Hq d qd Hqd) as (_ & q & -> & Hqin & _).
    destruct (quantize_velocity_member _ _ _ _ _ _ (velocity msg) Hinit Hstep)
      as (Hvover & Hvconv).
    destruct (float_of_int_cases (velocity msg)) as [Hvel|Hvel];
      [|by rewrite (Hvover Hvel) in Hqv].
    destruct (Hvconv Hvel) as (v & Hveq & Hv).
    rewrite Hveq in Hqv. injection Hqv as <-.
    repeat constructor.
    + unfold dict_get in Hinst.
      destruct (channel_to_instrument !! note_channel msg) as [name|] eqn:Hget; [|done].
      injection Hinst as ->. by eapply channel_to_instrument_family.
    + by exists v.
    + destruct (decide (q = 0)) as [->|Hne].
      * exists (min_time_step self). split; [done|]. right.
        split; [by right|]. split; [done|lia].
      * exists q. split; [by destruct q|]. right.
        split; [by right|]. split; [done|]. by apply Hbounds.
Qed.

Lemma tokenize_notes_emitted_ok (padding_ : bool) (truncate_type_ : string)
    (max_seq_len_ : Z) (stride_len_ : option Z) (config_ : LazyConfig)
    (self : TokenizerLazy) (declarations : list instrument_msg)
    (channel_to_instrument : gmap Z string)
    (channel_to_pedal_intervals : gmap Z (list (Z * Z)))
    (tempo_msgs_ : list tempo_msg) (ticks_per_beat_ : Z) (msgs : list note_msg) :
  TokenizerLazy_init padding_ truncate_type_ max_seq_len_ stride_len_ config_ = Ok self →
  0 < time_min_step config_ → 2 <= time_num_steps config_ →
  1 <= velocity_quantization_step config_ <= 127 →
  channel_to_instrument_of declarations = Ok channel_to_instrument →
  ∀ toks,
    tokenize_notes self channel_to_instrument channel_to_pedal_intervals tempo_msgs_
                   ticks_per_beat_ msgs = Ok toks →
    Forall (emitted_ok self) toks.
Proof.
  intros Hinit Hmin Hnum Hstep Hc2i.
  induction msgs as [|msg rest IH]; intros toks H; simpl in H.
  - by injection H as <-.
  - inv_bind H as ntoks Hn. inv_bind H as waits Hw. inv_bind H as others Ho.
    injection H as <-. rewrite !Forall_app. split; [|split].
    + by eapply note_tokens_emitted_ok.
    + destruct rest as [|next_msg ?].
      * by injection Hw as <-.
      * inv_bind Hw as gap Hgap. by eapply wait_tokens_emitted_ok.
    + by apply IH.
Qed.

(** X5: every token of every window the encoder returns is a string, a drum
    pitch, a wait or a duration whose value is a value of the time ladder
    from the minimum step to the maximum (never 0), or a note of an
    instrument named by [program_to_instrument] whose velocity is a value of
    the velocity ladder. *)
Theorem tokenize_midi_dict_tokens (list_of_set : list string → list string)
    (padding_ : bool) (truncate_type_ : string)
    (max_seq_len_ : Z) (stride_len_ : option Z) (config_ : LazyConfig)
    (self : TokenizerLazy) (midi_dict : MidiDict) (res : list (list token)) :
  TokenizerLazy_init padding_ truncate_type_ max_seq_len_ stride_len_ config_ = Ok self →
  0 < time_min_step config_ → 2 <= time_num_steps config_ →
  1 <= velocity_quantization_step config_ <= 127 →
  tokenize_midi_dict list_of_set self midi_dict = Ok res →
  ∀ window tok, window ∈ res → tok ∈ window → emitted_ok self tok.
Proof.
  intros Hinit Hmin Hnum Hstep H window tok Hwindow Htok.
  unfold tokenize_midi_dict in H.
  inv_bind H as md Hmd. inv_bind H as c2p Hc2p. inv_bind H as c2i Hc2i.
  inv_bind H as present Hpresent. inv_bind H as seq Hseq.
  assert (Forall (Forall (emitted_ok self)) res) as Hall.
  { eapply (windows_ok (emitted_ok self)); [| | |exact H].
    - intros s. exact I.
    - apply Forall_fmap, Forall_forall. intros s _. exact I.
    - by eapply tokenize_notes_emitted_ok. }
  rewrite Forall_forall in Hall. specialize (Hall window Hwindow).
  rewrite Forall_forall in Hall. by apply Hall.
Qed.

Lemma tokenize_midi_dict_tokens_witness :
  TokenizerLazy_init false "none" 512 None example_config
    = Ok (example_tokenizer false "none" 512 None)
  ∧ 0 < time_min_step example_config
  ∧ 2 <= time_num_steps example_config
  ∧ 1 <= velocity_quantization_step example_config <= 127
  ∧ tokenize_midi_dict remove_dups (example_tokenizer false "none" 512 None)
      piano_and_drum
    = Ok [[TStr "piano"; TStr "drums"; TStr "<S>";
           TNote "piano" 60 (PInt 60); TPair "dur" (PInt 100);
           TPair "wait" (PInt 100); TPair "wait" (PInt 100);
           TPair "wait" (PInt 100); TPair "wait" (PInt 100);
           TPair "wait" (PInt 100); TPair "drum" (PInt 36); TStr "<E>"]]
  ∧ emitted_ok (example_tokenizer false "none" 512 None) (TPair "dur" (PInt 100)).
Proof.
  assert (0 < time_min_step example_config) as Hmin by done.
  assert (2 <= time_num_steps example_config) as Hnum by done.
  assert (1 <= velocity_quantization_step example_config <= 127) as Hstep
    by (simpl; lia).
  assert (tokenize_midi_dict remove_dups (example_tokenizer false "none" 512 None)
            piano_and_drum
          = Ok [[TStr "piano"; TStr "drums"; TStr "<S>";
                 TNote "piano" 60 (PInt 60); TPair "dur" (PInt 100);
                 TPair "wait" (PInt 100); TPair "wait" (PInt 100);
                 TPair "wait" (PInt 100); TPair "wait" (PInt 100);
                 TPair "wait" (PInt 100); TPair "drum" (PInt 36); TStr "<E>"]]) as Hres
    by (vm_compute; reflexivity).
  split; [exact example_tokenizer_init|]. split; [exact Hmin|]. split; [exact Hnum|].
  split; [exact Hstep|]. split; [exact Hres|].
  refine (tokenize_midi_dict_tokens remove_dups _ _ _ _ _ _ _ _
            example_tokenizer_init Hmin Hnum Hstep Hres _ _ _ _).
  - apply list_elem_of_here.
  - do 4 apply list_elem_of_further. apply list_elem_of_here.
Defined.

(** ** [_remove_instruments] *)

Lemma programs_to_remove_spec (flags : gmap string bool) (l programs : list Z) :
  foldr (λ i rest,
           name ← dict_get program_to_instrument i;
           flag ← dict_get flags name;
           tl ← rest;
           Ok (if flag : bool then i :: tl else tl))
        (Ok []) l = Ok programs →
  ∀ i, i ∈ programs
       ↔ i ∈ l ∧ ∃ name, program_to_instrument !! i = Some name
                         ∧ flags !! name = Some true.
Proof.
  revert programs. induction l as [|j l IH]; intros programs H i; cbn [foldr] in H.
  - injection H as <-. split; [by intros ?%elem_of_nil | by intros [?%elem_of_nil _]].
  - inv_bind H as name Hname. inv_bind H as flag Hflag. inv_bind H as tl Htl.
    injection H as <-. specialize (IH tl Htl i).
    unfold dict_get in Hname, Hflag.
    destruct (program_to_instrument !! j) as [name'|] eqn:Hj; [|discriminate].
    injection Hname as ->.
    destruct (flags !! name) as [flag'|] eqn:Hn; [|discriminate].
    injection Hflag as ->.
    rewrite elem_of_cons. destruct flag.
    + rewrite elem_of_cons, IH. split.
      * intros [->|[? ?]]; [|by auto]. split; [by left|]. by exists name.
      * intros [[->|?] ?]; [by left | by right].
    + rewrite IH. split.
      * intros [? ?]. by auto.
      * intros [[->|?] Hi]; [|done]. destruct Hi as (name' & Hname' & Htrue).
        rewrite Hj in Hname'. injection Hname' as <-. rewrite Hn in Htrue. discriminate.
Qed.

Lemma channels_to_remove_spec (config_ : LazyConfig) (programs : list Z)
    (msgs : list instrument_msg) (channel : Z) :
  (∀ i, i ∈ programs ↔ ignored_program config_ i) →
  channel ∈ filter (λ i, is_drum_channel i = false)
             (instr_channel <$> filter (λ msg, instr_data msg ∈ programs) msgs)
  ↔ removed_channel config_ msgs channel.
Proof.
  intros Hprograms. rewrite list_elem_of_filter, list_elem_of_fmap.
  unfold removed_channel. split.
  - intros [Hdrum (msg & -> & Hmsg)]. apply list_elem_of_filter in Hmsg as [Hdata Hin].
    split; [done|]. exists msg. split; [done|]. split; [done|]. by apply Hprograms.
  - intros [Hdrum (msg & Hin & <- & Hdata)]. split; [done|]. exists msg.
    split; [done|]. apply list_elem_of_filter. split; [|done]. by apply Hprograms.
Qed.

(** What [_remove_instruments] computes from a complete configuration. *)
Lemma remove_instruments_eq (self : TokenizerLazy) (midi_dict : MidiDict) :
  config_complete (config self) →
  ∃ channels_to_remove : list Z,
    (∀ channel, channel ∈ channels_to_remove
                ↔ removed_channel (config self) (instrument_msgs midi_dict) channel)
    ∧ _remove_instruments self midi_dict
      = Ok {| meta_msgs :=
                filter (λ msg, default (-1) (meta_channel msg) ∉ channels_to_remove)
                       (meta_msgs midi_dict);
              tempo_msgs :=
                filter (λ _ : tempo_msg, -1 ∉ channels_to_remove) (tempo_msgs midi_dict);
              pedal_msgs :=
                filter (λ msg, pedal_channel msg ∉ channels_to_remove)
                       (pedal_msgs midi_dict);
              instrument_msgs :=
                filter (λ msg, instr_channel msg ∉ channels_to_remove)
                       (instrument_msgs midi_dict);
              note_msgs :=
                filter (λ msg, note_channel msg ∉ channels_to_remove)
                       (note_msgs midi_dict);
              ticks_per_beat := ticks_per_beat midi_dict |}.
Proof.
  intros Hcfg. unfold _remove_instruments.
  assert (∀ l : list Z, Forall (λ i, 0 <= i <= 127) l →
            ∃ programs,
              foldr (λ i rest,
                       name ← dict_get program_to_instrument i;
                       flag ← dict_get (ignore_instruments (config self)) name;
                       tl ← rest;
                       Ok (if flag : bool then i :: tl else tl))
                    (Ok []) l = Ok programs) as Hprograms.
  { induction l as [|i l IH]; intros Hl; cbn [foldr].
    - by eexists.
    - apply Forall_cons in Hl as [Hi Hl]. destruct (IH Hl) as [tl ->].
      destruct (program_to_instrument_total i Hi) as (family & Hin & Hname).
      rewrite (dict_get_Some _ _ _ Hname), bind_Ok_eq.
      unfold config_complete in Hcfg. rewrite Forall_forall in Hcfg.
      destruct (Hcfg family Hin) as [flag Hflag].
      rewrite (dict_get_Some _ _ _ Hflag), !bind_Ok_eq. by eexists. }
  destruct (Hprograms (seqZ 1 127)) as [programs Heq].
  { apply Forall_forall. intros i Hi%elem_of_seqZ. lia. }
  rewrite Heq, bind_Ok_eq. eexists. split; [|reflexivity].
  intros channel. apply channels_to_remove_spec. intros i.
  rewrite (programs_to_remove_spec _ _ _ Heq i), elem_of_seqZ.
  unfold ignored_program. split; intros [? ?]; (split; [lia|done]).
Qed.

(** X6: with a configuration that has a flag for every instrument family,
    [_remove_instruments] keeps exactly the messages whose channel is a drum
    channel or has no declaration of a flagged program from 1 to 127, each
    list in its order. *)
Theorem remove_instruments_channels (self : TokenizerLazy) (midi_dict : MidiDict) :
  config_complete (config self) →
  ∃ filtered,
    _remove_instruments self midi_dict = Ok filtered
    ∧ (∀ msg, msg ∈ note_msgs filtered
              ↔ msg ∈ note_msgs midi_dict
                ∧ ¬ removed_channel (config self) (instrument_msgs midi_dict)
                                    (note_channel msg))
    ∧ (∀ msg, msg ∈ instrument_msgs filtered
              ↔ msg ∈ instrument_msgs midi_dict
                ∧ ¬ removed_channel (config self) (instrument_msgs midi_dict)
                                    (instr_channel msg))
    ∧ (∀ msg, msg ∈ pedal_msgs filtered
              ↔ msg ∈ pedal_msgs midi_dict
                ∧ ¬ removed_channel (config self) (instrument_msgs midi_dict)
                                    (pedal_channel msg))
    ∧ sublist (note_msgs filtered) (note_msgs midi_dict)
    ∧ sublist (instrument_msgs filtered) (instrument_msgs midi_dict)
    ∧ sublist (pedal_msgs filtered) (pedal_msgs midi_dict)
    ∧ ticks_per_beat filtered = ticks_per_beat midi_dict.
Proof.
  intros Hcfg. destruct (remove_instruments_eq self midi_dict Hcfg) as (chans & Hch & Heq).
  eexists. split; [exact Heq|].
  cbn [note_msgs instrument_msgs pedal_msgs ticks_per_beat].
  split; [|split; [|split]].
  - intros msg. by rewrite list_elem_of_filter, Hch, (comm and).
  - intros msg. by rewrite list_elem_of_filter, Hch, (comm and).
  - intros msg. by rewrite list_elem_of_filter, Hch, (comm and).
  - repeat split; apply sublist_filter.
Qed.

Lemma ignoring_tokenizer_init :
  TokenizerLazy_init false "none" 512 None ignore_all = Ok ignoring_tokenizer.
Proof. vm_compute. reflexivity. Qed.

Lemma ignore_all_complete : config_complete (config ignoring_tokenizer).
Proof. unfold config_complete. apply (bool_decide_unpack _). vm_compute. exact I. Qed.

Lemma remove_instruments_channels_witness :
  config_complete (config ignoring_tokenizer)
  ∧ _remove_instruments ignoring_tokenizer two_pianos
    = Ok {| meta_msgs := [];
            tempo_msgs := [ {| tempo_tick := 0; tempo_data := 500000 |} ];
            pedal_msgs := [];
            instrument_msgs :=
              [ {| instr_tick := 0; instr_channel := 0; instr_data := 0 |} ];
            note_msgs := [ {| note_channel := 0; pitch := 60; start := 0; end_ := 48;
                              velocity := 64 |} ];
            ticks_per_beat := 480 |}
  ∧ ∃ filtered,
      _remove_instruments ignoring_tokenizer two_pianos = Ok filtered
      ∧ sublist (note_msgs filtered) (note_msgs two_pianos).
Proof.
  split; [exact ignore_all_complete|]. split; [vm_compute; reflexivity|].
  destruct (remove_instruments_channels ignoring_tokenizer two_pianos ignore_all_complete)
    as (filtered & Heq & _ & _ & _ & Hsub & _).
  exists filtered. split; [exact Heq | exact Hsub].
Defined.

Lemma filter_all {A} (P : A → Prop) `{!∀ x, Decision (P x)} (l : list A) :
  (∀ x, x ∈ l → P x) → filter P l = l.
Proof.
  induction l as [|x l IH]; intros Hall; [done|].
  rewrite filter_cons_True by (apply Hall; by left).
  f_equal. apply IH. intros y Hy. apply Hall. by right.
Qed.

(** X7: the programs looked at are [range(1, 127 + 1)]: a stream all of whose
    declarations are of program 0 is returned as it is, whatever the
    configuration flags, the piano included. *)
Theorem remove_instruments_program_zero (self : TokenizerLazy) (midi_dict : MidiDict) :
  config_complete (config self) →
  (∀ msg, msg ∈ instrument_msgs midi_dict → instr_data msg = 0) →
  _remove_instruments self midi_dict = Ok midi_dict.
Proof.
  intros Hcfg Hzero.
  destruct (remove_instruments_eq self midi_dict Hcfg) as (chans & Hch & ->).
  assert (∀ channel, channel ∉ chans) as Hnone.
  { intros channel [_ (msg & Hin & _ & [Hrange _])]%Hch.
    rewrite (Hzero msg Hin) in Hrange. lia. }
  destruct midi_dict as [metas tempos pedals instruments notes tpb].
  cbn [meta_msgs tempo_msgs pedal_msgs instrument_msgs note_msgs ticks_per_beat].
  rewrite !filter_all; [done|intros; apply Hnone..].
Qed.

Lemma remove_instruments_program_zero_witness :
  config_complete (config ignoring_tokenizer)
  ∧ (∀ msg, msg ∈ instrument_msgs no_notes → instr_data msg = 0)
  ∧ _remove_instruments ignoring_tokenizer no_notes = Ok no_notes.
Proof.
  pose proof ignore_all_complete as Hcfg.
  assert (∀ msg, msg ∈ instrument_msgs no_notes → instr_data msg = 0) as Hzero.
  { intros msg Hmsg. apply list_elem_of_singleton in Hmsg. by subst msg. }
  split; [exact Hcfg|]. split; [exact Hzero|].
  exact (remove_instruments_program_zero ignoring_tokenizer no_notes Hcfg Hzero).
Defined.

(** ** The shape of the token sequence *)

Lemma wait_loop_is_wait (fuel : nat) (max_ : Z) :
  ∀ w appended r out,
    Forall is_wait appended →
    wait_loop fuel max_ w appended = Some (r, out) → Forall is_wait out.
Proof.
  induction fuel as [|fuel IH]; intros w appended r out Happ H; [done|].
  simpl in H. case_bool_decide.
  - eapply IH; [|exact H]. apply Forall_app. split; [done|].
    repeat constructor. by eexists.
  - by simplify_eq.
Qed.

Lemma wait_tokens_is_wait (self : TokenizerLazy) (w : Z) (toks : list token) :
  wait_tokens self w = Ok toks → Forall is_wait toks.
Proof.
  unfold wait_tokens. intros H.
  destruct (wait_loop _ _ _ _) as [[r appended]|] eqn:Hloop; [|done].
  apply wait_loop_is_wait in Hloop; [|constructor].
  inv_bind H as _wait_duration Hq.
  assert (Forall is_wait (appended ++ [TPair "wait" _wait_duration])) as Hall.
  { apply Forall_app. split; [done|]. repeat constructor. by eexists. }
  destruct _wait_duration as [[| |]|]; by simplify_eq.
Qed.

Lemma tokenize_notes_groups (self : TokenizerLazy) (channel_to_instrument : gmap Z string)
    (channel_to_pedal_intervals : gmap Z (list (Z * Z)))
    (tempo_msgs_ : list tempo_msg) (ticks_per_beat_ : Z) (msgs : list note_msg) :
  ∀ toks,
    tokenize_notes self channel_to_instrument channel_to_pedal_intervals tempo_msgs_
                   ticks_per_beat_ msgs = Ok toks →
    ∃ groups,
      toks = concat groups
      ∧ Forall2 note_group msgs groups
      ∧ ∀ group, last groups = Some group → Forall (λ tok, ¬ is_wait tok) group.
Proof.
  induction msgs as [|msg rest IH]; intros toks H; simpl in H.
  - injection H as <-. exists []. split; [done|]. split; [constructor|]. by intros ? [=].
  - inv_bind H as ntoks Hn. inv_bind H as waits Hw. inv_bind H as others Ho.
    injection H as <-. destruct (IH others Ho) as (groups & -> & Hgroups & Hlast).
    exists ((ntoks ++ waits) :: groups).
    assert (Forall is_wait waits) as Hwaits.
    { destruct rest as [|next_msg ?].
      - by injection Hw as <-.
      - inv_bind Hw as gap Hgap. by eapply wait_tokens_is_wait. }
    assert ((if is_drum_channel (note_channel msg)
             then ntoks = [TPair "drum" (PInt (pitch msg))]
             else ∃ name v d, ntoks = [TNote name (pitch msg) v; TPair "dur" d])) as Hhead.
    { unfold note_tokens in Hn. destruct (is_drum_channel (note_channel msg)).
      - by injection Hn as <-.
      - inv_bind Hn as name Hname. inv_bind Hn as dur Hdur. inv_bind Hn as v Hv.
        inv_bind Hn as q Hq. injection Hn as <-. eauto. }
    split; [by rewrite concat_cons, <- app_assoc|]. split.
    + constructor; [|done]. exists waits. split; [done|].
      destruct (is_drum_channel (note_channel msg)).
      * by rewrite Hhead.
      * destruct Hhead as (name & v & d & ->). by exists name, v, d.
    + intros group Hgroup. destruct rest as [|next_msg rest].
      * apply Forall2_nil_inv_l in Hgroups as ->. injection Hw as <-.
        injection Hgroup as <-. rewrite app_nil_r.
        destruct (is_drum_channel (note_channel msg)).
        -- rewrite Hhead. repeat constructor. by intros [? [=]].
        -- destruct Hhead as (name & v & d & ->).
           repeat constructor; by intros [? [=]].
      * apply Forall2_cons_inv_l in Hgroups as (g & gs & _ & _ & ->).
        apply Hlast. by rewrite last_cons_cons in Hgroup.
Qed.

(** X8: without truncation the encoder returns one window: the prefix, the
    start token, one group of tokens per remaining note in the order of the
    notes, and the end token.  A group is a drum token of the note's pitch,
    or a note token of the note's pitch directly followed by a duration
    token, and then wait tokens only; the last group has no wait token. *)
Theorem tokenize_midi_dict_groups (list_of_set : list string → list string)
    (self : TokenizerLazy) (midi_dict : MidiDict) (res : list (list token)) :
  truncate_type self = "none" →
  tokenize_midi_dict list_of_set self midi_dict = Ok res →
  ∃ filtered present_instruments groups,
    _remove_instruments self midi_dict = Ok filtered
    ∧ res = [(TStr <$> present_instruments)
             ++ [TStr bos_tok] ++ concat groups ++ [TStr eos_tok]]
    ∧ Forall2 note_group (note_msgs filtered) groups
    ∧ ∀ group, last groups = Some group → Forall (λ tok, ¬ is_wait tok) group.
Proof.
  intros Htt H. unfold tokenize_midi_dict in H.
  inv_bind H as filtered Hfiltered. inv_bind H as c2p Hc2p. inv_bind H as c2i Hc2i.
  inv_bind H as present Hpresent. inv_bind H as seq Hseq.
  destruct (tokenize_notes_groups _ _ _ _ _ _ _ Hseq) as (groups & -> & Hgroups & Hlast).
  unfold windows in H. rewrite Htt in H.
  change (bool_decide ("none" = "none")) with true in H. injection H as <-.
  by exists filtered, present, groups.
Qed.

Lemma tokenize_midi_dict_groups_witness :
  truncate_type (example_tokenizer false "none" 512 None) = "none"
  ∧ tokenize_midi_dict remove_dups (example_tokenizer false "none" 512 None)
      piano_and_drum
    = Ok [[TStr "piano"; TStr "drums"; TStr "<S>";
           TNote "piano" 60 (PInt 60); TPair "dur" (PInt 100);
           TPair "wait" (PInt 100); TPair "wait" (PInt 100);
           TPair "wait" (PInt 100); TPair "wait" (PInt 100);
           TPair "wait" (PInt 100); TPair "drum" (PInt 36); TStr "<E>"]]
  ∧ ∃ filtered present_instruments groups,
      _remove_instruments (example_tokenizer false "none" 512 None) piano_and_drum
      = Ok filtered
      ∧ [[TStr "piano"; TStr "drums"; TStr "<S>";
          TNote "piano" 60 (PInt 60); TPair "dur" (PInt 100);
          TPair "wait" (PInt 100); TPair "wait" (PInt 100);
          TPair "wait" (PInt 100); TPair "wait" (PInt 100);
          TPair "wait" (PInt 100); TPair "drum" (PInt 36); TStr "<E>"]]
        = [(TStr <$> present_instruments)
           ++ [TStr bos_tok] ++ concat groups ++ [TStr eos_tok]]
      ∧ Forall2 note_group (note_msgs filtered) groups
      ∧ ∀ group, last groups = Some group → Forall (λ tok, ¬ is_wait tok) group.
Proof.
  assert (truncate_type (example_tokenizer false "none" 512 None) = "none") as Htt
    by reflexivity.
  assert (tokenize_midi_dict remove_dups (example_tokenizer false "none" 512 None)
            piano_and_drum
          = Ok [[TStr "piano"; TStr "drums"; TStr "<S>";
                 TNote "piano" 60 (PInt 60); TPair "dur" (PInt 100);
                 TPair "wait" (PInt 100); TPair "wait" (PInt 100);
                 TPair "wait" (PInt 100); TPair "wait" (PInt 100);
                 TPair "wait" (PInt 100); TPair "drum" (PInt 36); TStr "<E>"]]) as Hres
    by (vm_compute; reflexivity).
  split; [exact Htt|]. split; [exact Hres|].
  exact (tokenize_midi_dict_groups remove_dups _ piano_and_drum _ Htt Hres).
Defined.

(** ** The time the wait tokens of a gap stand for *)

Lemma wait_total_app (l k : list token) :
  wait_total (l ++ k) = wait_total l + wait_total k.
Proof. induction l as [|tok l IH]; simpl; [done|]. rewrite IH. lia. Qed.

Lemma wait_total_replicate (n : nat) (q : Z) :
  wait_total (replicate n (TPair "wait" (PInt q))) = Z.of_nat n * q.
Proof.
  induction n as [|n IH]; [done|].
  change (wait_total (replicate (S n) (TPair "wait" (PInt q))))
    with (q + wait_total (replicate n (TPair "wait" (PInt q)))).
  rewrite IH. lia.
Qed.

(** X9: a gap of [w] ms is [k] times the maximum step and a rest [r] that
    the time quantizer gets, [r] being [w] itself when [w] is not positive.
    When [r] is within the range of the floats, the wait tokens of the gap
    stand for [w] ms to within half a minimum step if [w] is not negative,
    and a gap that is not positive gets no wait token; when [r] is beyond
    that range, OverflowError is raised. *)
Theorem wait_tokens_total (padding_ : bool) (truncate_type_ : string)
    (max_seq_len_ : Z) (stride_len_ : option Z) (config_ : LazyConfig)
    (self : TokenizerLazy) (w : Z) :
  TokenizerLazy_init padding_ truncate_type_ max_seq_len_ stride_len_ config_ = Ok self →
  0 < time_min_step config_ → 2 <= time_num_steps config_ →
  ∃ (k : nat) (r : Z),
    w = Z.of_nat k * max_time_step self + r
    ∧ r <= max_time_step self
    ∧ ((0 < k)%nat → 0 < r)
    ∧ (w <= 0 → r = w)
    ∧ (float_of_int r = Raise OverflowError →
       wait_tokens self w = Raise OverflowError)
    ∧ (converts r →
       ∃ toks,
         wait_tokens self w = Ok toks
         ∧ Forall is_wait toks
         ∧ (0 <= w → 2 * Z.abs (wait_total toks - w) <= min_time_step self)
         ∧ (w <= 0 → toks = [])).
Proof.
  intros Hinit Hmin Hnum.
  destruct (wait_tokens_spec _ _ _ _ _ _ w Hinit Hmin Hnum)
    as (k & r & Hsum & Hr & Hk & Hover & Hconv).
  apply TokenizerLazy_init_Ok in Hinit
    as (_ & _ & _ & _ & _ & _ & Hms & Hnum0 & Hladder & Hmax & _).
  assert (0 < max_time_step self) as Hpos by (rewrite Hmax; nia).
  assert (w <= 0 → k = 0%nat) as Hk0.
  { intros Hw. destruct k as [|k]; [done|]. specialize (Hk ltac:(lia)). nia. }
  exists k, r. do 3 (split; [done|]).
  split; [intros Hw; rewrite (Hk0 Hw) in Hsum; lia|].
  split; [done|]. intros Hrconv.
  destruct (Hconv Hrconv) as (q & Heq & Hq & Hnear).
  rewrite Hladder in Hnear.
  destruct (nearest_in_range_ladder _ _ _ _ Hmin Hnum0 Hnear)
    as (Hhalf & _ & Hbot & _ & _).
  eexists. split; [exact Heq|]. split; [|split].
  - apply Forall_app. split.
    + apply Forall_replicate. by eexists.
    + case_decide; repeat constructor. by eexists.
  - intros Hw. rewrite wait_total_app, wait_total_replicate, Hms.
    assert (0 <= r <= max_time_step self) as Hrange.
    { split; [|done]. destruct k as [|k]; [lia|]. specialize (Hk ltac:(lia)). lia. }
    rewrite Hmax in Hrange. specialize (Hhalf Hrange).
    case_decide as Hq0.
    + subst q. change (wait_total []) with 0. lia.
    + change (wait_total [TPair "wait" (PInt q)]) with (q + 0). lia.
  - intros Hw. rewrite (Hk0 Hw) in *.
    assert (q = 0) as -> by (apply Hbot; lia). done.
Qed.

Lemma wait_tokens_total_witness :
  TokenizerLazy_init false "none" 512 None example_config
    = Ok (example_tokenizer false "none" 512 None)
  ∧ 0 < time_min_step example_config
  ∧ 2 <= time_num_steps example_config
  ∧ wait_tokens (example_tokenizer false "none" 512 None) 254
    = Ok [TPair "wait" (PInt 100); TPair "wait" (PInt 100); TPair "wait" (PInt 50)]
  ∧ converts 54
  ∧ ∃ (k : nat) (r : Z),
      254 = Z.of_nat k * max_time_step (example_tokenizer false "none" 512 None) + r
      ∧ r <= max_time_step (example_tokenizer false "none" 512 None)
      ∧ ((0 < k)%nat → 0 < r)
      ∧ (254 <= 0 → r = 254)
      ∧ (float_of_int r = Raise OverflowError →
         wait_tokens (example_tokenizer false "none" 512 None) 254
         = Raise OverflowError)
      ∧ (converts r →
         ∃ toks,
           wait_tokens (example_tokenizer false "none" 512 None) 254 = Ok toks
           ∧ Forall is_wait toks
           ∧ (0 <= 254 →
              2 * Z.abs (wait_total toks - 254)
              <= min_time_step (example_tokenizer false "none" 512 None))
           ∧ (254 <= 0 → toks = [])).
Proof.
  assert (0 < time_min_step example_config) as Hmin by done.
  assert (2 <= time_num_steps example_config) as Hnum by done.
  split; [exact example_tokenizer_init|]. split; [exact Hmin|]. split; [exact Hnum|].
  split; [vm_compute; reflexivity|].
  split; [eexists; vm_compute; reflexivity|].
  exact (wait_tokens_total _ _ _ _ _ _ 254 example_tokenizer_init Hmin Hnum).
Defined.

(** ** The windows *)

Lemma py_slice_lookup {A} (l : list A) (a b : Z) (i : nat) (x : A) :
  0 <= a → a <= Z.of_nat i < b → l !! i = Some x →
  py_slice l a b !! (i - Z.to_nat a)%nat = Some x.
Proof.
  intros Ha Hi Hx. pose proof (lookup_lt_Some _ _ _ Hx) as Hlen.
  unfold py_slice, py_bound, py_len.
  rewrite !bool_decide_eq_false_2 by lia.
  rewrite lookup_take_lt by lia. rewrite lookup_drop. rewrite <- Hx. f_equal. lia.
Qed.

Lemma py_slice_take {A} (l : list A) (b : Z) :
  0 <= b → py_slice l 0 b = take (Z.to_nat b) l.
Proof.
  intros Hb. unfold py_slice, py_bound, py_len in *.
  rewrite !bool_decide_eq_false_2 by lia.
  rewrite (Z.min_l 0) by lia. change (Z.to_nat 0) with 0%nat. rewrite drop_0.
  destruct (decide (b <= Z.of_nat (length l))).
  - by rewrite (Z.min_l b), Z.sub_0_r by lia.
  - rewrite (Z.min_r b), Z.sub_0_r by lia. rewrite !take_ge by lia. done.
Qed.

(** X10: under the default truncation the encoder returns one window.  A
    sequence of at least [max_seq_len] tokens is cut to its first
    [max_seq_len] tokens, the end token among those cut off; a shorter one
    is returned whole, filled up with pad tokens to [max_seq_len] when
    padding is enabled. *)
Theorem windows_default (self : TokenizerLazy)
    (present_instruments tokenized_seq : list token) :
  truncate_type self = "default" → 0 <= max_seq_len self →
  ∃ window,
    windows self present_instruments tokenized_seq = Ok [window]
    ∧ (max_seq_len self
       <= py_len (present_instruments ++ [TStr bos_tok] ++ tokenized_seq ++ [TStr eos_tok]) →
       window
       = take (Z.to_nat (max_seq_len self))
              (present_instruments ++ [TStr bos_tok] ++ tokenized_seq ++ [TStr eos_tok]))
    ∧ (py_len (present_instruments ++ [TStr bos_tok] ++ tokenized_seq ++ [TStr eos_tok])
       < max_seq_len self →
       window
       = (present_instruments ++ [TStr bos_tok] ++ tokenized_seq ++ [TStr eos_tok])
         ++ if padding self
            then replicate
                   (Z.to_nat (max_seq_len self)
                    - length (present_instruments ++ [TStr bos_tok] ++ tokenized_seq
                              ++ [TStr eos_tok]))
                   (TStr pad_tok)
            else [])
    ∧ py_len window <= max_seq_len self
    ∧ (padding self = true → py_len window = max_seq_len self).
Proof.
  intros Htt Hmax. unfold windows. rewrite Htt.
  change (bool_decide ("default" = "none")) with false.
  change (bool_decide ("default" = "default")) with true. cbn [negb].
  set (full := present_instruments ++ [TStr bos_tok] ++ tokenized_seq ++ [TStr eos_tok]).
  eexists. split; [reflexivity|].
  rewrite py_slice_take by done. unfold py_repeat, py_len.
  split; [|split; [|split]].
  - intros Hlong. destruct (padding self); [|done].
    replace (Z.to_nat (max_seq_len self - Z.of_nat (length full))) with 0%nat by lia.
    by rewrite app_nil_r.
  - intros Hshort. destruct (padding self).
    + rewrite take_ge by (rewrite length_app, length_replicate; lia).
      f_equal. f_equal. lia.
    + rewrite take_ge by lia. by rewrite app_nil_r.
  - rewrite length_take. lia.
  - intros ->. rewrite length_take, length_app, length_replicate. lia.
Qed.

Lemma windows_default_witness :
  truncate_type (example_tokenizer true "default" 6 None) = "default"
  ∧ 0 <= max_seq_len (example_tokenizer true "default" 6 None)
  ∧ windows (example_tokenizer true "default" 6 None) [TStr "piano"]
      [TPair "drum" (PInt 36)]
    = Ok [[TStr "piano"; TStr "<S>"; TPair "drum" (PInt 36); TStr "<E>";
           TStr "<P>"; TStr "<P>"]]
  ∧ ∃ window,
      windows (example_tokenizer true "default" 6 None) [TStr "piano"]
        [TPair "drum" (PInt 36)]
      = Ok [window]
      ∧ py_len window <= 6.
Proof.
  assert (truncate_type (example_tokenizer true "default" 6 None) = "default") as Htt
    by reflexivity.
  assert (0 <= max_seq_len (example_tokenizer true "default" 6 None)) as Hmax
    by (simpl; lia).
  split; [exact Htt|]. split; [exact Hmax|]. split; [vm_compute; reflexivity|].
  destruct (windows_default (example_tokenizer true "default" 6 None) [TStr "piano"]
              [TPair "drum" (PInt 36)] Htt Hmax)
    as (window & Heq & _ & _ & Hlen & _).
  exists window. split; [exact Heq | exact Hlen].
Defined.

Lemma strided_window_lookup (self : TokenizerLazy)
    (present_instruments _res : list token) (idx : Z) (i : nat) (tok : token) :
  0 <= idx →
  idx <= Z.of_nat i < idx + max_seq_len self - py_len present_instruments →
  _res !! i = Some tok →
  strided_window self present_instruments _res idx
    !! (length present_instruments + (i - Z.to_nat idx))%nat = Some tok.
Proof.
  intros Hidx Hi Htok. unfold strided_window.
  rewrite lookup_app_r by lia.
  replace (length present_instruments + (i - Z.to_nat idx) - length present_instruments)%nat
    with (i - Z.to_nat idx)%nat by lia.
  by apply py_slice_lookup.
Qed.

(** X11: with a stride of at most [max_seq_len - prefix_len], the strided
    windows leave no token out: the token at index [i] of the sequence from
    the start token to the end token stands in a window [k], after the
    prefix, at index [i - k * stride_len]. *)
Theorem strided_windows_cover (self : TokenizerLazy) (stride : Z)
    (present_instruments tokenized_seq : list token) :
  truncate_type self = "strided" →
  stride_len self = Some stride → 0 < stride →
  stride <= max_seq_len self - py_len present_instruments →
  ∃ res,
    windows self present_instruments tokenized_seq = Ok res
    ∧ ∀ (i : nat) tok,
        ([TStr bos_tok] ++ tokenized_seq ++ [TStr eos_tok]) !! i = Some tok →
        ∃ (k : nat) window,
          res !! k = Some window
          ∧ (k * Z.to_nat stride <= i)%nat
          ∧ window !! (length present_instruments + (i - k * Z.to_nat stride))%nat
            = Some tok.
Proof.
  intros Htt Hstride Hpos Hwidth.
  destruct (windows_strided_spec self stride present_instruments tokenized_seq
              Htt Hstride Hpos) as (n & Hn & Heq & Hin & Hout).
  eexists. split; [exact Heq|]. intros i tok Htok.
  pose proof (lookup_lt_Some _ _ _ Htok) as Hlen.
  set (_res := [TStr bos_tok] ++ tokenized_seq ++ [TStr eos_tok]) in *.
  pose proof (Z.div_mod (Z.of_nat i) stride ltac:(lia)) as Hdm.
  pose proof (Z.mod_pos_bound (Z.of_nat i) stride Hpos) as Hmod.
  assert (0 <= Z.of_nat i `div` stride) as Hq by (apply Z.div_pos; lia).
  destruct (decide (Z.of_nat i `div` stride < n)) as [Hlt|Hge].
  - exists (Z.to_nat (Z.of_nat i `div` stride)). eexists. split; [|split].
    + rewrite lookup_app_l by (rewrite length_fmap, length_seqZ; lia).
      rewrite list_lookup_fmap, lookup_seqZ_lt by lia. reflexivity.
    + nia.
    + cbn beta.
      replace (Z.to_nat (Z.of_nat i `div` stride) * Z.to_nat stride)%nat
        with (Z.to_nat ((0 + Z.of_nat (Z.to_nat (Z.of_nat i `div` stride))) * stride))
        by nia.
      apply strided_window_lookup; [nia|nia|done].
  - exists (Z.to_nat n). eexists. split; [|split].
    + rewrite lookup_app_r by (rewrite length_fmap, length_seqZ; lia).
      rewrite length_fmap, length_seqZ, Nat.sub_diag. reflexivity.
    + nia.
    + replace (Z.to_nat n * Z.to_nat stride)%nat with (Z.to_nat (n * stride)) by nia.
      unfold last_window. cbn zeta.
      assert (strided_window self present_instruments _res (n * stride)
                !! (length present_instruments + (i - Z.to_nat (n * stride)))%nat
              = Some tok) as Hlook.
      { assert (n * stride <= Z.of_nat i) by nia.
        apply strided_window_lookup; [nia| |done]. unfold py_len in *. lia. }
      destruct (padding self); [|done]. by apply lookup_app_l_Some.
Qed.

Lemma strided_windows_cover_witness :
  truncate_type (example_tokenizer false "strided" 6 (Some 2)) = "strided"
  ∧ stride_len (example_tokenizer false "strided" 6 (Some 2)) = Some 2
  ∧ 0 < 2
  ∧ 2 <= max_seq_len (example_tokenizer false "strided" 6 (Some 2)) - py_len example_prefix
  ∧ ∃ res,
      windows (example_tokenizer false "strided" 6 (Some 2)) example_prefix example_body
      = Ok res
      ∧ ∀ (i : nat) tok,
          ([TStr bos_tok] ++ example_body ++ [TStr eos_tok]) !! i = Some tok →
          ∃ (k : nat) window,
            res !! k = Some window
            ∧ (k * Z.to_nat 2 <= i)%nat
            ∧ window !! (length example_prefix + (i - k * Z.to_nat 2))%nat = Some tok.
Proof.
  assert (truncate_type (example_tokenizer false "strided" 6 (Some 2)) = "strided") as Htt
    by reflexivity.
  assert (stride_len (example_tokenizer false "strided" 6 (Some 2)) = Some 2) as Hstride
    by reflexivity.
  assert (0 < 2) as Hpos by lia.
  assert (2 <= max_seq_len (example_tokenizer false "strided" 6 (Some 2))
               - py_len example_prefix) as Hwidth by (vm_compute; discriminate).
  split; [exact Htt|]. split; [exact Hstride|]. split; [exact Hpos|].
  split; [exact Hwidth|].
  exact (strided_windows_cover _ 2 example_prefix example_body Htt Hstride Hpos Hwidth).
Defined.

(** ** The pedal intervals, channel by channel *)

Lemma pedal_step_other (st : gmap Z (list (Z * Z)) * gmap Z Z) (msg : pedal_msg)
    (channel : Z) :
  pedal_channel msg ≠ channel →
  (pedal_step st msg).1 !!! channel = st.1 !!! channel
  ∧ (pedal_step st msg).2 !! channel = st.2 !! channel.
Proof.
  intros Hne. destruct st as [d status]. unfold pedal_step.
  destruct (status !! pedal_channel msg) as [s|]; case_bool_decide; simpl;
    rewrite ?lookup_total_dd_append, ?lookup_delete_ne, ?lookup_insert_ne by done;
    try case_decide; done.
Qed.

Lemma pedal_step_same (st st' : gmap Z (list (Z * Z)) * gmap Z Z) (msg : pedal_msg) :
  st.1 !!! pedal_channel msg = st'.1 !!! pedal_channel msg →
  st.2 !! pedal_channel msg = st'.2 !! pedal_channel msg →
  (pedal_step st msg).1 !!! pedal_channel msg
  = (pedal_step st' msg).1 !!! pedal_channel msg
  ∧ (pedal_step st msg).2 !! pedal_channel msg
    = (pedal_step st' msg).2 !! pedal_channel msg.
Proof.
  destruct st as [d status], st' as [d' status']. simpl. intros Hd Hs.
  unfold pedal_step. rewrite <- Hs.
  destruct (status !! pedal_channel msg) as [s|] eqn:Hst; case_bool_decide; simpl;
    rewrite ?lookup_total_dd_append, ?lookup_delete_eq, ?lookup_insert_eq;
    try case_decide; try done; split; congruence.
Qed.

Lemma pedal_scan_channel (channel : Z) (msgs : list pedal_msg) :
  ∀ st st' : gmap Z (list (Z * Z)) * gmap Z Z,
    st.1 !!! channel = st'.1 !!! channel →
    st.2 !! channel = st'.2 !! channel →
    (foldl pedal_step st msgs).1 !!! channel
    = (foldl pedal_step st' (pedal_msgs_on channel msgs)).1 !!! channel
    ∧ (foldl pedal_step st msgs).2 !! channel
      = (foldl pedal_step st' (pedal_msgs_on channel msgs)).2 !! channel.
Proof.
  unfold pedal_msgs_on.
  induction msgs as [|msg msgs IH]; intros st st' Hd Hs; [done|].
  rewrite filter_cons. cbn [foldl]. case_decide as Hch.
  - cbn [foldl]. subst channel. by apply IH; apply pedal_step_same.
  - destruct (pedal_step_other st msg channel Hch) as [Hd' Hs'].
    apply IH; congruence.
Qed.

(** X12: the pedal intervals of a channel depend on the pedal messages of that
    channel alone (and on the end of the last note): dropping the pedal
    messages of all other channels leaves them as they are. *)
Theorem build_pedal_intervals_channel (midi_dict : MidiDict)
    (d : gmap Z (list (Z * Z))) (channel : Z) :
  _build_pedal_intervals midi_dict = Ok d →
  ∃ d',
    _build_pedal_intervals
      (with_pedal_msgs midi_dict (pedal_msgs_on channel (pedal_msgs midi_dict)))
    = Ok d'
    ∧ d' !!! channel = d !!! channel
    ∧ (pedal_msgs_on channel (pedal_msgs midi_dict) = [] → d !!! channel = []).
Proof.
  unfold _build_pedal_intervals. cbn [pedal_msgs note_msgs with_pedal_msgs]. intros H.
  destruct (pedal_scan_channel channel (pedal_msgs midi_dict) (∅, ∅) (∅, ∅) eq_refl eq_refl)
    as [Hd Hs].
  destruct (foldl pedal_step (∅, ∅) (pedal_msgs midi_dict)) as [d0 status] eqn:Hscan.
  destruct (foldl pedal_step (∅, ∅) (pedal_msgs_on channel (pedal_msgs midi_dict)))
    as [d0' status'] eqn:Hscan'.
  simpl in Hd, Hs.
  inv_bind H as last_note Hlast. injection H as <-. rewrite Hlast, bind_Ok_eq.
  eexists. split; [reflexivity|]. rewrite !close_unclosed_lookup, Hd, Hs.
  split; [done|].
  intros Hnone. rewrite Hnone in Hscan'. injection Hscan' as <- <-.
  by rewrite lookup_total_empty, lookup_empty.
Qed.

Lemma build_pedal_intervals_channel_witness :
  _build_pedal_intervals two_pedals = Ok {[ 1 := [(10, 20)]; 0 := [(0, 30)] ]}
  ∧ ∃ d',
      _build_pedal_intervals
        (with_pedal_msgs two_pedals (pedal_msgs_on 0 (pedal_msgs two_pedals)))
      = Ok d'
      ∧ d' !!! 0 = ({[ 1 := [(10, 20)]; 0 := [(0, 30)] ]} : gmap Z (list (Z * Z))) !!! 0
      ∧ (pedal_msgs_on 0 (pedal_msgs two_pedals) = [] →
         ({[ 1 := [(10, 20)]; 0 := [(0, 30)] ]} : gmap Z (list (Z * Z))) !!! 0 = []).
Proof.
  assert (_build_pedal_intervals two_pedals = Ok {[ 1 := [(10, 20)]; 0 := [(0, 30)] ]})
    as Hd by (vm_compute; reflexivity).
  split; [exact Hd|].
  exact (build_pedal_intervals_channel two_pedals _ 0 Hd).
Defined.

(** ** The vocabulary and the two dicts *)

Lemma py_enumerate_elem {A} (l : list A) (i : Z) (x : A) :
  (i, x) ∈ py_enumerate l ↔ 0 <= i ∧ l !! Z.to_nat i = Some x.
Proof.
  unfold py_enumerate, py_len. rewrite list_elem_of_lookup. split.
  - intros [j Hj]. apply lookup_zip_with_Some in Hj as (i' & x' & [= <- <-] & Hi & Hx).
    apply lookup_seqZ in Hi as [-> _]. split; [lia|].
    by replace (Z.to_nat (0 + Z.of_nat j)) with j by lia.
  - intros [Hi Hx]. exists (Z.to_nat i). apply lookup_zip_with_Some.
    exists i, x. split; [done|]. split; [|done].
    apply lookup_seqZ. pose proof (lookup_lt_Some _ _ _ Hx). lia.
Qed.

Lemma foldl_insert_lookup (l : list (Z * token)) :
  ∀ (d : gmap token Z) tok i,
    foldl (λ d '(idx, tok), <[tok := idx]> d) d l !! tok = Some i →
    (i, tok) ∈ l ∨ d !! tok = Some i.
Proof.
  induction l as [|[idx tok'] l IH]; intros d tok i H; cbn [foldl] in H; [by right|].
  apply IH in H as [H|H]; [left; by right|].
  destruct (decide (tok' = tok)) as [->|Hne].
  - rewrite lookup_insert_eq in H. injection H as ->. left. by left.
  - rewrite lookup_insert_ne in H by done. by right.
Qed.

Lemma foldl_insert_is_Some (l : list (Z * token)) :
  ∀ (d : gmap token Z) tok,
    tok ∈ l.*2 ∨ is_Some (d !! tok) →
    is_Some (foldl (λ d '(idx, tok), <[tok := idx]> d) d l !! tok).
Proof.
  induction l as [|[idx tok'] l IH]; intros d tok H; cbn [foldl].
  - destruct H as [H|H]; [by apply elem_of_nil in H | done].
  - apply IH. rewrite fmap_cons, elem_of_cons in H. cbn in H.
    destruct (decide (tok = tok')) as [->|Hne].
    + right. rewrite lookup_insert_eq. by eexists.
    + rewrite lookup_insert_ne by done. destruct H as [[?|?]|?]; [done|by left|by right].
Qed.

Lemma tok_to_id_lookup (self : TokenizerLazy) (ignore_items : list (string * bool))
    (tok : token) (i : Z) :
  Vocab.tok_to_id self ignore_items !! tok = Some i →
  0 <= i < Vocab.vocab_size self ignore_items
  ∧ Vocab.vocab self ignore_items !! Z.to_nat i = Some tok.
Proof.
  unfold Vocab.tok_to_id. intros [H|H]%foldl_insert_lookup; [|by rewrite lookup_empty in H].
  apply py_enumerate_elem in H as [Hi Htok]. split; [|done].
  apply lookup_lt_Some in Htok. unfold Vocab.vocab_size, py_len. lia.
Qed.

Lemma tok_to_id_is_Some (self : TokenizerLazy) (ignore_items : list (string * bool))
    (tok : token) :
  tok ∈ Vocab.vocab self ignore_items
  ↔ is_Some (Vocab.tok_to_id self ignore_items !! tok).
Proof.
  split.
  - intros Hin. apply foldl_insert_is_Some. left.
    apply list_elem_of_lookup in Hin as [j Hj]. apply list_elem_of_fmap.
    exists (Z.of_nat j, tok). split; [done|]. apply py_enumerate_elem.
    split; [lia|]. by rewrite Nat2Z.id.
  - intros [i Hi]. apply tok_to_id_lookup in Hi as [_ Hi].
    by eapply list_elem_of_lookup_2.
Qed.

Lemma map_fold_inverse (m : gmap token Z) :
  (∀ t1 t2 i, m !! t1 = Some i → m !! t2 = Some i → t1 = t2) →
  ∀ i tok, map_fold (λ k v d, <[v := k]> d) (∅ : gmap Z token) m !! i = Some tok
           ↔ m !! tok = Some i.
Proof.
  apply (map_fold_weak_ind
           (λ (r : gmap Z token) (m : gmap token Z),
              (∀ t1 t2 i, m !! t1 = Some i → m !! t2 = Some i → t1 = t2) →
              ∀ i tok, r !! i = Some tok ↔ m !! tok = Some i)).
  - intros _ i tok. by rewrite !lookup_empty.
  - intros tok idx m' r Hfresh IH Hinj i tok'.
    assert (∀ t1 t2 i, m' !! t1 = Some i → m' !! t2 = Some i → t1 = t2) as Hinj'.
    { intros t1 t2 j H1 H2. apply (Hinj t1 t2 j); rewrite lookup_insert_ne; try done;
        intros <-; congruence. }
    specialize (IH Hinj').
    destruct (decide (idx = i)) as [->|Hi].
    + rewrite lookup_insert_eq. split.
      * intros [= <-]. by rewrite lookup_insert_eq.
      * intros H. f_equal. apply (Hinj tok tok' i); [by rewrite lookup_insert_eq|done].
    + rewrite lookup_insert_ne by done. rewrite IH.
      destruct (decide (tok = tok')) as [->|Ht].
      * rewrite lookup_insert_eq, Hfresh. split; [done|]. by intros [= ?].
      * by rewrite lookup_insert_ne.
Qed.

Lemma id_to_tok_lookup (self : TokenizerLazy) (ignore_items : list (string * bool))
    (i : Z) (tok : token) :
  Vocab.id_to_tok self ignore_items !! i = Some tok
  ↔ Vocab.tok_to_id self ignore_items !! tok = Some i.
Proof.
  apply map_fold_inverse. intros t1 t2 j H1 H2.
  apply tok_to_id_lookup in H1 as [_ H1]. apply tok_to_id_lookup in H2 as [_ H2].
  congruence.
Qed.

Lemma unk_in_vocab (self : TokenizerLazy) (ignore_items : list (string * bool)) :
  ∃ unk_id, Vocab.tok_to_id self ignore_items !! TStr unk_tok = Some unk_id.
Proof.
  apply tok_to_id_is_Some. unfold Vocab.vocab, Vocab.special_tokens.
  apply elem_of_app. left. do 3 apply list_elem_of_further. apply list_elem_of_here.
Qed.

(** One token through [_enc_fn] and back through [_dec_fn]. *)
Lemma dec_enc_fn (self : TokenizerLazy) (ignore_items : list (string * bool))
    (tok : token) :
  ∃ id,
    _enc_fn (Vocab.tok_to_id self ignore_items) tok = Ok id
    ∧ 0 <= id < Vocab.vocab_size self ignore_items
    ∧ _dec_fn (Vocab.id_to_tok self ignore_items) id
      = if decide (tok ∈ Vocab.vocab self ignore_items) then tok else TStr unk_tok.
Proof.
  destruct (unk_in_vocab self ignore_items) as [unk_id Hunk].
  unfold _enc_fn, _dec_fn. rewrite (dict_get_Some _ _ _ Hunk), bind_Ok_eq.
  destruct (Vocab.tok_to_id self ignore_items !! tok) as [i|] eqn:Hi; simpl.
  - exists i. split; [done|]. split; [by apply tok_to_id_lookup in Hi as [? _]|].
    rewrite (proj2 (id_to_tok_lookup self ignore_items i tok) Hi). simpl.
    rewrite decide_True; [done|]. apply tok_to_id_is_Some. by eexists.
  - exists unk_id. split; [done|]. split; [by apply tok_to_id_lookup in Hunk as [? _]|].
    rewrite (proj2 (id_to_tok_lookup self ignore_items unk_id _) Hunk). simpl.
    rewrite decide_False; [done|]. intros [? ?]%tok_to_id_is_Some. congruence.
Qed.

(** X13: [encode] never fails on the lazy tokenizer and gives one id from 0 to
    [vocab_size - 1] per token; [decode] of these ids gives the sequence
    back with every token outside the vocabulary replaced by the unknown
    token. *)
Theorem decode_encode (self : TokenizerLazy) (ignore_items : list (string * bool))
    (unencoded_seq : list token) :
  ∃ encoded_seq,
    encode (Vocab.tok_to_id self ignore_items) unencoded_seq = Ok encoded_seq
    ∧ length encoded_seq = length unencoded_seq
    ∧ Forall (λ id, 0 <= id < Vocab.vocab_size self ignore_items) encoded_seq
    ∧ decode (Vocab.id_to_tok self ignore_items) encoded_seq
      = (λ tok, if decide (tok ∈ Vocab.vocab self ignore_items) then tok
                else TStr unk_tok) <$> unencoded_seq.
Proof.
  unfold encode, decode. induction unencoded_seq as [|tok seq IH].
  - exists []. split; [done|]. split; [done|]. split; [constructor|done].
  - destruct IH as (ids & Hids & Hlen & Hrange & Hdec).
    destruct (dec_enc_fn self ignore_items tok) as (id & Hid & Hid_range & Hid_dec).
    exists (id :: ids). cbn [mapM]. rewrite Hid, bind_Ok_eq, Hids, bind_Ok_eq.
    split; [done|]. split; [by rewrite !length_cons, Hlen|].
    split; [by constructor|]. by rewrite !fmap_cons, Hid_dec, Hdec.
Qed.

(** X14: [decode] followed by [encode] gives back every id that is in
    [id_to_tok] and the id of the unknown token in place of every other
    one. *)
Theorem encode_decode (self : TokenizerLazy) (ignore_items : list (string * bool))
    (encoded_seq : list Z) :
  ∃ unk_id,
    Vocab.tok_to_id self ignore_items !! TStr unk_tok = Some unk_id
    ∧ encode (Vocab.tok_to_id self ignore_items)
             (decode (Vocab.id_to_tok self ignore_items) encoded_seq)
      = Ok ((λ id, if decide (is_Some (Vocab.id_to_tok self ignore_items !! id))
                   then id else unk_id) <$> encoded_seq).
Proof.
  destruct (unk_in_vocab self ignore_items) as [unk_id Hunk].
  exists unk_id. split; [done|]. unfold encode, decode.
  induction encoded_seq as [|id ids IH]; [done|].
  rewrite !fmap_cons. cbn [mapM]. rewrite IH.
  unfold _enc_fn at 1. rewrite (dict_get_Some _ _ _ Hunk), !bind_Ok_eq.
  do 2 f_equal. unfold _dec_fn.
  destruct (decide (is_Some (Vocab.id_to_tok self ignore_items !! id)))
    as [[tok Hid]|Hnone].
  - rewrite Hid. simpl. apply id_to_tok_lookup in Hid. by rewrite Hid.
  - apply eq_None_not_Some in Hnone. rewrite Hnone. simpl. by rewrite Hunk.
Qed.

Lemma elem_of_vocab (self : TokenizerLazy) (ignore_items : list (string * bool))
    (tok : token) :
  tok ∈ Vocab.vocab self ignore_items ↔ in_vocab self ignore_items tok.
Proof.
  unfold Vocab.vocab, Vocab.special_tokens, Vocab.note_tokens, Vocab.drum_tokens,
    Vocab.wait_tokens.
  rewrite !elem_of_app, !list_elem_of_fmap, list_elem_of_bind.
  rewrite !elem_of_cons, elem_of_nil.
  split.
  - intros [H|[H|[H|[H|H]]]].
    + destruct H as [->|[->|[->|[->|[]]]]]; left;
        rewrite !elem_of_cons; auto.
    + destruct H as (s & -> & Hs). by right.
    + destruct H as (inst & H & Hinst).
      apply list_elem_of_bind in H as (p & H & Hp).
      apply list_elem_of_bind in H as (v & H & Hv).
      apply list_elem_of_singleton in H as ->.
      apply elem_of_seqZ in Hp. cbn [in_vocab]. split; [done|]. split; [lia|done].
    + destruct H as (p & -> & Hp). apply elem_of_seqZ in Hp. left. split; [done|lia].
    + destruct H as (q & -> & Hq). right. by split.
  - destruct tok as [s|tag [q|]|inst p [v|]]; cbn [in_vocab]; [| |done| |done].
    + rewrite !elem_of_cons, elem_of_nil. intros [[->|[->|[->|[->|[]]]]]|H]; [by auto 10..|].
      right. left. by exists s.
    + intros [[-> Hq]|[-> Hq]].
      * do 3 right. left. exists q. split; [done|]. apply elem_of_seqZ. lia.
      * do 4 right. by exists q.
    + intros (Hinst & Hp & Hv). do 2 right. left. exists inst. split; [|done].
      apply list_elem_of_bind. exists p. split; [|apply elem_of_seqZ; lia].
      apply list_elem_of_bind. exists v. split; [|done]. by apply list_elem_of_singleton.
Qed.

(** X15: encoding a window of the encoder and decoding it again keeps every
    wait token, and replaces every duration token by the unknown token: the
    vocabulary has no duration token.  A drum token is kept when its pitch
    is from 35 to 81, a note token when its instrument is one of
    [instrument_tokens] and its pitch is from 0 to 127. *)
Theorem tokenized_round_trip (list_of_set : list string → list string)
    (padding_ : bool) (truncate_type_ : string)
    (max_seq_len_ : Z) (stride_len_ : option Z) (config_ : LazyConfig)
    (self : TokenizerLazy) (ignore_items : list (string * bool))
    (midi_dict : MidiDict) (res : list (list token)) (window : list token) :
  TokenizerLazy_init padding_ truncate_type_ max_seq_len_ stride_len_ config_ = Ok self →
  0 < time_min_step config_ → 2 <= time_num_steps config_ →
  1 <= velocity_quantization_step config_ <= 127 →
  tokenize_midi_dict list_of_set self midi_dict = Ok res →
  window ∈ res →
  ∃ encoded_seq,
    encode (Vocab.tok_to_id self ignore_items) window = Ok encoded_seq
    ∧ ∀ (i : nat) tok,
        window !! i = Some tok →
        ∃ tok',
          decode (Vocab.id_to_tok self ignore_items) encoded_seq !! i = Some tok'
          ∧ match tok with
            | TStr s =>
                tok' = if decide (s ∈ [bos_tok; eos_tok; pad_tok; unk_tok]
                                  ∨ s ∈ Vocab.instrument_tokens ignore_items)
                       then tok else TStr unk_tok
            | TPair tag (PInt q) =>
                (tag = "wait" ∧ tok' = tok)
                ∨ (tag = "dur" ∧ tok' = TStr unk_tok)
                ∨ (tag = "drum"
                   ∧ tok' = if decide (35 <= q < 82) then tok else TStr unk_tok)
            | TNote _instrument _pitch _ =>
                tok' = if decide (_instrument ∈ Vocab.instrument_tokens ignore_items
                                  ∧ 0 <= _pitch < 128)
                       then tok else TStr unk_tok
            | _ => False
            end.
Proof.
  intros Hinit Hmin Hnum Hstep Hres Hwindow.
  assert (∀ tok, tok ∈ window → emitted_ok self tok) as Hok.
  { unfold tokenize_midi_dict in Hres.
    inv_bind Hres as md Hmd. inv_bind Hres as c2p Hc2p. inv_bind Hres as c2i Hc2i.
    inv_bind Hres as present Hpresent. inv_bind Hres as seq Hseq.
    assert (Forall (Forall (emitted_ok self)) res) as Hall.
    { eapply (windows_ok (emitted_ok self)); [| | |exact Hres].
      - intros s. exact I.
      - apply Forall_fmap, Forall_forall. intros s _. exact I.
      - by eapply tokenize_notes_emitted_ok. }
    rewrite Forall_forall in Hall. specialize (Hall window Hwindow).
    by rewrite Forall_forall in Hall. }
  assert (∃ ids,
            encode (Vocab.tok_to_id self ignore_items) window = Ok ids
            ∧ decode (Vocab.id_to_tok self ignore_items) ids
              = (λ tok, if decide (tok ∈ Vocab.vocab self ignore_items) then tok
                        else TStr unk_tok) <$> window) as (ids & Hids & Hdec).
  { unfold encode, decode. clear Hok Hwindow. induction window as [|tok seq IH].
    - by exists [].
    - destruct IH as (ids & Hids & Hdec).
      destruct (dec_enc_fn self ignore_items tok) as (id & Hid & _ & Hid_dec).
      exists (id :: ids). cbn [mapM]. rewrite Hid, bind_Ok_eq, Hids, bind_Ok_eq.
      split; [done|]. by rewrite !fmap_cons, Hid_dec, Hdec. }
  exists ids. split; [done|]. intros i tok Htok.
  rewrite Hdec, list_lookup_fmap, Htok. eexists. split; [reflexivity|].
  specialize (Hok tok (list_elem_of_lookup_2 _ _ _ Htok)).
  pose proof (elem_of_vocab self ignore_items tok) as Hvocab.
  destruct tok as [s|tag [q|]|inst p [v|]]; simpl in Hok, Hvocab.
  - by apply decide_ext.
  - destruct Hok as (q' & [= <-] & [->|[[->| ->] [Hq _]]]).
    + do 2 right. split; [done|]. apply decide_ext. rewrite Hvocab.
      split; [by intros [[_ ?]|[[=] _]] | by left].
    + left. split; [done|]. rewrite decide_True; [done|]. apply Hvocab. by right.
    + right. left. split; [done|]. rewrite decide_False; [done|].
      rewrite Hvocab. by intros [[[=] _]|[[=] _]].
  - by destruct Hok as (q' & [=] & _).
  - destruct Hok as (_ & v' & [= <-] & Hv). apply decide_ext. rewrite Hvocab. tauto.
  - by destruct Hok as (_ & v' & [=] & _).
Qed.

Lemma tokenized_round_trip_witness :
  TokenizerLazy_init false "none" 512 None example_config
    = Ok (example_tokenizer false "none" 512 None)
  ∧ 0 < time_min_step example_config
  ∧ 2 <= time_num_steps example_config
  ∧ 1 <= velocity_quantization_step example_config <= 127
  ∧ tokenize_midi_dict remove_dups (example_tokenizer false "none" 512 None)
      piano_and_drum
    = Ok [[TStr "piano"; TStr "drums"; TStr "<S>";
           TNote "piano" 60 (PInt 60); TPair "dur" (PInt 100);
           TPair "wait" (PInt 100); TPair "wait" (PInt 100);
           TPair "wait" (PInt 100); TPair "wait" (PInt 100);
           TPair "wait" (PInt 100); TPair "drum" (PInt 36); TStr "<E>"]]
  ∧ (∃ encoded_seq,
       encode (Vocab.tok_to_id (example_tokenizer false "none" 512 None) small_items)
              [TStr "piano"; TStr "drums"; TStr "<S>";
               TNote "piano" 60 (PInt 60); TPair "dur" (PInt 100);
               TPair "wait" (PInt 100); TPair "wait" (PInt 100);
               TPair "wait" (PInt 100); TPair "wait" (PInt 100);
               TPair "wait" (PInt 100); TPair "drum" (PInt 36); TStr "<E>"]
       = Ok encoded_seq)
  ∧ decode (Vocab.id_to_tok (example_tokenizer false "none" 512 None) small_items)
           [4; 5; 0; 792; 3; 3391; 3391; 3391; 3391; 3391; 3335; 1]
    = [TStr "piano"; TStr "drums"; TStr "<S>";
       TNote "piano" 60 (PInt 60); TStr "<U>";
       TPair "wait" (PInt 100); TPair "wait" (PInt 100);
       TPair "wait" (PInt 100); TPair "wait" (PInt 100);
       TPair "wait" (PInt 100); TPair "drum" (PInt 36); TStr "<E>"].
Proof.
  assert (0 < time_min_step example_config) as Hmin by done.
  assert (2 <= time_num_steps example_config) as Hnum by done.
  assert (1 <= velocity_quantization_step example_config <= 127) as Hstep
    by (simpl; lia).
  assert (tokenize_midi_dict remove_dups (example_tokenizer false "none" 512 None)
            piano_and_drum
          = Ok [[TStr "piano"; TStr "drums"; TStr "<S>";
                 TNote "piano" 60 (PInt 60); TPair "dur" (PInt 100);
                 TPair "wait" (PInt 100); TPair "wait" (PInt 100);
                 TPair "wait" (PInt 100); TPair "wait" (PInt 100);
                 TPair "wait" (PInt 100); TPair "drum" (PInt 36); TStr "<E>"]]) as Hres
    by (vm_compute; reflexivity).
  split; [exact example_tokenizer_init|]. split; [exact Hmin|]. split; [exact Hnum|].
  split; [exact Hstep|]. split; [exact Hres|]. split; [|vm_compute; reflexivity].
  destruct (tokenized_round_trip remove_dups _ _ _ _ _ _ small_items _ _ _
              example_tokenizer_init Hmin Hnum Hstep Hres (list_elem_of_here _ _))
    as (encoded_seq & Heq & _).
  by exists encoded_seq.
Defined.

(** ** The ids as positions in the vocabulary *)

Lemma elem_of_filter_keys (P : string * bool → Prop) `{!∀ kv, Decision (P kv)}
    (l : list (string * bool)) (s : string) :
  s ∈ (filter P l).*1 → s ∈ l.*1.
Proof.
  intros (kv & -> & [_ Hin]%list_elem_of_filter)%list_elem_of_fmap.
  apply list_elem_of_fmap. by exists kv.
Qed.

Lemma NoDup_filter_keys (P : string * bool → Prop) `{!∀ kv, Decision (P kv)}
    (l : list (string * bool)) :
  NoDup l.*1 → NoDup (filter P l).*1.
Proof.
  induction l as [|kv l IH]; [done|].
  rewrite fmap_cons, NoDup_cons. intros [Hfresh Hl]. rewrite filter_cons.
  case_decide; [|by apply IH].
  rewrite fmap_cons, NoDup_cons. split; [|by apply IH].
  intros Hin. by apply Hfresh, (elem_of_filter_keys P).
Qed.

Lemma length_bind_const {A B} (f : A → list B) (n : nat) (l : list A) :
  (∀ x, length (f x) = n) → length (l ≫= f) = (length l * n)%nat.
Proof.
  intros Hf. induction l as [|x l IH]; [done|].
  change ((x :: l) ≫= f) with (f x ++ (l ≫= f)).
  rewrite length_app, Hf, IH. simpl. lia.
Qed.

Lemma NoDup_instrument_tokens (ignore_items : list (string * bool)) :
  NoDup ignore_items.*1 → "drums" ∉ ignore_items.*1 →
  NoDup (Vocab.instrument_tokens ignore_items).
Proof.
  intros Hnodup Hdrums. unfold Vocab.instrument_tokens. apply NoDup_app.
  split; [by apply NoDup_filter_keys|]. split; [|apply NoDup_singleton].
  intros s Hs ->%list_elem_of_singleton. by apply elem_of_filter_keys, Hdrums in Hs.
Qed.

Lemma NoDup_note_tokens (self : TokenizerLazy) (ignore_items : list (string * bool)) :
  NoDup (Vocab.instrument_tokens ignore_items) →
  NoDup (velocity_quantizations self) →
  NoDup (Vocab.note_tokens self ignore_items).
Proof.
  intros Hinst Hvel. unfold Vocab.note_tokens. apply NoDup_bind; [| |done].
  - intros i1 i2 tok _ _ (p1 & (v1 & H1 & _)%list_elem_of_bind & _)%list_elem_of_bind
      (p2 & (v2 & H2 & _)%list_elem_of_bind & _)%list_elem_of_bind.
    apply list_elem_of_singleton in H1, H2. congruence.
  - intros inst _. apply NoDup_bind; [| |apply NoDup_seqZ].
    + intros p1 p2 tok _ _ (v1 & H1 & _)%list_elem_of_bind (v2 & H2 & _)%list_elem_of_bind.
      apply list_elem_of_singleton in H1, H2. congruence.
    + intros p _. apply NoDup_bind; [| |done].
      * intros v1 v2 tok _ _ H1 H2.
        apply list_elem_of_singleton in H1, H2. congruence.
      * intros v _. apply NoDup_singleton.
Qed.

Lemma vocab_tail_not_str (self : TokenizerLazy) (ignore_items : list (string * bool))
    (tok : token) :
  tok ∈ Vocab.note_tokens self ignore_items ++ Vocab.drum_tokens ++ Vocab.wait_tokens self →
  ∀ s, tok ≠ TStr s.
Proof.
  rewrite !elem_of_app. unfold Vocab.note_tokens, Vocab.drum_tokens, Vocab.wait_tokens.
  intros [Hin|[Hin|Hin]] s ->.
  - apply list_elem_of_bind in Hin
      as (? & (? & (? & [=]%list_elem_of_singleton & _)%list_elem_of_bind & _)
                %list_elem_of_bind & _).
  - by apply list_elem_of_fmap in Hin as (? & [=] & _).
  - by apply list_elem_of_fmap in Hin as (? & [=] & _).
Qed.

Lemma NoDup_vocab (self : TokenizerLazy) (ignore_items : list (string * bool)) :
  NoDup (time_step_quantizations self) → NoDup (velocity_quantizations self) →
  NoDup ignore_items.*1 →
  (∀ s, s ∈ ignore_items.*1 → s ∉ ["drums"; bos_tok; eos_tok; pad_tok; unk_tok]) →
  NoDup (Vocab.vocab self ignore_items).
Proof.
  intros Htime Hvel Hkeys Hreserved.
  assert ("drums" ∉ ignore_items.*1) as Hdrums.
  { intros Hin. apply (Hreserved _ Hin). by left. }
  pose proof (NoDup_instrument_tokens _ Hkeys Hdrums) as Hinst.
  unfold Vocab.vocab. apply NoDup_app. split; [|split].
  { unfold Vocab.special_tokens. apply (bool_decide_unpack _). by vm_compute. }
  { intros tok Hspecial. rewrite elem_of_app. intros [Hin|Hin].
    - apply list_elem_of_fmap in Hin as (s & -> & Hs).
      assert (s ∈ [bos_tok; eos_tok; pad_tok; unk_tok]) as Hs'.
      { unfold Vocab.special_tokens in Hspecial.
        rewrite !elem_of_cons, elem_of_nil in Hspecial. rewrite !elem_of_cons.
        destruct Hspecial as [[= ->]|[[= ->]|[[= ->]|[[= ->]|[]]]]]; auto 10. }
      unfold Vocab.instrument_tokens in Hs. apply elem_of_app in Hs as [Hs|Hs].
      + apply elem_of_filter_keys in Hs. apply (Hreserved _ Hs). by right.
      + apply list_elem_of_singleton in Hs as ->. revert Hs'.
        apply (bool_decide_unpack _). by vm_compute.
    - unfold Vocab.special_tokens in Hspecial.
      rewrite !elem_of_cons, elem_of_nil in Hspecial.
      destruct Hspecial as [->|[->|[->|[->|[]]]]];
        by eapply (vocab_tail_not_str _ _ _ Hin). }
  apply NoDup_app. split; [|split].
  { apply NoDup_fmap_2_strong; [|done]. by intros ?? _ _ [=]. }
  { intros tok (s & -> & _)%list_elem_of_fmap Hin.
    by eapply (vocab_tail_not_str _ _ _ Hin). }
  apply NoDup_app. split; [|split].
  { by apply NoDup_note_tokens. }
  { intros tok Hnote. unfold Vocab.note_tokens in Hnote.
    apply list_elem_of_bind in Hnote
      as (? & (? & (? & ->%list_elem_of_singleton & _)%list_elem_of_bind & _)
                %list_elem_of_bind & _).
    rewrite elem_of_app. unfold Vocab.drum_tokens, Vocab.wait_tokens.
    by intros [(? & [=] & _)%list_elem_of_fmap|(? & [=] & _)%list_elem_of_fmap]. }
  apply NoDup_app. split; [|split].
  { apply NoDup_fmap_2_strong; [|apply NoDup_seqZ]. by intros ?? _ _ [=]. }
  { by intros tok (p & -> & _)%list_elem_of_fmap (q & [=] & _)%list_elem_of_fmap. }
  apply NoDup_fmap_2_strong; [|done]. by intros ?? _ _ [=].
Qed.

Lemma NoDup_ladders (padding_ : bool) (truncate_type_ : string)
    (max_seq_len_ : Z) (stride_len_ : option Z) (config_ : LazyConfig)
    (self : TokenizerLazy) :
  TokenizerLazy_init padding_ truncate_type_ max_seq_len_ stride_len_ config_ = Ok self →
  (time_min_step config_ ≠ 0 → NoDup (time_step_quantizations self))
  ∧ NoDup (velocity_quantizations self).
Proof.
  intros Hinit.
  apply TokenizerLazy_init_Ok in Hinit
    as (_ & _ & _ & _ & _ & _ & _ & _ & Htime & _ & _ & k & _ & Hvel & _ & Hk).
  rewrite Htime, Hvel. split.
  - intros Hmin. apply NoDup_fmap_2_strong; [|apply NoDup_seqZ]. intros; nia.
  - assert (velocity_quantization_step config_ ≠ 0) as Hstep.
    { intros Hzero. rewrite Hzero in Hk. discriminate Hk. }
    apply NoDup_fmap_2_strong; [|apply NoDup_seqZ]. intros; nia.
Qed.

(** X16: when the minimum time step is not 0 and the instrument names of the
    configuration are distinct and none of them is the drum marker or a
    special token, the vocabulary has no token twice: the id of a token is
    its position in the vocabulary, every id from 0 to [vocab_size - 1]
    decodes to the token at that position, and the pad token has id 2. *)
Theorem vocab_ids (padding_ : bool) (truncate_type_ : string)
    (max_seq_len_ : Z) (stride_len_ : option Z) (config_ : LazyConfig)
    (self : TokenizerLazy) (ignore_items : list (string * bool)) :
  TokenizerLazy_init padding_ truncate_type_ max_seq_len_ stride_len_ config_ = Ok self →
  time_min_step config_ ≠ 0 →
  NoDup ignore_items.*1 →
  (∀ s, s ∈ ignore_items.*1 → s ∉ ["drums"; bos_tok; eos_tok; pad_tok; unk_tok]) →
  NoDup (Vocab.vocab self ignore_items)
  ∧ (∀ tok i, Vocab.tok_to_id self ignore_items !! tok = Some i
              ↔ 0 <= i ∧ Vocab.vocab self ignore_items !! Z.to_nat i = Some tok)
  ∧ (∀ i, 0 <= i →
          Vocab.id_to_tok self ignore_items !! i
          = Vocab.vocab self ignore_items !! Z.to_nat i)
  ∧ Vocab.pad_id self ignore_items = Ok 2
  ∧ Vocab.vocab_size self ignore_items
    = 4 + py_len (Vocab.instrument_tokens ignore_items)
      + py_len (Vocab.instrument_tokens ignore_items) * 128
        * py_len (velocity_quantizations self)
      + 47 + time_num_steps config_.
Proof.
  intros Hinit Hmin Hkeys Hreserved.
  destruct (NoDup_ladders _ _ _ _ _ _ Hinit) as [Htime Hvel]. specialize (Htime Hmin).
  pose proof (NoDup_vocab self ignore_items Htime Hvel Hkeys Hreserved) as Hnodup.
  assert (∀ tok i, Vocab.tok_to_id self ignore_items !! tok = Some i
                   ↔ 0 <= i ∧ Vocab.vocab self ignore_items !! Z.to_nat i = Some tok)
    as Hids.
  { intros tok i. split.
    - intros Hi. apply tok_to_id_lookup in Hi as [Hrange Hi]. split; [lia|done].
    - intros [Hi Hlook].
      destruct (proj1 (tok_to_id_is_Some self ignore_items tok)) as [j Hj].
      { by eapply list_elem_of_lookup_2. }
      pose proof (tok_to_id_lookup _ _ _ _ Hj) as [Hjr Hjl].
      rewrite Hj. f_equal.
      pose proof (NoDup_lookup _ _ _ _ Hnodup Hjl Hlook). lia. }
  split; [done|]. split; [done|]. split; [|split].
  - intros i Hi.
    destruct (Vocab.vocab self ignore_items !! Z.to_nat i) as [tok|] eqn:Hlook.
    + by apply id_to_tok_lookup, Hids.
    + destruct (Vocab.id_to_tok self ignore_items !! i) as [tok|] eqn:Hid; [|done].
      apply id_to_tok_lookup, Hids in Hid as [_ Hid]. congruence.
  - unfold Vocab.pad_id. apply dict_get_Some, Hids. split; [lia|]. reflexivity.
  - apply TokenizerLazy_init_Ok in Hinit
      as (_ & _ & _ & _ & _ & _ & _ & Hnum & Hladder & _).
    unfold Vocab.vocab_size, Vocab.vocab, Vocab.wait_tokens, Vocab.drum_tokens, py_len.
    rewrite !length_app, !length_fmap, Hladder, length_fmap.
    unfold Vocab.note_tokens, py_range.
    rewrite (length_bind_const _ (128 * length (velocity_quantizations self))).
    + rewrite !length_seqZ. simpl length. lia.
    + intros inst.
      rewrite (length_bind_const _ (length (velocity_quantizations self))).
      * by rewrite length_seqZ.
      * intros p. rewrite (length_bind_const _ 1); [lia|done].
Qed.

Lemma vocab_ids_witness :
  TokenizerLazy_init false "none" 512 None example_config
    = Ok (example_tokenizer false "none" 512 None)
  ∧ time_min_step example_config ≠ 0
  ∧ NoDup small_items.*1
  ∧ (∀ s, s ∈ small_items.*1 → s ∉ ["drums"; bos_tok; eos_tok; pad_tok; unk_tok])
  ∧ Vocab.pad_id (example_tokenizer false "none" 512 None) small_items = Ok 2
  ∧ Vocab.vocab_size (example_tokenizer false "none" 512 None) small_items = 3392.
Proof.
  assert (time_min_step example_config ≠ 0) as Hmin by done.
  assert (NoDup small_items.*1) as Hkeys.
  { apply (bool_decide_unpack _). by vm_compute. }
  assert (∀ s, s ∈ small_items.*1 →
               s ∉ ["drums"; bos_tok; eos_tok; pad_tok; unk_tok]) as Hreserved.
  { apply Forall_forall. apply (bool_decide_unpack _). by vm_compute. }
  split; [exact example_tokenizer_init|]. split; [exact Hmin|]. split; [exact Hkeys|].
  split; [exact Hreserved|].
  destruct (vocab_ids _ _ _ _ _ _ small_items example_tokenizer_init Hmin Hkeys Hreserved)
    as (_ & _ & _ & Hpad & Hsize).
  split; [exact Hpad|]. rewrite Hsize. reflexivity.
Defined.

(** ** The augmentations and the vocabulary *)

Lemma pitch_aug_tok_vocab (self : TokenizerLazy) (ignore_items : list (string * bool))
    (tok : token) (pitch_aug : Z) :
  tok ∈ Vocab.vocab self ignore_items →
  ∃ tok', pitch_aug_tok unk_tok tok pitch_aug = Ok tok'
          ∧ tok' ∈ Vocab.vocab self ignore_items.
Proof.
  intros Hin. pose proof Hin as Hshape. apply elem_of_vocab in Hshape.
  destruct tok as [s|tag [q|]|inst p [v|]]; cbn [in_vocab] in Hshape; try done.
  - by exists (TStr s).
  - exists (TPair tag (PInt q)). split; [|done].
    by destruct Hshape as [[-> _]|[-> _]].
  - cbn [pitch_aug_tok]. destruct (returned_unchanged inst); [by eexists|].
    case_bool_decide as Hrange; eexists; (split; [reflexivity|]); apply elem_of_vocab.
    + cbn [in_vocab]. destruct Hshape as (? & _ & ?). split; [done|]. split; [lia|done].
    + cbn [in_vocab]. left. do 3 apply list_elem_of_further. apply list_elem_of_here.
Qed.

Lemma velocity_aug_tok_vocab (padding_ : bool) (truncate_type_ : string)
    (max_seq_len_ : Z) (stride_len_ : option Z) (config_ : LazyConfig)
    (self : TokenizerLazy) (ignore_items : list (string * bool))
    (tok : token) (drawn : Z) :
  TokenizerLazy_init padding_ truncate_type_ max_seq_len_ stride_len_ config_ = Ok self →
  1 <= velocity_quantization_step config_ <= 127 →
  tok ∈ Vocab.vocab self ignore_items →
  ∃ tok', velocity_aug_tok (velocity_step self) (max_velocity self) tok
            (velocity_step self * drawn) = Ok tok'
          ∧ tok' ∈ Vocab.vocab self ignore_items.
Proof.
  intros Hinit Hstep Hin. pose proof Hin as Hshape. apply elem_of_vocab in Hshape.
  destruct tok as [s|tag [q|]|inst p [v|]]; cbn [in_vocab] in Hshape; try done.
  - by exists (TStr s).
  - exists (TPair tag (PInt q)). split; [|done].
    by destruct Hshape as [[-> _]|[-> _]].
  - cbn [velocity_aug_tok]. destruct (returned_unchanged inst); [by eexists|].
    destruct Hshape as (Hinst & Hp & Hv).
    destruct (velocity_bounds _ _ _ _ _ _ Hinit Hstep) as (Hvs & Hmax & Hle).
    apply TokenizerLazy_init_Ok in Hinit
      as (_ & _ & _ & _ & _ & _ & _ & _ & _ & _ & _ & k & Hk & Hladder & Hmaxk & _).
    rewrite velocity_ladder_eq in Hladder. rewrite Hladder in Hv.
    apply elem_of_range_ladder in Hv as (j & Hj & ->).
    assert (1 <= k) as Hk1 by nia.
    assert (∀ i, 0 <= i <= k →
              TNote inst p (PInt (velocity_quantization_step config_ * i))
              ∈ Vocab.vocab self ignore_items) as Hnote.
    { intros i Hi. apply elem_of_vocab. cbn [in_vocab]. split; [done|]. split; [done|].
      rewrite Hladder. apply elem_of_range_ladder. exists i. split; [lia|done]. }
    cbn [sum_ge sum_le pynum_add]. rewrite Hvs, Hmaxk, bind_Ok_eq.
    case_bool_decide as Habove; [|rewrite bind_Ok_eq; case_bool_decide as Hbelow];
      eexists; (split; [reflexivity|]).
    + replace (k * velocity_quantization_step config_)
        with (velocity_quantization_step config_ * k) by lia. apply Hnote. lia.
    + replace (velocity_quantization_step config_)
        with (velocity_quantization_step config_ * 1) at 1 by lia. apply Hnote. lia.
    + replace (velocity_quantization_step config_ * j
               + velocity_quantization_step config_ * drawn)
        with (velocity_quantization_step config_ * (j + drawn)) by lia.
      apply Hnote. nia.
Qed.

Lemma mapM_Forall {A B} (f : A → result B) (P : A → Prop) (Q : B → Prop) (l : list A) :
  (∀ x, P x → ∃ y, f x = Ok y ∧ Q y) →
  Forall P l → ∃ ys, mapM f l = Ok ys ∧ length ys = length l ∧ Forall Q ys.
Proof.
  intros Hf. induction 1 as [|x l Hx _ (ys & Hys & Hlen & Hall)].
  - exists []. by repeat split.
  - destruct (Hf x Hx) as (y & Hy & Hq). exists (y :: ys).
    cbn [mapM]. rewrite Hy, bind_Ok_eq, Hys, bind_Ok_eq.
    split; [done|]. split; [by rewrite !length_cons, Hlen | by constructor].
Qed.

(** X17: both augmentations turn a sequence of tokens of the vocabulary into
    a sequence of tokens of the vocabulary of the same length, whatever
    offset is drawn: a note shifted out of the pitch range becomes the
    unknown token, and a shifted velocity is again a value of the velocity
    ladder. *)
Theorem augmentation_keeps_vocab (padding_ : bool) (truncate_type_ : string)
    (max_seq_len_ : Z) (stride_len_ : option Z) (config_ : LazyConfig)
    (self : TokenizerLazy) (ignore_items : list (string * bool))
    (aug_range aug_steps_range : Z) (src : list token) (pitch_aug drawn : Z) :
  TokenizerLazy_init padding_ truncate_type_ max_seq_len_ stride_len_ config_ = Ok self →
  1 <= velocity_quantization_step config_ <= 127 →
  0 <= aug_range → 0 <= aug_steps_range →
  Forall (λ tok, tok ∈ Vocab.vocab self ignore_items) src →
  (∃ out, export_pitch_aug self aug_range src pitch_aug = Ok out
          ∧ length out = length src
          ∧ Forall (λ tok, tok ∈ Vocab.vocab self ignore_items) out)
  ∧ (∃ out, export_velocity_aug self aug_steps_range src drawn = Ok out
            ∧ length out = length src
            ∧ Forall (λ tok, tok ∈ Vocab.vocab self ignore_items) out).
Proof.
  intros Hinit Hstep Hrange Hsteps Hsrc. split.
  - unfold export_pitch_aug, pitch_aug_seq. rewrite bool_decide_eq_false_2 by lia.
    apply (mapM_Forall _ (λ tok, tok ∈ Vocab.vocab self ignore_items)); [|done].
    intros tok Htok. by apply pitch_aug_tok_vocab.
  - unfold export_velocity_aug, velocity_aug_seq. rewrite bool_decide_eq_false_2 by lia.
    apply (mapM_Forall _ (λ tok, tok ∈ Vocab.vocab self ignore_items)); [|done].
    intros tok Htok. by eapply velocity_aug_tok_vocab.
Qed.

Lemma augmentation_keeps_vocab_witness :
  TokenizerLazy_init false "none" 512 None example_config
    = Ok (example_tokenizer false "none" 512 None)
  ∧ 1 <= velocity_quantization_step example_config <= 127
  ∧ 0 <= 5 ∧ 0 <= 2
  ∧ Forall (λ tok, tok ∈ Vocab.vocab (example_tokenizer false "none" 512 None) small_items)
           [TNote "piano" 125 (PInt 60); TPair "wait" (PInt 50)]
  ∧ export_pitch_aug (example_tokenizer false "none" 512 None) 5
      [TNote "piano" 125 (PInt 60); TPair "wait" (PInt 50)] 3
    = Ok [TStr "<U>"; TPair "wait" (PInt 50)]
  ∧ export_velocity_aug (example_tokenizer false "none" 512 None) 2
      [TNote "piano" 125 (PInt 60); TPair "wait" (PInt 50)] (-1)
    = Ok [TNote "piano" 125 (PInt 50); TPair "wait" (PInt 50)]
  ∧ ∃ out, export_pitch_aug (example_tokenizer false "none" 512 None) 5
             [TNote "piano" 125 (PInt 60); TPair "wait" (PInt 50)] 3 = Ok out
           ∧ length out = 2%nat
           ∧ Forall (λ tok, tok ∈ Vocab.vocab (example_tokenizer false "none" 512 None)
                                  small_items) out.
Proof.
  assert (1 <= velocity_quantization_step example_config <= 127) as Hstep
    by (simpl; lia).
  assert (0 <= 5) as Hrange by lia.
  assert (0 <= 2) as Hsteps by lia.
  assert (Forall (λ tok, tok ∈ Vocab.vocab (example_tokenizer false "none" 512 None)
                               small_items)
                 [TNote "piano" 125 (PInt 60); TPair "wait" (PInt 50)]) as Hsrc.
  { apply Forall_cons; split; [|apply Forall_singleton]; apply elem_of_vocab;
      cbn [in_vocab].
    - split; [|split; [lia|]]; apply (bool_decide_unpack _); by vm_compute.
    - right. split; [done|]. apply (bool_decide_unpack _). by vm_compute. }
  split; [exact example_tokenizer_init|]. split; [exact Hstep|].
  split; [exact Hrange|]. split; [exact Hsteps|]. split; [exact Hsrc|].
  split; [vm_compute; reflexivity|]. split; [vm_compute; reflexivity|].
  exact (proj1 (augmentation_keeps_vocab _ _ _ _ _ _ small_items 5 2 _ 3 (-1)
                  example_tokenizer_init Hstep Hrange Hsteps Hsrc)).
Defined.

Lemma pitch_aug_tok_back (tok tok' : token) (pitch_aug : Z) :
  pitch_aug_tok unk_tok tok pitch_aug = Ok tok' →
  (∀ _instrument _pitch _velocity,
     tok = TNote _instrument _pitch _velocity →
     returned_unchanged _instrument = false →
     0 <= _pitch <= 127 ∧ 0 <= _pitch + pitch_aug <= 127) →
  pitch_aug_tok unk_tok tok' (- pitch_aug) = Ok tok.
Proof.
  intros H Hrange. destruct tok as [s|tag v|inst p v]; cbn [pitch_aug_tok] in H.
  - by injection H as <-.
  - destruct (returned_unchanged tag) eqn:Htag; [|done]. injection H as <-.
    cbn [pitch_aug_tok]. by rewrite Htag.
  - destruct (returned_unchanged inst) eqn:Hinst.
    + injection H as <-. cbn [pitch_aug_tok]. by rewrite Hinst.
    + destruct (Hrange inst p v eq_refl Hinst) as [Hp Hshift].
      rewrite bool_decide_eq_true_2 in H by done. injection H as <-.
      cbn [pitch_aug_tok]. rewrite Hinst, bool_decide_eq_true_2 by lia.
      do 2 f_equal. lia.
Qed.

(** X18: a pitch augmentation that keeps every note between 0 and 127 is
    undone by the augmentation of the opposite offset. *)
Theorem pitch_aug_inverse (self : TokenizerLazy) (aug_range : Z)
    (src out : list token) (pitch_aug : Z) :
  export_pitch_aug self aug_range src pitch_aug = Ok out →
  (∀ _instrument _pitch _velocity,
     TNote _instrument _pitch _velocity ∈ src →
     returned_unchanged _instrument = false →
     0 <= _pitch <= 127 ∧ 0 <= _pitch + pitch_aug <= 127) →
  export_pitch_aug self aug_range out (- pitch_aug) = Ok src.
Proof.
  unfold export_pitch_aug, pitch_aug_seq. case_bool_decide as Hneg; [done|].
  revert out. induction src as [|tok src IH]; intros out H Hrange; cbn [mapM] in H.
  - by injection H as <-.
  - inv_bind H as tok' Htok. inv_bind H as out' Hout. injection H as <-.
    cbn [mapM]. rewrite (pitch_aug_tok_back tok tok' pitch_aug Htok), bind_Ok_eq.
    + rewrite (IH out' Hout); [done|].
      intros inst p v Hin. apply (Hrange inst p v). by right.
    + intros inst p v ->. apply (Hrange inst p v). by left.
Qed.

Lemma pitch_aug_inverse_witness :
  export_pitch_aug (example_tokenizer false "none" 512 None) 5
    [TNote "piano" 60 (PInt 60); TPair "dur" (PInt 50)] 3
  = Ok [TNote "piano" 63 (PInt 60); TPair "dur" (PInt 50)]
  ∧ (∀ _instrument _pitch _velocity,
       TNote _instrument _pitch _velocity
       ∈ [TNote "piano" 60 (PInt 60); TPair "dur" (PInt 50)] →
       returned_unchanged _instrument = false →
       0 <= _pitch <= 127 ∧ 0 <= _pitch + 3 <= 127)
  ∧ export_pitch_aug (example_tokenizer false "none" 512 None) 5
      [TNote "piano" 63 (PInt 60); TPair "dur" (PInt 50)] (- 3)
    = Ok [TNote "piano" 60 (PInt 60); TPair "dur" (PInt 50)].
Proof.
  assert (export_pitch_aug (example_tokenizer false "none" 512 None) 5
            [TNote "piano" 60 (PInt 60); TPair "dur" (PInt 50)] 3
          = Ok [TNote "piano" 63 (PInt 60); TPair "dur" (PInt 50)]) as Hout
    by (vm_compute; reflexivity).
  assert (∀ _instrument _pitch _velocity,
            TNote _instrument _pitch _velocity
            ∈ [TNote "piano" 60 (PInt 60); TPair "dur" (PInt 50)] →
            returned_unchanged _instrument = false →
            0 <= _pitch <= 127 ∧ 0 <= _pitch + 3 <= 127) as Hrange.
  { intros inst p v Hin _. rewrite !elem_of_cons, elem_of_nil in Hin.
    destruct Hin as [[= -> -> ->]|[[=]|[]]]. lia. }
  split; [exact Hout|]. split; [exact Hrange|].
  exact (pitch_aug_inverse _ 5 _ _ 3 Hout Hrange).
Defined.

(** ** The constructor *)

Lemma py_last_range_ladder {A} (f : Z → A) (n : Z) :
  py_last (f <$> py_range n)
  = if decide (0 < n) then Ok (f (n - 1)) else Raise IndexError.
Proof. unfold py_last. rewrite last_fmap_range. by case_decide. Qed.

Lemma init_assertions (truncate_type_ : string) (max_seq_len_ : Z)
    (stride_len_ : option Z) :
  valid_truncation truncate_type_ max_seq_len_ stride_len_ →
  py_assert (bool_decide (truncate_type_ ∈ ["none"; "default"; "strided"])) = Ok tt
  ∧ (if bool_decide (truncate_type_ = "strided")
     then py_assert (match stride_len_ with
                     | Some s => bool_decide (0 < s < max_seq_len_)
                     | None => false
                     end)
     else Ok tt) = Ok tt.
Proof.
  intros [Htt Hstride]. rewrite (bool_decide_eq_true_2 _ Htt). split; [done|].
  case_bool_decide as Hs; [|done]. destruct (Hstride Hs) as (s & -> & Hrange).
  by rewrite (bool_decide_eq_true_2 _ Hrange).
Qed.

(** X19: what [__init__] does with its arguments and the configuration.  A
    truncation type outside the three names, or a strided truncation without
    a stride between 0 and [max_seq_len], fails the assertion; then a number
    of time steps that is not positive raises [IndexError], then a velocity
    step of 0 raises [ZeroDivisionError]; with a velocity step from 1 to
    127 the tokenizer is built. *)
Theorem TokenizerLazy_init_cases (padding_ : bool) (truncate_type_ : string)
    (max_seq_len_ : Z) (stride_len_ : option Z) (config_ : LazyConfig) :
  (¬ valid_truncation truncate_type_ max_seq_len_ stride_len_ →
   TokenizerLazy_init padding_ truncate_type_ max_seq_len_ stride_len_ config_
   = Raise AssertionError)
  ∧ (valid_truncation truncate_type_ max_seq_len_ stride_len_ →
     (time_num_steps config_ <= 0 →
      TokenizerLazy_init padding_ truncate_type_ max_seq_len_ stride_len_ config_
      = Raise IndexError)
     ∧ (0 < time_num_steps config_ → velocity_quantization_step config_ = 0 →
        TokenizerLazy_init padding_ truncate_type_ max_seq_len_ stride_len_ config_
        = Raise ZeroDivisionError)
     ∧ (0 < time_num_steps config_ → 1 <= velocity_quantization_step config_ <= 127 →
        ∃ self,
          TokenizerLazy_init padding_ truncate_type_ max_seq_len_ stride_len_ config_
          = Ok self
          ∧ max_time_step self = time_min_step config_ * (time_num_steps config_ - 1)
          ∧ max_velocity self
            = 127 `div` velocity_quantization_step config_
              * velocity_quantization_step config_)).
Proof.
  split.
  - intros Hinvalid. unfold TokenizerLazy_init.
    destruct (decide (truncate_type_ ∈ ["none"; "default"; "strided"])) as [Htt|Htt].
    2: { by rewrite (bool_decide_eq_false_2 _ Htt). }
    rewrite (bool_decide_eq_true_2 _ Htt). cbn [py_assert]. rewrite bind_Ok_eq.
    destruct (decide (truncate_type_ = "strided")) as [Hs|Hs].
    2: { destruct Hinvalid. by split. }
    rewrite (bool_decide_eq_true_2 _ Hs).
    destruct stride_len_ as [s|]; [|reflexivity].
    destruct (decide (0 < s < max_seq_len_)) as [Hrange|Hrange].
    2: { by rewrite (bool_decide_eq_false_2 _ Hrange). }
    destruct Hinvalid. split; [done|]. intros _. by exists s.
  - intros Hvalid. destruct (init_assertions _ _ _ Hvalid) as [Htt Hstride].
    unfold TokenizerLazy_init. rewrite Htt, bind_Ok_eq, Hstride, bind_Ok_eq.
    rewrite py_last_range_ladder. split; [|split].
    + intros Hnum. by rewrite decide_False by lia.
    + intros Hnum Hzero. rewrite decide_True by done. rewrite bind_Ok_eq.
      unfold velocity_top_index. by rewrite Hzero.
    + intros Hnum Hstep. rewrite decide_True by done. rewrite bind_Ok_eq.
      rewrite (velocity_top_index_small _ Hstep), bind_Ok_eq.
      rewrite py_last_range_ladder.
      assert (0 <= 127 `div` velocity_quantization_step config_)
        by (apply Z.div_pos; lia).
      rewrite decide_True by lia. rewrite bind_Ok_eq.
      eexists. split; [reflexivity|]. cbn [max_time_step max_velocity].
      split; [done|]. f_equal. lia.
Qed.

(** X20: when the time ladder has no positive value (one time step, or a
    minimum step that is not positive), the loop that splits a wait longer
    than the maximum never ends: no number of turns is enough. *)
Theorem wait_tokens_diverges (padding_ : bool) (truncate_type_ : string)
    (max_seq_len_ : Z) (stride_len_ : option Z) (config_ : LazyConfig)
    (self : TokenizerLazy) (w : Z) :
  TokenizerLazy_init padding_ truncate_type_ max_seq_len_ stride_len_ config_ = Ok self →
  time_num_steps config_ = 1 ∨ time_min_step config_ <= 0 →
  0 < w →
  (∀ fuel appended, wait_loop fuel (max_time_step self) w appended = None)
  ∧ wait_tokens self w = Diverge.
Proof.
  intros Hinit Hcfg Hw.
  apply TokenizerLazy_init_Ok in Hinit
    as (_ & _ & _ & _ & _ & _ & _ & Hnum & _ & Hmax & _).
  assert (max_time_step self <= 0) as Hle.
  { rewrite Hmax. destruct Hcfg as [->|Hmin]; [lia|nia]. }
  assert (∀ fuel appended, wait_loop fuel (max_time_step self) w appended = None)
    as Hloop.
  { intros fuel appended. apply wait_loop_diverges; lia. }
  split; [done|]. unfold wait_tokens. by rewrite Hloop.
Qed.

Lemma wait_tokens_diverges_witness :
  TokenizerLazy_init false "none" 512 None
    {| time_num_steps := 1; time_min_step := 10; velocity_quantization_step := 10;
       ignore_instruments := ∅ |}
  = Ok {| padding := false; truncate_type := "none"; max_seq_len := 512;
          stride_len := None;
          config := {| time_num_steps := 1; time_min_step := 10;
                       velocity_quantization_step := 10; ignore_instruments := ∅ |};
          num_time_step := 1; min_time_step := 10;
          time_step_quantizations := [0]; max_time_step := 0; velocity_step := 10;
          velocity_quantizations := (λ i, i * 10) <$> py_range 13;
          max_velocity := 120 |}
  ∧ (1 = 1 ∨ 10 <= 0)
  ∧ 0 < 5
  ∧ wait_tokens {| padding := false; truncate_type := "none"; max_seq_len := 512;
                   stride_len := None;
                   config := {| time_num_steps := 1; time_min_step := 10;
                                velocity_quantization_step := 10;
                                ignore_instruments := ∅ |};
                   num_time_step := 1; min_time_step := 10;
                   time_step_quantizations := [0]; max_time_step := 0;
                   velocity_step := 10;
                   velocity_quantizations := (λ i, i * 10) <$> py_range 13;
                   max_velocity := 120 |} 5
    = Diverge.
Proof.
  assert (TokenizerLazy_init false "none" 512 None
            {| time_num_steps := 1; time_min_step := 10;
               velocity_quantization_step := 10; ignore_instruments := ∅ |}
          = Ok {| padding := false; truncate_type := "none"; max_seq_len := 512;
                  stride_len := None;
                  config := {| time_num_steps := 1; time_min_step := 10;
                               velocity_quantization_step := 10;
                               ignore_instruments := ∅ |};
                  num_time_step := 1; min_time_step := 10;
                  time_step_quantizations := [0]; max_time_step := 0;
                  velocity_step := 10;
                  velocity_quantizations := (λ i, i * 10) <$> py_range 13;
                  max_velocity := 120 |}) as Hinit by (vm_compute; reflexivity).
  assert (1 = 1 ∨ 10 <= 0) as Hcfg by (left; reflexivity).
  assert (0 < 5) as Hw by lia.
  split; [exact Hinit|]. split; [exact Hcfg|]. split; [exact Hw|].
  exact (proj2 (wait_tokens_diverges _ _ _ _ _ _ 5 Hinit Hcfg Hw)).
Defined.

(** ** A note on a channel without declaration *)

Lemma channel_to_instrument_of_Ok (msgs : list instrument_msg) :
  (∀ msg, msg ∈ msgs → 0 <= instr_data msg <= 127) →
  ∃ d, channel_to_instrument_of msgs = Ok d.
Proof.
  induction msgs as [|msg msgs IH] using rev_ind; intros Hrange.
  - by exists ∅.
  - destruct IH as [d Hd].
    { intros m Hm. apply Hrange, elem_of_app. by left. }
    rewrite channel_to_instrument_of_snoc, Hd, bind_Ok_eq.
    destruct (is_drum_channel (instr_channel msg)); [by eexists|].
    destruct (program_to_instrument_total (instr_data msg)) as (family & _ & Hname).
    { apply Hrange, elem_of_app. right. by apply list_elem_of_singleton. }
    rewrite (dict_get_Some _ _ _ Hname), bind_Ok_eq. by eexists.
Qed.

Lemma filter_none {A} (P : A → Prop) `{!∀ x, Decision (P x)} (l : list A) :
  (∀ x, x ∈ l → ¬ P x) → filter P l = [].
Proof.
  induction l as [|x l IH]; intros Hall; [done|].
  rewrite filter_cons_False by (apply Hall; by left).
  apply IH. intros y Hy. apply Hall. by right.
Qed.

(** X21: a stream whose first note is on a channel, outside the drum
    channels, for which the stream declares no instrument cannot be
    encoded: [tokenize_midi_dict] raises [KeyError]. *)
Theorem tokenize_midi_dict_undeclared_channel (list_of_set : list string → list string)
    (self : TokenizerLazy) (midi_dict : MidiDict) (first : note_msg)
    (rest : list note_msg) :
  config_complete (config self) →
  (∀ msg, msg ∈ instrument_msgs midi_dict → 0 <= instr_data msg <= 127) →
  note_msgs midi_dict = first :: rest →
  is_drum_channel (note_channel first) = false →
  (∀ msg, msg ∈ instrument_msgs midi_dict → instr_channel msg ≠ note_channel first) →
  tokenize_midi_dict list_of_set self midi_dict = Raise KeyError.
Proof.
  intros Hcfg Hrange Hnotes Hdrum Hnone. unfold tokenize_midi_dict.
  destruct (remove_instruments_eq self midi_dict Hcfg) as (chans & Hch & ->).
  rewrite bind_Ok_eq.
  cbn [tempo_msgs pedal_msgs instrument_msgs note_msgs ticks_per_beat].
  set (kept := filter (λ msg, instr_channel msg ∉ chans) (instrument_msgs midi_dict)).
  assert (note_channel first ∉ chans) as Hkept.
  { intros [_ (msg & Hin & Heq & _)]%Hch. by apply (Hnone msg Hin). }
  rewrite Hnotes, filter_cons_True by done.
  unfold _build_pedal_intervals at 1. cbn [pedal_msgs note_msgs].
  destruct (foldl pedal_step (∅, ∅) _) as [d0 status].
  assert (∃ last_note,
            py_last (first :: filter (λ msg, note_channel msg ∉ chans) rest)
            = Ok last_note) as [last_note ->].
  { unfold py_last.
    destruct (last (first :: filter (λ msg, note_channel msg ∉ chans) rest))
      as [x|] eqn:Hlast; [by eexists|].
    by apply last_None in Hlast. }
  rewrite !bind_Ok_eq.
  assert (∀ msg, msg ∈ kept → 0 <= instr_data msg <= 127) as Hrange'.
  { intros msg [_ Hin]%list_elem_of_filter. by apply Hrange. }
  destruct (channel_to_instrument_of_Ok kept Hrange') as [c2i Hc2i].
  rewrite Hc2i, bind_Ok_eq.
  destruct (declared_instruments_Ok kept Hrange') as [names Hnames].
  unfold present_instruments_of. rewrite Hnames, !bind_Ok_eq.
  cbn [tokenize_notes]. unfold note_tokens at 1. rewrite Hdrum.
  pose proof (channel_to_instrument_of_lookup _ _ Hc2i (note_channel first)) as Hlook.
  rewrite Hdrum in Hlook.
  assert (declarations_on (note_channel first) kept = []) as Hempty.
  { unfold declarations_on. apply filter_none.
    intros msg [_ Hin]%list_elem_of_filter. by apply Hnone. }
  rewrite Hempty in Hlook. cbn in Hlook.
  unfold dict_get at 1. rewrite Hlook. reflexivity.
Qed.

Lemma tokenize_midi_dict_undeclared_channel_witness :
  config_complete (config (example_tokenizer false "none" 512 None))
  ∧ (∀ msg, msg ∈ instrument_msgs undeclared_piano → 0 <= instr_data msg <= 127)
  ∧ note_msgs undeclared_piano
    = [ {| note_channel := 0; pitch := 60; start := 0; end_ := 48; velocity := 64 |} ]
  ∧ is_drum_channel 0 = false
  ∧ (∀ msg, msg ∈ instrument_msgs undeclared_piano → instr_channel msg ≠ 0)
  ∧ tokenize_midi_dict remove_dups (example_tokenizer false "none" 512 None)
      undeclared_piano
    = Raise KeyError.
Proof.
  assert (∀ msg, msg ∈ instrument_msgs undeclared_piano → 0 <= instr_data msg <= 127)
    as Hrange by (intros msg Hmsg; by apply elem_of_nil in Hmsg).
  assert (note_msgs undeclared_piano
          = [ {| note_channel := 0; pitch := 60; start := 0; end_ := 48;
                 velocity := 64 |} ]) as Hnotes by reflexivity.
  assert (is_drum_channel 0 = false) as Hdrum by reflexivity.
  assert (∀ msg, msg ∈ instrument_msgs undeclared_piano → instr_channel msg ≠ 0)
    as Hnone by (intros msg Hmsg; by apply elem_of_nil in Hmsg).
  split; [exact example_config_complete|]. split; [exact Hrange|].
  split; [exact Hnotes|]. split; [exact Hdrum|]. split; [exact Hnone|].
  exact (tokenize_midi_dict_undeclared_channel remove_dups
           (example_tokenizer false "none" 512 None) undeclared_piano _ _
           example_config_complete Hrange Hnotes Hdrum Hnone).
Defined.
